(** * Color Tap Mania: the per-frame simulation of [GameCanvas.tsx]

    A shallow embedding of the simulation core of the game: the palette
    and entity records of [lib/gameTypes], and, from
    [components/game/GameCanvas.tsx], [createObstacle],
    [generateInitialObstacles], [initGame], [handleTap], [checkCollision],
    [checkColorSwitcher], the body of [gameLoop], the drawings of the
    obstacles, and the effects that start, stop and restart the frame
    loop; from [components/game/ColorSwitchGame.tsx], the state of the
    parent component, [handleGameOver] and the high score it keeps in
    local storage.

    JavaScript numbers are modelled by the real numbers of the Standard
    Library (exact arithmetic, no rounding, no NaN and no infinities);
    the score and array indices are integers.  [Math.random] is an oracle
    [rnd : nat -> R], read at a position that is part of the state.
    [console.log] (and the random draw that only gates a debug log) has
    no effect on the simulation state and is left out, and so is the
    drawing of all but the obstacles; the canvas, its 2d context and
    the game state are taken to exist when [gameLoop] runs. *)

From Equations Require Import Equations.
From Equations.Prop Require Import Logic.
From Stdlib Require Import Reals Lra Lia ZArith List Bool Psatz.
From Stdlib Require Strings.String Strings.Ascii.
Import ListNotations.
Import String.StringSyntax Ascii.AsciiSyntax.
Delimit Scope string_scope with string.
Delimit Scope char_scope with char.

Open Scope R_scope.

(** ** Comparisons of numbers as booleans *)

Definition Rltb (a b : R) : bool := if Rlt_dec a b then true else false.
Definition Rleb (a b : R) : bool := if Rle_dec a b then true else false.
Definition Rgtb (a b : R) : bool := Rltb b a.
Definition Rgeb (a b : R) : bool := Rleb b a.

(** JavaScript truthiness of a number: [0] is falsy. *)
Definition truthy (a : R) : bool := if Req_dec_T a 0 then false else true.

(** [Math.floor]. *)
Definition floor (a : R) : Z := Int_part a.

(** [Math.atan2 (y, x)], from the arctangent, quadrant by quadrant. *)
Definition atan2 (y x : R) : R :=
  if Rlt_dec 0 x then atan (y / x)
  else if Rlt_dec x 0 then
         (if Rle_dec 0 y then atan (y / x) + PI else atan (y / x) - PI)
  else if Rlt_dec 0 y then PI / 2
  else if Rlt_dec y 0 then - (PI / 2)
  else 0.

(** ** lib/gameTypes *)

Inductive GameColor : Set := cyan | purple | pink | yellow.

Definition COLOR_ORDER : list GameColor := [cyan; purple; pink; yellow].

(** A value read from [COLOR_ORDER]: [None] is JavaScript's [undefined],
    which an out-of-range read yields. *)
Definition Color : Set := option GameColor.

Definition GameColor_eq_dec (a b : GameColor) : {a = b} + {a <> b}.
Proof. decide equality. Defined.

Definition Color_eq_dec (a b : Color) : {a = b} + {a <> b}.
Proof. decide equality. apply GameColor_eq_dec. Defined.

(** [a === b] and [a !== b] on colour values. *)
Definition colorEq (a b : Color) : bool :=
  if Color_eq_dec a b then true else false.
Definition colorNeq (a b : Color) : bool := negb (colorEq a b).

(** [arr[i]] for a number [i] that is an integer. *)
Definition index {A : Type} (arr : list A) (i : Z) : option A :=
  if (i <? 0)%Z then None else nth_error arr (Z.to_nat i).

(** [arr.indexOf(v)]: the first position of [v], or [-1]. *)
Fixpoint indexOfFrom (arr : list GameColor) (v : Color) (pos : Z) : Z :=
  match arr with
  | [] => (-1)%Z
  | c :: rest => if colorEq (Some c) v then pos
                 else indexOfFrom rest v (pos + 1)%Z
  end.
Definition indexOf (arr : list GameColor) (v : Color) : Z :=
  indexOfFrom arr v 0%Z.

Inductive ObstacleType : Set := ring | dotCircle | halfRing | doubleLine.

Module Ball.
Record t : Type := mk {
  x : R;
  y : R;
  radius : R;
  velocity : R;
  color : Color
}.
End Ball.

Module Obstacle.
(** [id] keeps the random draw [generateId] builds the string from. *)
Record t : Type := mk {
  id : R;
  type : ObstacleType;
  y : R;
  rotation : R;
  rotationSpeed : R;
  radius : R;
  passed : bool
}.
End Obstacle.

Module Star.
Record t : Type := mk { id : R; x : R; y : R; collected : bool }.
End Star.

Module ColorSwitcher.
Record t : Type := mk { id : R; x : R; y : R; used : bool }.
End ColorSwitcher.

Inductive Status : Set := menu | playing | gameover.

Module GameState.
Record t : Type := mk {
  status : Status;
  score : Z;
  highScore : Z;
  ball : Ball.t;
  obstacles : list Obstacle.t;
  stars : list Star.t;
  colorSwitchers : list ColorSwitcher.t;
  cameraY : R
}.
End GameState.

Definition GRAVITY : R := 0.35.
Definition JUMP_FORCE : R := -9.
Definition BALL_RADIUS : R := 15.
Definition OBSTACLE_GAP : R := 300.

(** ** Angle normalisation of [checkCollision]

    [while (angle < 0) angle += Math.PI * 2;] and
    [while (angle >= Math.PI * 2) angle -= Math.PI * 2;].  Each loop
    runs a number of times that depends on the angle, so they are defined
    by well-founded recursion on the number of turns left. *)

Equations? whileNegative (angle : R) : R
  by wf (Z.to_nat (up (- angle / (PI * 2)))) lt :=
whileNegative angle with Rlt_dec angle 0 => {
  | left _ => whileNegative (angle + PI * 2);
  | right _ => angle }.
Proof.
  pose proof PI_RGT_0 as HPI.
  replace (- (angle + PI * 2) / (PI * 2)) with (- angle / (PI * 2) - 1)
    by (field; lra).
  assert (Hpos : 0 < - angle / (PI * 2)) by (apply Rdiv_lt_0_compat; lra).
  set (turns := - angle / (PI * 2)) in *.
  assert (Hup : up (turns - 1) = (up turns - 1)%Z).
  { symmetry.
    apply tech_up; rewrite minus_IZR; destruct (archimed turns); lra. }
  assert (Hone : (1 <= up turns)%Z).
  { destruct (archimed turns) as [Hu _].
    assert (Hz : 0 < IZR (up turns)) by lra. apply lt_IZR in Hz. lia. }
  rewrite Hup. lia.
Qed.

Equations? whileFullTurn (angle : R) : R
  by wf (Z.to_nat (up (angle / (PI * 2)))) lt :=
whileFullTurn angle with Rle_dec (PI * 2) angle => {
  | left _ => whileFullTurn (angle - PI * 2);
  | right _ => angle }.
Proof.
  pose proof PI_RGT_0 as HPI.
  replace ((angle - PI * 2) / (PI * 2)) with (angle / (PI * 2) - 1)
    by (field; lra).
  assert (Hpos : 0 < angle / (PI * 2)) by (apply Rdiv_lt_0_compat; lra).
  set (turns := angle / (PI * 2)) in *.
  assert (Hup : up (turns - 1) = (up turns - 1)%Z).
  { symmetry.
    apply tech_up; rewrite minus_IZR; destruct (archimed turns); lra. }
  assert (Hone : (1 <= up turns)%Z).
  { destruct (archimed turns) as [Hu _].
    assert (Hz : 0 < IZR (up turns)) by lra. apply lt_IZR in Hz. lia. }
  rewrite Hup. lia.
Qed.

Definition normalizeAngle (angle : R) : R :=
  whileFullTurn (whileNegative angle).

(** ** [checkCollision] *)

Definition thicknessOf (ty : ObstacleType) : R :=
  match ty with dotCircle => 20 | _ => 14 end.

(** The colour of the segment of an obstacle of type [ty] that lies at
    the normalised angle [angle]. *)
Definition segmentColorAt (ty : ObstacleType) (angle : R) : Color :=
  match ty with
  | dotCircle =>
      let dotIndex := floor ((angle / (PI * 2)) * 24) in
      let colorIndex := floor (IZR dotIndex / 6) in
      index COLOR_ORDER (Z.rem colorIndex 4)
  | _ =>
      let segmentIndex := floor (angle / (PI / 2)) in
      index COLOR_ORDER (Z.rem segmentIndex 4)
  end.

Definition checkCollision (ball : Ball.t) (obstacle : Obstacle.t)
    (centerX : R) : bool :=
  let dx := Ball.x ball - centerX in
  let dy := Ball.y ball - Obstacle.y obstacle in
  let distance := sqrt (dx * dx + dy * dy) in
  let thickness := thicknessOf (Obstacle.type obstacle) in
  let innerRadius := Obstacle.radius obstacle - thickness - Ball.radius ball in
  let outerRadius := Obstacle.radius obstacle + thickness + Ball.radius ball in
  if Rleb distance innerRadius || Rgeb distance outerRadius then false
  else
    let angle := normalizeAngle (atan2 dy dx - Obstacle.rotation obstacle) in
    let segmentColor := segmentColorAt (Obstacle.type obstacle) angle in
    if colorNeq (Ball.color ball) segmentColor then true else false.

(** [checkColorSwitcher] *)
Definition checkColorSwitcher (ball : Ball.t) (switcher : ColorSwitcher.t)
    : bool :=
  let dx := Ball.x ball - ColorSwitcher.x switcher in
  let dy := Ball.y ball - ColorSwitcher.y switcher in
  let distance := sqrt (dx * dx + dy * dy) in
  Rltb distance (Ball.radius ball + 15).

(** ** Notifications and component state *)

(** The two callbacks of the component: [onScoreChange] and [onGameOver]. *)
Inductive Event : Set :=
| ScoreChange (score : Z)
| GameOver (score : Z).

(** The value of [pendingColorChangeRef.current] when it is not [null]. *)
Module Pending.
Record t : Type := mk { timestamp : R; newColor : Color }.
End Pending.

(** The prop [gameStatus] that a [gameLoop] closure was created with. *)
Inductive GameStatus : Set := gsPlaying | gsPaused.

(** What a call of [gameLoop] reads from its caller and from the canvas:
    the frame timestamp, [canvas.width], [canvas.height] and the
    [gameStatus] of the closure. *)
Module Frame.
Record t : Type := mk {
  timestamp : R;
  width : R;
  height : R;
  gameStatus : GameStatus
}.
End Frame.

(** The refs of the component: [gameStateRef], [lastTimeRef],
    [colorChangeFlashRef], [pendingColorChangeRef],
    [lastObstacleSpeedRef]; and the number of [Math.random] calls made. *)
Module World.
Record t : Type := mk {
  game : GameState.t;
  lastTime : R;
  colorChangeFlash : R;
  pendingColorChange : option Pending.t;
  lastObstacleSpeed : R;
  randomCalls : nat
}.
End World.

(** The result of one call of [gameLoop]: the refs, the notifications
    sent, in order, and whether the call ended with
    [requestAnimationFrame(gameLoop)]. *)
Module Tick.
Record t : Type := mk {
  world : World.t;
  events : list Event;
  requested : bool
}.
End Tick.

(** The component as the browser sees it: its refs and the number of
    [gameLoop] callbacks registered with [requestAnimationFrame] for the
    next animation frame. *)
Module Component.
Record t : Type := mk { world : World.t; callbacks : nat }.
End Component.

(** How the body of [if (gameStatus === 'playing')] ends: at one of its
    two [return] statements, or at its closing brace. *)
Inductive BlockEnd : Set := Returned | Completed.

(** [createObstacle]: every 5th index is a [dotCircle], the others
    alternate [ring] and [halfRing]. *)
Definition obstacleTypeOf (index : nat) : ObstacleType :=
  if (index mod 5 =? 0)%nat then dotCircle
  else if (index mod 2 =? 0)%nat then ring else halfRing.

Definition maxAttempts : nat := 10.

(** The acceptance test at the end of the body of the sampling loop. *)
Definition speedAccepted (rotationSpeed prevSpeed : R) (attempts : nat)
    : bool :=
  let speedDiff := Rabs (Rabs rotationSpeed - Rabs prevSpeed) in
  let minDiff := Rmax (Rabs prevSpeed * 0.2) 0.005 in
  let isDifferentDirection :=
    negb (Bool.eqb (Rgtb rotationSpeed 0) (Rgtb prevSpeed 0)) in
  Rgtb speedDiff minDiff || isDifferentDirection
  || (maxAttempts <=? attempts)%nat.

(** [COLOR_ORDER[(COLOR_ORDER.indexOf(color) + 1) % COLOR_ORDER.length]] *)
Definition nextColor (color : Color) : Color :=
  let currentColorIndex := indexOf COLOR_ORDER color in
  let nextColorIndex :=
    Z.rem (currentColorIndex + 1) (Z.of_nat (length COLOR_ORDER)) in
  index COLOR_ORDER nextColorIndex.

Section Simulation.

(** [Math.random()]: the value of the [n]-th call. *)
Variable rnd : nat -> R.

(** The candidate speed sampled by one run of the loop body, which
    makes the random calls [n] and [n + 1]. *)
Definition sampleSpeed (type : ObstacleType) (index n : nat) : R :=
  let direction := if Rgtb (rnd n) 0.5 then 1 else -1 in
  let globalSpeedMultiplier := 1.2 in
  let randomFactor := 0.6 + rnd (S n) * 1.0 in
  let indexFactor := 0.008 + INR (index mod 11) * 0.004 in
  let baseSpeed :=
    match type with dotCircle => indexFactor * 2.5 | _ => indexFactor end in
  baseSpeed * direction * randomFactor * globalSpeedMultiplier.

(** The [do ... while (true)] loop of [createObstacle], entered with
    [attempts] samples already taken: the accepted speed, the number of
    samples taken and the next random call. *)
Equations? speedLoop (type : ObstacleType) (index : nat) (prevSpeed : R)
    (attempts n : nat) : R * nat * nat
  by wf (maxAttempts - attempts)%nat lt :=
speedLoop type index prevSpeed attempts n with
  inspect (speedAccepted (sampleSpeed type index n) prevSpeed
             (S attempts)) => {
  | exist _ true _ => (sampleSpeed type index n, S attempts, (n + 2)%nat);
  | exist _ false Hcont =>
      speedLoop type index prevSpeed (S attempts) (n + 2)%nat }.
Proof.
  unfold speedAccepted in Hcont.
  apply orb_false_iff in Hcont. destruct Hcont as [_ Hcont].
  apply Nat.leb_gt in Hcont.
  change (maxAttempts - S attempts < maxAttempts - attempts)%nat. lia.
Qed.

Definition createObstacle (canvasWidth y : R) (index : nat) (prevSpeed : R)
    (n : nat) : Obstacle.t * nat :=
  let type := obstacleTypeOf index in
  let '(rotationSpeed, _, n1) := speedLoop type index prevSpeed 0 n in
  (Obstacle.mk (rnd n1) type y (rnd (S n1) * PI * 2) rotationSpeed 140
     false,
   (n1 + 2)%nat).

(** The [for] loop of [generateInitialObstacles], with [count]
    iterations left, at index [i], after the obstacles [obstacles]. *)
Fixpoint initialLoop (count i : nat) (canvasWidth startY : R)
    (obstacles : list Obstacle.t) (n : nat) : list Obstacle.t * nat :=
  match count with
  | O => (obstacles, n)
  | S count' =>
      let prevSpeed :=
        if (0 <? i)%nat
        then match nth_error obstacles (i - 1) with
             | Some o => Obstacle.rotationSpeed o
             | None => 0
             end
        else 0 in
      let '(o, n1) :=
        createObstacle canvasWidth (startY - INR i * OBSTACLE_GAP) i
          prevSpeed n in
      initialLoop count' (S i) canvasWidth startY (obstacles ++ [o]) n1
  end.

(** [generateInitialObstacles]: the obstacles, the new value of
    [lastObstacleSpeedRef] and the next random call. *)
Definition generateInitialObstacles (canvasWidth canvasHeight : R)
    (lastSpeed : R) (n : nat) : list Obstacle.t * R * nat :=
  let startY := canvasHeight * 0.3 in
  let '(obstacles, n1) := initialLoop 5 0 canvasWidth startY [] n in
  let lastSpeed' :=
    if (0 <? length obstacles)%nat
    then match nth_error obstacles (length obstacles - 1) with
         | Some o => Obstacle.rotationSpeed o
         | None => lastSpeed
         end
    else lastSpeed in
  (obstacles, lastSpeed', n1).

Definition getRandomColor (n : nat) : Color :=
  index COLOR_ORDER (floor (rnd n * INR (length COLOR_ORDER))).

(** [initGame]: the new game state, the new value of
    [lastObstacleSpeedRef] and the next random call; [stored] is the
    high score read from local storage. *)
Definition initGame (canvasWidth canvasHeight : R) (stored : Z)
    (lastSpeed : R) (n : nat) : GameState.t * R * nat :=
  let initialColor := getRandomColor n in
  let '(obstacles, lastSpeed', n1) :=
    generateInitialObstacles canvasWidth canvasHeight lastSpeed (S n) in
  (GameState.mk playing 0%Z stored
     (Ball.mk (canvasWidth / 2) (canvasHeight * 0.7) BALL_RADIUS 0
        initialColor)
     obstacles [] [] 0,
   lastSpeed', n1).

(** [handleTap], called by the input listeners between frames. *)
Definition handleTap (gameStatus : GameStatus) (w : World.t) : World.t :=
  match gameStatus with
  | gsPaused => w
  | gsPlaying =>
      let g := World.game w in
      let b := GameState.ball g in
      World.mk
        (GameState.mk (GameState.status g) (GameState.score g)
           (GameState.highScore g)
           (Ball.mk (Ball.x b) (Ball.y b) (Ball.radius b) JUMP_FORCE
              (Ball.color b))
           (GameState.obstacles g) (GameState.stars g)
           (GameState.colorSwitchers g) (GameState.cameraY g))
        (World.lastTime w) (World.colorChangeFlash w)
        (World.pendingColorChange w) (World.lastObstacleSpeed w)
        (World.randomCalls w)
  end.

(** *** The steps of [gameLoop] *)

(** "Calculate delta time" *)
Definition deltaTimeOf (lastTime timestamp : R) : R :=
  if truthy lastTime then (timestamp - lastTime) / 16.67 else 1.

(** "Decay flash effect" *)
Definition decayFlash (flash deltaTime : R) : R :=
  if Rgtb flash 0 then Rmax 0 (flash - 0.05 * deltaTime) else flash.

(** "Check if there's a pending color change that's ready to apply" *)
Definition applyPendingColorChange (timestamp : R) (ball : Ball.t)
    (flash : R) (pending : option Pending.t)
    : Ball.t * R * option Pending.t :=
  match pending with
  | Some p =>
      if Rgeb timestamp (Pending.timestamp p)
      then (Ball.mk (Ball.x ball) (Ball.y ball) (Ball.radius ball)
              (Ball.velocity ball) (Pending.newColor p),
            1.0, None)
      else (ball, flash, pending)
  | None => (ball, flash, pending)
  end.

(** "Apply gravity" *)
Definition applyGravity (deltaTime : R) (ball : Ball.t) : Ball.t :=
  let velocity := Ball.velocity ball + GRAVITY * deltaTime in
  let y := Ball.y ball + velocity * deltaTime in
  Ball.mk (Ball.x ball) y (Ball.radius ball) velocity (Ball.color ball).

(** "Update camera to follow ball" *)
Definition followBall (canvasHeight : R) (ball : Ball.t) (cameraY : R)
    : R :=
  let targetCameraY := Ball.y ball - canvasHeight * 0.7 in
  cameraY + (targetCameraY - cameraY) * 0.1.

(** "Rotate obstacles" *)
Definition rotateObstacle (deltaTime : R) (o : Obstacle.t) : Obstacle.t :=
  Obstacle.mk (Obstacle.id o) (Obstacle.type o) (Obstacle.y o)
    (Obstacle.rotation o + Obstacle.rotationSpeed o * deltaTime)
    (Obstacle.rotationSpeed o) (Obstacle.radius o) (Obstacle.passed o).

Definition markPassed (o : Obstacle.t) : Obstacle.t :=
  Obstacle.mk (Obstacle.id o) (Obstacle.type o) (Obstacle.y o)
    (Obstacle.rotation o) (Obstacle.rotationSpeed o) (Obstacle.radius o)
    true.

(** The test of the scoring loop: the obstacle is not passed and the
    ball is above its margin line. *)
Definition crosses (ball : Ball.t) (o : Obstacle.t) : bool :=
  negb (Obstacle.passed o)
  && Rltb (Ball.y ball) (Obstacle.y o - Obstacle.radius o - 20).

(** "Schedule ball color change every 2 obstacles (with 1 second
    delay)", run with the score already incremented. *)
Definition scheduleColorChange (timestamp : R) (ball : Ball.t)
    (score : Z) (pending : option Pending.t) : option Pending.t :=
  if (Z.rem score 2 =? 0)%Z
     && (match pending with None => true | Some _ => false end)
  then Some (Pending.mk (timestamp + 1000) (nextColor (Ball.color ball)))
  else pending.

(** "First, check if ball passed any obstacles and update score": the
    obstacles with their flags, the score, the pending change and the
    [onScoreChange] calls, in order. *)
Fixpoint scoreLoop (timestamp : R) (ball : Ball.t)
    (obstacles : list Obstacle.t) (score : Z)
    (pending : option Pending.t)
    : list Obstacle.t * Z * option Pending.t * list Event :=
  match obstacles with
  | [] => ([], score, pending, [])
  | obstacle :: rest =>
      if crosses ball obstacle then
        let score1 := (score + 1)%Z in
        let pending1 := scheduleColorChange timestamp ball score1 pending in
        let '(rest', score2, pending2, events) :=
          scoreLoop timestamp ball rest score1 pending1 in
        (markPassed obstacle :: rest', score2, pending2,
         ScoreChange score1 :: events)
      else
        let '(rest', score2, pending2, events) :=
          scoreLoop timestamp ball rest score pending in
        (obstacle :: rest', score2, pending2, events)
  end.

(** "Check collisions with obstacles that haven't been passed yet":
    whether the loop reaches its [return]. *)
Fixpoint collisionLoop (ball : Ball.t) (obstacles : list Obstacle.t)
    (centerX : R) : bool :=
  match obstacles with
  | [] => false
  | obstacle :: rest =>
      if negb (Obstacle.passed obstacle)
         && checkCollision ball obstacle centerX
      then true
      else collisionLoop ball rest centerX
  end.

(** [Math.min(...values)]; [None] stands for the [Infinity] that an
    empty argument list yields, which is not a real number. *)
Fixpoint minimum (values : list R) : option R :=
  match values with
  | [] => None
  | v :: rest =>
      match minimum rest with
      | None => Some v
      | Some m => Some (Rmin v m)
      end
  end.

(** "Generate new obstacles as needed", from a finite
    [highestObstacle]: obstacles, colour switchers, stars,
    [lastObstacleSpeedRef] and the next random call. *)
Definition generate (canvasWidth centerX highestObstacle : R)
    (ball : Ball.t) (obstacles : list Obstacle.t)
    (colorSwitchers : list ColorSwitcher.t) (stars : list Star.t)
    (lastSpeed : R) (n : nat)
    : list Obstacle.t * list ColorSwitcher.t * list Star.t * R * nat :=
  if Rltb (Ball.y ball) (highestObstacle + OBSTACLE_GAP * 2) then
    let '(newObstacle, n1) :=
      createObstacle canvasWidth (highestObstacle - OBSTACLE_GAP)
        (length obstacles) lastSpeed n in
    let switcher :=
      ColorSwitcher.mk (rnd n1) centerX
        (highestObstacle - OBSTACLE_GAP / 2) false in
    let '(stars', n2) :=
      if Rgtb (rnd (S n1)) 0.5
      then (stars ++ [Star.mk (rnd (S (S n1))) centerX
                        (highestObstacle - OBSTACLE_GAP / 2 - 40) false],
            S (S (S n1)))
      else (stars, S (S n1)) in
    (obstacles ++ [newObstacle], colorSwitchers ++ [switcher], stars',
     Obstacle.rotationSpeed newObstacle, n2)
  else (obstacles, colorSwitchers, stars, lastSpeed, n).

(** "Check color switchers" *)
Definition useSwitcher (ball : Ball.t) (s : ColorSwitcher.t)
    : ColorSwitcher.t :=
  if negb (ColorSwitcher.used s) && checkColorSwitcher ball s
  then ColorSwitcher.mk (ColorSwitcher.id s) (ColorSwitcher.x s)
         (ColorSwitcher.y s) true
  else s.

(** "Remove off-screen obstacles": the bound of the three filters. *)
Definition onScreen (cameraY canvasHeight y : R) : bool :=
  Rltb y (cameraY + canvasHeight + 200).

(** "Check bottom boundary (game over)" *)
Definition belowBoundary (ball : Ball.t) (cameraY canvasHeight : R)
    : bool :=
  Rgtb (Ball.y ball) (cameraY + canvasHeight + 50).

Definition setStatusGameOver (g : GameState.t) : GameState.t :=
  GameState.mk gameover (GameState.score g) (GameState.highScore g)
    (GameState.ball g) (GameState.obstacles g) (GameState.stars g)
    (GameState.colorSwitchers g) (GameState.cameraY g).

(** The body of [if (gameStatus === 'playing')] in [gameLoop].  The
    result is [None] when [Math.min] is taken over no obstacle. *)
Definition playingBlock (f : Frame.t) (deltaTime : R) (w : World.t)
    : option (World.t * list Event * BlockEnd) :=
  let timestamp := Frame.timestamp f in
  let centerX := Frame.width f / 2 in
  let g := World.game w in
  let '(ball0, flash, pending0) :=
    applyPendingColorChange timestamp (GameState.ball g)
      (World.colorChangeFlash w) (World.pendingColorChange w) in
  let ball := applyGravity deltaTime ball0 in
  let cameraY := followBall (Frame.height f) ball (GameState.cameraY g) in
  let rotated := map (rotateObstacle deltaTime) (GameState.obstacles g) in
  let '(obstacles, score, pending, scoreEvents) :=
    scoreLoop timestamp ball rotated (GameState.score g) pending0 in
  if collisionLoop ball obstacles centerX then
    Some (World.mk
            (GameState.mk gameover score (GameState.highScore g) ball
               obstacles (GameState.stars g) (GameState.colorSwitchers g)
               cameraY)
            (World.lastTime w) flash pending (World.lastObstacleSpeed w)
            (World.randomCalls w),
          scoreEvents ++ [GameOver score], Returned)
  else
    match minimum (map Obstacle.y obstacles) with
    | None => None
    | Some highestObstacle =>
        let '(obstacles1, switchers1, stars1, lastSpeed, n) :=
          generate (Frame.width f) centerX highestObstacle ball obstacles
            (GameState.colorSwitchers g) (GameState.stars g)
            (World.lastObstacleSpeed w) (World.randomCalls w) in
        let switchers2 := map (useSwitcher ball) switchers1 in
        let obstacles2 :=
          filter (fun o => onScreen cameraY (Frame.height f)
                             (Obstacle.y o)) obstacles1 in
        let switchers3 :=
          filter (fun s => onScreen cameraY (Frame.height f)
                             (ColorSwitcher.y s)) switchers2 in
        let stars3 :=
          filter (fun s => onScreen cameraY (Frame.height f) (Star.y s))
            stars1 in
        let g1 :=
          GameState.mk (GameState.status g) score (GameState.highScore g)
            ball obstacles2 stars3 switchers3 cameraY in
        if belowBoundary ball cameraY (Frame.height f) then
          Some (World.mk (setStatusGameOver g1) (World.lastTime w) flash
                  pending lastSpeed n,
                scoreEvents ++ [GameOver score], Returned)
        else
          Some (World.mk g1 (World.lastTime w) flash pending lastSpeed n,
                scoreEvents, Completed)
    end.

Definition isPlaying (s : Status) : bool :=
  match s with playing => true | _ => false end.

(** [gameLoop] *)
Definition gameLoop (f : Frame.t) (w : World.t) : option Tick.t :=
  let timestamp := Frame.timestamp f in
  let deltaTime := deltaTimeOf (World.lastTime w) timestamp in
  let w1 :=
    World.mk (World.game w) timestamp
      (decayFlash (World.colorChangeFlash w) deltaTime)
      (World.pendingColorChange w) (World.lastObstacleSpeed w)
      (World.randomCalls w) in
  match Frame.gameStatus f with
  | gsPlaying =>
      match playingBlock f deltaTime w1 with
      | None => None
      | Some (w2, events, Returned) => Some (Tick.mk w2 events false)
      | Some (w2, events, Completed) =>
          Some (Tick.mk w2 events
                  (isPlaying (GameState.status (World.game w2))))
      end
  | gsPaused =>
      Some (Tick.mk w1 []
              (isPlaying (GameState.status (World.game w1))))
  end.

(** *** The component and its animation frames *)

(** Mounting the component with [gameStatus = 'playing'], [n] random
    calls having been made before: the refs start at their initial
    values, then the effects run in the order they are declared.
    "Initialize canvas and game" calls [initGame]; "Start game loop"
    calls [requestAnimationFrame(gameLoop)]; "Reset game" calls
    [initGame] again, clears [lastTimeRef] and calls
    [requestAnimationFrame(gameLoop)] as well. *)
Definition mount (canvasWidth canvasHeight : R) (stored : Z) (n : nat)
    : Component.t :=
  let '(_, lastSpeed1, n1) :=
    initGame canvasWidth canvasHeight stored 0 n in
  let callbacks1 := 1%nat in
  let '(game2, lastSpeed2, n2) :=
    initGame canvasWidth canvasHeight stored lastSpeed1 n1 in
  let callbacks2 := S callbacks1 in
  Component.mk (World.mk game2 0 0 None lastSpeed2 n2) callbacks2.

(** The browser runs the [count] callbacks registered for an animation
    frame one after the other, with the same timestamp; the result
    counts the callbacks they register for the next frame. *)
Fixpoint runCallbacks (count : nat) (f : Frame.t) (w : World.t)
    : option (World.t * list Event * nat) :=
  match count with
  | O => Some (w, [], O)
  | S count' =>
      match gameLoop f w with
      | None => None
      | Some t =>
          match runCallbacks count' f (Tick.world t) with
          | None => None
          | Some (w', events, again) =>
              Some (w', Tick.events t ++ events,
                    ((if Tick.requested t then 1 else 0) + again)%nat)
          end
      end
  end.

Definition animationFrame (f : Frame.t) (c : Component.t)
    : option (Component.t * list Event) :=
  match runCallbacks (Component.callbacks c) f (Component.world c) with
  | None => None
  | Some (w, events, again) => Some (Component.mk w again, events)
  end.

(** *** Reachable states *)

(** One call of [handleTap] or of [gameLoop]; frame timestamps do not
    run backwards. *)
Inductive step : World.t -> World.t -> Prop :=
| step_tap (gameStatus : GameStatus) (w : World.t) :
    step w (handleTap gameStatus w)
| step_frame (f : Frame.t) (w : World.t) (t : Tick.t) :
    World.lastTime w <= Frame.timestamp f ->
    gameLoop f w = Some t ->
    step w (Tick.world t).

(** The states of a session: from the mounted component, on a canvas
    of height at least 0, through any calls. *)
Inductive reachable : World.t -> Prop :=
| reach_mount (canvasWidth canvasHeight : R) (stored : Z) (n : nat) :
    0 <= canvasHeight ->
    reachable (Component.world (mount canvasWidth canvasHeight stored n))
| reach_step (w w' : World.t) :
    reachable w -> step w w' -> reachable w'.

End Simulation.

(** ** The values a call of [gameLoop] computes on its way

    Names for the intermediate values of the [playing] branch of
    [gameLoop f w], in the order the code computes them. *)

Definition deltaTime (f : Frame.t) (w : World.t) : R :=
  deltaTimeOf (World.lastTime w) (Frame.timestamp f).

(** The ball, the flash and the pending change after "apply pending
    color change". *)
Definition applied (f : Frame.t) (w : World.t)
    : Ball.t * R * option Pending.t :=
  applyPendingColorChange (Frame.timestamp f)
    (GameState.ball (World.game w))
    (decayFlash (World.colorChangeFlash w) (deltaTime f w))
    (World.pendingColorChange w).

Definition appliedPending (f : Frame.t) (w : World.t) : option Pending.t :=
  snd (applied f w).

(** The ball after "apply gravity". *)
Definition movedBall (f : Frame.t) (w : World.t) : Ball.t :=
  applyGravity (deltaTime f w) (fst (fst (applied f w))).

(** The camera after "update camera to follow ball". *)
Definition movedCamera (f : Frame.t) (w : World.t) : R :=
  followBall (Frame.height f) (movedBall f w)
    (GameState.cameraY (World.game w)).

(** The obstacles after "rotate obstacles". *)
Definition rotated (f : Frame.t) (w : World.t) : list Obstacle.t :=
  map (rotateObstacle (deltaTime f w))
    (GameState.obstacles (World.game w)).

(** The result of the scoring loop. *)
Definition scored (f : Frame.t) (w : World.t)
    : list Obstacle.t * Z * option Pending.t * list Event :=
  scoreLoop (Frame.timestamp f) (movedBall f w) (rotated f w)
    (GameState.score (World.game w)) (appliedPending f w).

Definition scoredObstacles (f : Frame.t) (w : World.t) : list Obstacle.t :=
  fst (fst (fst (scored f w))).
Definition scoredScore (f : Frame.t) (w : World.t) : Z :=
  snd (fst (fst (scored f w))).
Definition scoredPending (f : Frame.t) (w : World.t) : option Pending.t :=
  snd (fst (scored f w)).
Definition scoreEvents (f : Frame.t) (w : World.t) : list Event :=
  snd (scored f w).

(** Whether the collision loop reaches its [return]. *)
Definition collides (f : Frame.t) (w : World.t) : bool :=
  collisionLoop (movedBall f w) (scoredObstacles f w) (Frame.width f / 2).

(** [highestObstacle], when it is finite. *)
Definition highestObstacle (f : Frame.t) (w : World.t) : option R :=
  minimum (map Obstacle.y (scoredObstacles f w)).

(** The obstacles after "generate new obstacles as needed", for a
    finite [highestObstacle]. *)
Definition generatedObstacles (rnd : nat -> R) (f : Frame.t) (w : World.t)
    (highest : R) : list Obstacle.t :=
  fst (fst (fst (fst
    (generate rnd (Frame.width f) (Frame.width f / 2) highest
       (movedBall f w) (scoredObstacles f w)
       (GameState.colorSwitchers (World.game w))
       (GameState.stars (World.game w))
       (World.lastObstacleSpeed w) (World.randomCalls w))))).

(** Whether the bottom boundary check reaches its [return]. *)
Definition fallsOut (f : Frame.t) (w : World.t) : bool :=
  belowBoundary (movedBall f w) (movedCamera f w) (Frame.height f).

(** What the rotation and the scoring loop of a call make of an
    obstacle of the game state. *)
Definition evolve (f : Frame.t) (w : World.t) (o : Obstacle.t)
    : Obstacle.t :=
  let o1 := rotateObstacle (deltaTime f w) o in
  if crosses (movedBall f w) o1 then markPassed o1 else o1.

(** The obstacles that the scoring loop of a call flags. *)
Definition crossing (f : Frame.t) (w : World.t) : list Obstacle.t :=
  filter (crosses (movedBall f w)) (rotated f w).

(** The scores [score + 1], ..., [score + k]. *)
Fixpoint scoresAfter (score : Z) (k : nat) : list Z :=
  match k with
  | O => []
  | S k' => (score + 1)%Z :: scoresAfter (score + 1)%Z k'
  end.

(** Two records of one obstacle: all that identifies it is the same. *)
Definition sameObstacle (o o' : Obstacle.t) : Prop :=
  Obstacle.id o' = Obstacle.id o
  /\ Obstacle.type o' = Obstacle.type o
  /\ Obstacle.y o' = Obstacle.y o
  /\ Obstacle.radius o' = Obstacle.radius o
  /\ Obstacle.rotationSpeed o' = Obstacle.rotationSpeed o.

(** The obstacle that "generate new obstacles as needed" appends in a
    call, when it appends one. *)
Definition newObstacle (rnd : nat -> R) (f : Frame.t) (w : World.t)
    (highest : R) : Obstacle.t :=
  fst (createObstacle rnd (Frame.width f) (highest - OBSTACLE_GAP)
         (length (scoredObstacles f w)) (World.lastObstacleSpeed w)
         (World.randomCalls w)).

(** The test of "generate new obstacles as needed". *)
Definition nearFrontier (f : Frame.t) (w : World.t) (highest : R) : bool :=
  Rltb (Ball.y (movedBall f w)) (highest + OBSTACLE_GAP * 2).

(** Calls, one after the other. *)
Inductive steps (rnd : nat -> R) : World.t -> World.t -> Prop :=
| steps_refl (w : World.t) : steps rnd w w
| steps_step (w w' w'' : World.t) :
    steps rnd w w' -> step rnd w' w'' -> steps rnd w w''.

(** Between a state [w] and a later state [w']: an obstacle of [w'] at
    a height where [w] has obstacles, all of them passed, is passed; and
    while [w'] has obstacles, one of them is at least as high up as
    every obstacle of [w]. *)
Definition passedSince (w w' : World.t) : Prop :=
  let obs := GameState.obstacles (World.game w) in
  let obs' := GameState.obstacles (World.game w') in
  (forall o', In o' obs' ->
     (exists o, In o obs /\ Obstacle.y o = Obstacle.y o') ->
     (forall o, In o obs -> Obstacle.y o = Obstacle.y o' ->
                Obstacle.passed o = true) ->
     Obstacle.passed o' = true)
  /\ (obs' <> [] ->
      exists o', In o' obs'
                 /\ forall o, In o obs -> Obstacle.y o' <= Obstacle.y o).

(** The number of obstacles that a call appends to the array. *)
Definition appended (f : Frame.t) (w : World.t) : nat :=
  match Frame.gameStatus f with
  | gsPaused => 0
  | gsPlaying =>
      if collides f w then 0
      else match highestObstacle f w with
           | Some highest => if nearFrontier f w highest then 1 else 0
           | None => 0
           end
  end.

(** The states of a session together with the number of obstacles
    created in it so far: [initGame] creates five, and each call adds
    those it appends.  The next obstacle has that number as its
    generation index. *)
Inductive session (rnd : nat -> R) : World.t -> nat -> Prop :=
| session_mount (canvasWidth canvasHeight : R) (stored : Z) (n : nat) :
    0 <= canvasHeight ->
    session rnd
      (Component.world (mount rnd canvasWidth canvasHeight stored n)) 5
| session_tap (gameStatus : GameStatus) (w : World.t) (created : nat) :
    session rnd w created ->
    session rnd (handleTap gameStatus w) created
| session_call (f : Frame.t) (w : World.t) (t : Tick.t) (created : nat) :
    session rnd w created ->
    World.lastTime w <= Frame.timestamp f ->
    gameLoop rnd f w = Some t ->
    session rnd (Tick.world t) (created + appended f w).

(** ** A new game on the same refs

    [initGame] runs again while the component is mounted, and its
    result replaces the game state in [gameStateRef]: in the effect
    "Reset game", when a render changes the prop [gameStatus] to
    ['playing'], and in [resizeCanvas], when the window is resized
    while the game is not playing.  The other refs are not made anew:
    [colorChangeFlashRef] and [pendingColorChangeRef] keep what they
    hold. *)

(** The refs after the body of "Reset game", on a canvas of the given
    size: the new game state, and [lastTimeRef.current = 0]. *)
Definition resetWorld (rnd : nat -> R) (canvasWidth canvasHeight : R)
    (stored : Z) (w : World.t) : World.t :=
  let '(game, lastSpeed, n) :=
    initGame rnd canvasWidth canvasHeight stored
      (World.lastObstacleSpeed w) (World.randomCalls w) in
  World.mk game 0 (World.colorChangeFlash w) (World.pendingColorChange w)
    lastSpeed n.

(** The refs after [resizeCanvas], the window having the given size. *)
Definition resizeWorld (rnd : nat -> R) (windowWidth windowHeight : R)
    (stored : Z) (w : World.t) : World.t :=
  if isPlaying (GameState.status (World.game w)) then w
  else
    let '(game, lastSpeed, n) :=
      initGame rnd windowWidth windowHeight stored
        (World.lastObstacleSpeed w) (World.randomCalls w) in
    World.mk game (World.lastTime w) (World.colorChangeFlash w)
      (World.pendingColorChange w) lastSpeed n.

(** The colour that the scoring loop of a call reads from the ball when
    it fills [pendingColorChangeRef].  With [s] the colour read for the
    change that is pending before the call, this is the colour read for
    the change that is pending after it: none when the slot is empty
    after the call, [s] when the call leaves a pending change in place,
    and the colour of the ball in this call when the call schedules
    one. *)
Definition scheduledFrom (f : Frame.t) (w : World.t) (s : Color) : Color :=
  match Frame.gameStatus f with
  | gsPaused => s
  | gsPlaying =>
      match scoredPending f w, appliedPending f w with
      | None, _ => None
      | Some _, Some _ => s
      | Some _, None => Ball.color (movedBall f w)
      end
  end.

(** The states the refs go through while the component is mounted,
    each with the colour the ball had when the pending colour change of
    the state, if any, was scheduled: from the mount, through taps,
    calls of [gameLoop] in any frame, runs of "Reset game" and window
    resizes. *)
Inductive history (rnd : nat -> R) : World.t -> Color -> Prop :=
| history_mount (canvasWidth canvasHeight : R) (stored : Z) (n : nat) :
    history rnd
      (Component.world (mount rnd canvasWidth canvasHeight stored n)) None
| history_tap (gameStatus : GameStatus) (w : World.t) (s : Color) :
    history rnd w s -> history rnd (handleTap gameStatus w) s
| history_call (f : Frame.t) (w : World.t) (t : Tick.t) (s : Color) :
    history rnd w s ->
    gameLoop rnd f w = Some t ->
    history rnd (Tick.world t) (scheduledFrom f w s)
| history_reset (canvasWidth canvasHeight : R) (stored : Z) (w : World.t)
    (s : Color) :
    history rnd w s ->
    history rnd (resetWorld rnd canvasWidth canvasHeight stored w) s
| history_resize (windowWidth windowHeight : R) (stored : Z) (w : World.t)
    (s : Color) :
    history rnd w s ->
    history rnd (resizeWorld rnd windowWidth windowHeight stored w) s.

(** ** Invariants of a session *)

(** The ball has a colour of the palette, and a pending change holds the
    colour that follows the colour of the ball. *)
Definition colorInvariant (w : World.t) : Prop :=
  exists c : GameColor,
    Ball.color (GameState.ball (World.game w)) = Some c
    /\ forall p, World.pendingColorChange w = Some p ->
                 Pending.newColor p = nextColor (Some c).

(** The same through new games on the same refs: the ball has a colour
    of the palette, and a pending change holds the colour that follows
    the colour [s] the ball had when the change was scheduled. *)
Definition scheduledInvariant (w : World.t) (s : Color) : Prop :=
  exists c : GameColor,
    Ball.color (GameState.ball (World.game w)) = Some c
    /\ forall p, World.pendingColorChange w = Some p ->
         exists c0 : GameColor,
           s = Some c0 /\ Pending.newColor p = nextColor (Some c0).

(** While the session is playing, the ball never moves up faster than a
    tap makes it, and some obstacle is at least two gaps above it. *)
Definition frontierInvariant (w : World.t) : Prop :=
  let g := World.game w in
  GameState.status g = playing ->
  JUMP_FORCE <= Ball.velocity (GameState.ball g)
  /\ exists o, In o (GameState.obstacles g)
               /\ Obstacle.y o + OBSTACLE_GAP * 2
                  <= Ball.y (GameState.ball g).

(** ** Two scenarios *)

(** A random source whose every call answers 0. *)
Definition zeroRandom : nat -> R := fun _ => 0.

(** The component mounted on a 400 by 300 canvas, and its first
    animation frame. *)
Definition smallCanvas : Component.t := mount zeroRandom 400 300 0%Z 0.
Definition firstFrame : Frame.t := Frame.mk 16.67 400 300 gsPlaying.

(** What a call in that frame finds: a cyan ball on the axis, no
    pending change, no score yet, every obstacle centred at 90 or above,
    and first in the array an unpassed [dotCircle] centred at 90. *)
Definition crashSite (w : World.t) : Prop :=
  let g := World.game w in
  let b := GameState.ball g in
  Ball.x b = 400 / 2
  /\ Ball.radius b = 15
  /\ Ball.color b = Some cyan
  /\ World.pendingColorChange w = None
  /\ GameState.score g = 0%Z
  /\ (forall o, In o (GameState.obstacles g) ->
        Obstacle.y o <= 90 /\ Obstacle.radius o = 140)
  /\ exists o0 rest,
       GameState.obstacles g = o0 :: rest
       /\ Obstacle.type o0 = dotCircle
       /\ Obstacle.y o0 = 90
       /\ Obstacle.passed o0 = false.

(** A state as of a session well under way, on a 400 by 300 canvas:
    six obstacles have been created so far, the ball has left the first three behind
    and the pruning has removed them from the array, which holds the
    other three; the ball has just been tapped, inside the lowest of
    them and two gaps and 5 pixels below the frontier. *)
Definition climbingWorld : World.t :=
  World.mk
    (GameState.mk playing 3%Z 0%Z
       (Ball.mk 200 (-805) 15 (-9) (Some cyan))
       [Obstacle.mk 0 halfRing (-810) 0 0.02 140 false;
        Obstacle.mk 0 ring (-1110) 0 (-0.03) 140 false;
        Obstacle.mk 0 halfRing (-1410) 0 0.02 140 false]
       [] [ColorSwitcher.mk 0 200 (-1260) false] (-1012))
    1000 0 None 0.02 0.

Definition climbingFrame : Frame.t := Frame.mk 1016.67 400 300 gsPlaying.

(** A climb beside the lane.  The component is mounted on a 400 by 200
    canvas and the window is then made 1200 wide, which leaves the ball
    at [x = 200] while the lane centre moves to 600.  The player taps
    before every frame; the first frame comes at 16.67 ms and the others
    200.04 ms apart, 12 ticks each. *)
Definition climbTime (k : nat) : R := 16.67 + 200.04 * INR k.

Definition wideFrame (k : nat) : Frame.t :=
  Frame.mk (climbTime k) 1200 200 gsPlaying.

(** The heights of the five initial obstacles on a canvas 200 high. *)
Definition startHeights : list R := [60; -240; -540; -840; -1140].

(** A playing state beside the lane: the ball at x = 200 and height
    [Y], the camera at [cam], the last call at [last], and the obstacles
    the initial ones without the first [j]. *)
Definition offAxis (w : World.t) (j : nat) (Y cam last : R) : Prop :=
  let g := World.game w in
  GameState.status g = playing
  /\ Ball.x (GameState.ball g) = 200
  /\ Ball.radius (GameState.ball g) = 15
  /\ Ball.y (GameState.ball g) = Y
  /\ GameState.cameraY g = cam
  /\ World.lastTime w = last
  /\ (forall o, In o (GameState.obstacles g) -> Obstacle.radius o = 140)
  /\ (j <= 1)%nat
  /\ map Obstacle.y (GameState.obstacles g) = skipn j startHeights.

(** The state after [m] frames of the climb, [m] from 1 to 12: the ball
    has climbed 57.6 per frame after the first, the camera follows at a
    distance between 0 and 250, the obstacles are initial ones, the
    first [j] of them pruned, and none has been created since the
    start. *)
Definition climbing (m : nat) (w : World.t) : Prop :=
  let g := World.game w in
  let Y := 131.35 - 57.6 * (INR m - 1) in
  GameState.status g = playing
  /\ Ball.x (GameState.ball g) = 200
  /\ Ball.radius (GameState.ball g) = 15
  /\ Ball.y (GameState.ball g) = Y
  /\ World.lastTime w = climbTime (m - 1)
  /\ (Y - 140 <= GameState.cameraY g <= Y - 140 + 250)
  /\ ((2 <= m)%nat -> Y - 140 + 46 <= GameState.cameraY g)
  /\ (forall o, In o (GameState.obstacles g) -> Obstacle.radius o = 140)
  /\ exists j : nat,
       (j <= 1)%nat
       /\ ((12 <= m)%nat -> j = 1%nat)
       /\ map Obstacle.y (GameState.obstacles g) = skipn j startHeights.

(** The score during the climb, the ball being at height [Y]: one for
    each of the two lowest obstacles, at 60 and at -240, whose margin
    line the ball is above. *)
Definition climbScore (Y : R) : Z :=
  ((if Rltb Y (-100) then 1 else 0) + (if Rltb Y (-400) then 1 else 0))%Z.

(** What the climb has made of the score and of the flags, the first
    [j] obstacles being pruned: the ball is cyan, the score counts the
    margin lines below which the ball has been, an obstacle is flagged
    exactly when the ball is above its margin line, and the obstacle at
    60 is pruned only after the ball has passed it. *)
Definition scoredClimb (w : World.t) (j : nat) : Prop :=
  let g := World.game w in
  let Y := Ball.y (GameState.ball g) in
  Ball.color (GameState.ball g) = Some cyan
  /\ GameState.score g = climbScore Y
  /\ (forall o, In o (GameState.obstacles g) ->
        Obstacle.passed o = Rltb Y (Obstacle.y o - 160))
  /\ (j = 1%nat -> Y < -100).



(** ** Colour switchers, stars and the count of unpassed obstacles *)

(** The colour switchers and the stars after "generate new obstacles as
    needed", for a finite [highestObstacle]. *)
Definition generatedSwitchers (rnd : nat -> R) (f : Frame.t) (w : World.t)
    (highest : R) : list ColorSwitcher.t :=
  snd (fst (fst (fst
    (generate rnd (Frame.width f) (Frame.width f / 2) highest
       (movedBall f w) (scoredObstacles f w)
       (GameState.colorSwitchers (World.game w))
       (GameState.stars (World.game w))
       (World.lastObstacleSpeed w) (World.randomCalls w))))).

Definition generatedStars (rnd : nat -> R) (f : Frame.t) (w : World.t)
    (highest : R) : list Star.t :=
  snd (fst (fst
    (generate rnd (Frame.width f) (Frame.width f / 2) highest
       (movedBall f w) (scoredObstacles f w)
       (GameState.colorSwitchers (World.game w))
       (GameState.stars (World.game w))
       (World.lastObstacleSpeed w) (World.randomCalls w)))).

(** The refs with other colour switchers and stars in the game state. *)
Definition withDecorations (switchers : list ColorSwitcher.t)
    (stars : list Star.t) (w : World.t) : World.t :=
  let g := World.game w in
  World.mk
    (GameState.mk (GameState.status g) (GameState.score g)
       (GameState.highScore g) (GameState.ball g) (GameState.obstacles g)
       stars switchers (GameState.cameraY g))
    (World.lastTime w) (World.colorChangeFlash w)
    (World.pendingColorChange w) (World.lastObstacleSpeed w)
    (World.randomCalls w).

(** The refs with another velocity of the ball. *)
Definition withVelocity (velocity : R) (w : World.t) : World.t :=
  let g := World.game w in
  let b := GameState.ball g in
  World.mk
    (GameState.mk (GameState.status g) (GameState.score g)
       (GameState.highScore g)
       (Ball.mk (Ball.x b) (Ball.y b) (Ball.radius b) velocity
          (Ball.color b))
       (GameState.obstacles g) (GameState.stars g)
       (GameState.colorSwitchers g) (GameState.cameraY g))
    (World.lastTime w) (World.colorChangeFlash w)
    (World.pendingColorChange w) (World.lastObstacleSpeed w)
    (World.randomCalls w).

(** The number of obstacles of the array that are not passed. *)
Definition unpassed (obstacles : list Obstacle.t) : nat :=
  length (filter (fun o => negb (Obstacle.passed o)) obstacles).

(** Heights each of which is one gap above the one before it. *)
Fixpoint spaced (ys : list R) : Prop :=
  match ys with
  | [] => True
  | y :: rest =>
      match rest with
      | [] => True
      | y' :: _ => y' = y - OBSTACLE_GAP
      end
      /\ spaced rest
  end.

(** ** Drawing the obstacles

    The drawing functions act on the 2d context of the canvas.  A call
    is modelled by the operations it performs on the context, in
    order. *)

(** [GAME_COLORS] *)
Definition GAME_COLORS (c : GameColor) : String.string :=
  match c with
  | cyan => "#00FFFF"%string
  | purple => "#9B30FF"%string
  | pink => "#FF1493"%string
  | yellow => "#FFD700"%string
  end.

(** [GAME_COLORS[c]] for a value [c] read from [COLOR_ORDER] by index. *)
Definition gameColorAt (c : Color) : option String.string :=
  option_map GAME_COLORS c.

(** The operations of the context that the obstacle drawings use; a
    style of [None] is an assignment of [undefined]. *)
Inductive Command : Type :=
| Save
| Restore
| Translate (x y : R)
| Rotate (angle : R)
| BeginPath
| Arc (x y radius startAngle endAngle : R)
| LineWidth (width : R)
| StrokeStyle (style : option String.string)
| LineCap (cap : String.string)
| Stroke
| FillStyle (style : option String.string)
| Fill.

(** [arr.forEach((x, i) => body)], from the index [i] on. *)
Fixpoint forEachFrom {A : Type} (body : A -> nat -> list Command)
    (arr : list A) (i : nat) : list Command :=
  match arr with
  | [] => []
  | x :: rest => body x i ++ forEachFrom body rest (S i)
  end.

(** [for (let i = from; ...; i++) body], with [count] iterations left. *)
Fixpoint forLoop (count i : nat) (body : nat -> list Command)
    : list Command :=
  match count with
  | O => []
  | S count' => body i ++ forLoop count' (S i) body
  end.

(** One of the "4 colored segments" of [drawRing]. *)
Definition ringSegment (radius : R) (color : GameColor) (i : nat)
    : list Command :=
  let thickness := 28 in
  let startAngle := INR i * PI / 2 in
  let endAngle := (INR i + 1) * PI / 2 in
  [BeginPath; Arc 0 0 radius startAngle endAngle; LineWidth thickness;
   StrokeStyle (Some (GAME_COLORS color)); LineCap "butt"%string; Stroke].

Definition drawRing (obstacle : Obstacle.t) (centerX cameraY : R)
    : list Command :=
  let screenY := Obstacle.y obstacle - cameraY in
  [Save; Translate centerX screenY; Rotate (Obstacle.rotation obstacle)]
  ++ forEachFrom (ringSegment (Obstacle.radius obstacle)) COLOR_ORDER 0
  ++ [Restore].

(** One of the dots of [drawDotCircle]. *)
Definition dot (radius : R) (i : nat) : list Command :=
  let dotCount := 24 in
  let dotRadius := 16 in
  let dotsPerGroup := 6 in
  let angle := (INR i / dotCount) * PI * 2 in
  let colorIndex := floor (INR i / dotsPerGroup) in
  let color := index COLOR_ORDER colorIndex in
  let x := cos angle * radius in
  let y := sin angle * radius in
  [BeginPath; Arc x y dotRadius 0 (PI * 2); FillStyle (gameColorAt color);
   Fill].

Definition drawDotCircle (obstacle : Obstacle.t) (centerX cameraY : R)
    : list Command :=
  let screenY := Obstacle.y obstacle - cameraY in
  [Save; Translate centerX screenY; Rotate (Obstacle.rotation obstacle)]
  ++ forLoop 24 0 (dot (Obstacle.radius obstacle))
  ++ [Restore].

(** One of the arcs of [drawHalfRing]: the body of its inner loop. *)
Definition halfRingArc (radius : R) (half i : nat) : list Command :=
  let thickness := 28 in
  let baseAngle := INR half * PI in
  let colorIndex := Z.of_nat (half * 2 + i) in
  let startAngle := baseAngle + (INR i * PI / 2) in
  let endAngle := baseAngle + ((INR i + 1) * PI / 2) in
  [BeginPath; Arc 0 0 radius startAngle endAngle; LineWidth thickness;
   StrokeStyle (gameColorAt (index COLOR_ORDER colorIndex));
   LineCap "butt"%string; Stroke].

Definition drawHalfRing (obstacle : Obstacle.t) (centerX cameraY : R)
    : list Command :=
  let screenY := Obstacle.y obstacle - cameraY in
  [Save; Translate centerX screenY; Rotate (Obstacle.rotation obstacle)]
  ++ forLoop 2 0 (fun half =>
       forLoop 2 0 (halfRingArc (Obstacle.radius obstacle) half))
  ++ [Restore].

(** The [switch (obstacle.type)] of "draw obstacles" in [gameLoop],
    which has no case for ['doubleLine']. *)
Definition drawObstacle (obstacle : Obstacle.t) (centerX cameraY : R)
    : list Command :=
  match Obstacle.type obstacle with
  | ring => drawRing obstacle centerX cameraY
  | dotCircle => drawDotCircle obstacle centerX cameraY
  | halfRing => drawHalfRing obstacle centerX cameraY
  | doubleLine => []
  end.

(** An obstacle with another type. *)
Definition withType (type : ObstacleType) (o : Obstacle.t) : Obstacle.t :=
  Obstacle.mk (Obstacle.id o) type (Obstacle.y o) (Obstacle.rotation o)
    (Obstacle.rotationSpeed o) (Obstacle.radius o) (Obstacle.passed o).

(** ** The parent component [ColorSwitchGame] and the stored high score

    Strings are sequences of code units below 256.  A number that may be
    [NaN] is an [option Z], with [None] for [NaN].  The integers at hand
    are scores, counted up from 0 in steps of 1: they are of magnitude
    below [2^53], the range in which a JavaScript number holds every
    integer exactly and prints it digit by digit. *)

Definition codeOf (c : Ascii.ascii) : Z := Z.of_N (Ascii.N_of_ascii c).
Definition charOf (code : Z) : Ascii.ascii := Ascii.ascii_of_N (Z.to_N code).

(** The decimal digits of [n >= 0], before [suffix]. *)
Equations? digitsBefore (n : Z) (suffix : String.string) : String.string
  by wf (Z.to_nat n) lt :=
digitsBefore n suffix with Z_lt_dec n 10%Z => {
  | left _ => String.String (charOf (48 + n)%Z) suffix;
  | right _ =>
      digitsBefore (n / 10)%Z
        (String.String (charOf (48 + n mod 10)%Z) suffix) }.
Proof.
  apply Z2Nat.inj_lt; [apply Z.div_pos; lia|lia|].
  apply Z.div_lt; lia.
Qed.

(** [n.toString()] for an integer [n] of magnitude below [2^53]: a
    minus sign for a negative number, then the decimal digits.  This is
    not what JavaScript prints for larger numbers: above [2^53] it
    prints the digits of the nearest number it can hold, and from
    [10^21] on an exponent form such as [1e+21]; what is stated of
    [n.toString()] itself is stated for [n] below [2^53] only. *)
Definition numberToString (n : Z) : String.string :=
  if (n <? 0)%Z
  then String.String (charOf 45%Z)
         (digitsBefore (- n)%Z String.EmptyString)
  else digitsBefore n String.EmptyString.

(** The white space that [parseInt] skips. *)
Definition isWhiteSpace (c : Ascii.ascii) : bool :=
  let n := codeOf c in
  ((n =? 9) || (n =? 10) || (n =? 11) || (n =? 12) || (n =? 13)
   || (n =? 32) || (n =? 160))%Z.

Fixpoint trimStart (s : String.string) : String.string :=
  match s with
  | String.EmptyString => s
  | String.String c rest => if isWhiteSpace c then trimStart rest else s
  end.

(** The value of [c] as a digit of the radix, if it is one. *)
Definition digitValue (radix : Z) (c : Ascii.ascii) : option Z :=
  let n := codeOf c in
  let value :=
    (if (48 <=? n) && (n <=? 57) then n - 48
     else if (97 <=? n) && (n <=? 122) then n - 87
     else if (65 <=? n) && (n <=? 90) then n - 55
     else 36)%Z in
  if (value <? radix)%Z then Some value else None.

(** The value of the longest prefix of digits; [None] without a digit. *)
Fixpoint parseDigits (radix : Z) (s : String.string) (acc : Z)
    (seen : bool) : option Z :=
  match s with
  | String.EmptyString => if seen then Some acc else None
  | String.String c rest =>
      match digitValue radix c with
      | Some d => parseDigits radix rest (acc * radix + d)%Z true
      | None => if seen then Some acc else None
      end
  end.

(** [parseInt(s)], without a radix argument. *)
Definition parseInt (s : String.string) : option Z :=
  let s1 := trimStart s in
  let negative :=
    match s1 with
    | String.String c _ => (codeOf c =? 45)%Z
    | String.EmptyString => false
    end in
  let s2 :=
    match s1 with
    | String.String c rest =>
        if ((codeOf c =? 45) || (codeOf c =? 43))%Z then rest else s1
    | String.EmptyString => s1
    end in
  let '(radix, s3) :=
    match s2 with
    | String.String c1 (String.String c2 rest) =>
        if ((codeOf c1 =? 48)
            && ((codeOf c2 =? 120) || (codeOf c2 =? 88)))%Z
        then (16%Z, rest) else (10%Z, s2)
    | _ => (10%Z, s2)
    end in
  match parseDigits radix s3 0%Z false with
  | Some v => Some (if negative then (- v)%Z else v)
  | None => None
  end.

(** [localStorage.getItem('colorSwitchHighScore') || '0'], then
    [parseInt], as [initGame] reads the high score. *)
Definition storedHighScore (storage : option String.string) : option Z :=
  parseInt
    match storage with
    | Some (String.String c rest) => String.String c rest
    | _ => String.String (charOf 48%Z) String.EmptyString
    end.

Inductive GameScreen : Set := scStart | scPlaying | scGameover.

(** The state of [ColorSwitchGame], and the entry of local storage. *)
Module Parent.
Record t : Type := mk {
  screen : GameScreen;
  score : Z;
  highScore : option Z;
  isNewHighScore : bool;
  isPaused : bool;
  gameKey : Z;
  storage : option String.string
}.
End Parent.

(** The first render. *)
Definition initialParent (storage : option String.string) : Parent.t :=
  Parent.mk scStart 0%Z (Some 0%Z) false false 0%Z storage.

(** "Load high score on mount" *)
Definition loadHighScore (p : Parent.t) : Parent.t :=
  match Parent.storage p with
  | Some (String.String c rest) =>
      Parent.mk (Parent.screen p) (Parent.score p)
        (parseInt (String.String c rest)) (Parent.isNewHighScore p)
        (Parent.isPaused p) (Parent.gameKey p) (Parent.storage p)
  | _ => p
  end.

(** [a > b] for an integer [a] and a number [b]. *)
Definition greater (a : Z) (b : option Z) : bool :=
  match b with
  | Some b' => (b' <? a)%Z
  | None => false
  end.

(** [handleGameOver], in the closure of a render in which the state
    [highScore] had the value [highScore]. *)
Definition handleGameOver (highScore : option Z) (finalScore : Z)
    (p : Parent.t) : Parent.t :=
  if greater finalScore highScore
  then Parent.mk scGameover (Parent.score p) (Some finalScore) true
         (Parent.isPaused p) (Parent.gameKey p)
         (Some (numberToString finalScore))
  else Parent.mk scGameover (Parent.score p) (Parent.highScore p)
         (Parent.isNewHighScore p) (Parent.isPaused p) (Parent.gameKey p)
         (Parent.storage p).

(** ** The frame loop and the effects of [GameCanvas]

    The mounted component as the browser sees it: its refs, the canvas
    size, the prop [gameStatus] of the last render, and the callbacks
    registered with [requestAnimationFrame], each with its handle and
    with the [gameStatus] that its [gameLoop] closure was made with.
    The browser runs the callbacks of a frame in the order they were
    registered, with one timestamp.  A render with another [gameStatus]
    makes new closures [handleTap] and [gameLoop], so that React runs
    the cleanup of "Start game loop" and then the bodies of "Start game
    loop" and "Reset game"; the callbacks [onGameOver] and
    [onScoreChange] are taken to keep their identity, and the window
    its size. *)

Module Callback.
Record t : Type := mk { handle : nat; gameStatus : GameStatus }.
End Callback.

Module Mounted.
Record t : Type := mk {
  world : World.t;
  width : R;
  height : R;
  gameStatus : GameStatus;
  animationRef : nat;
  queue : list Callback.t;
  nextHandle : nat
}.
End Mounted.

(** [animationRef.current = requestAnimationFrame(gameLoop)], for the
    closure [gameLoop] of a render with the prop [gameStatus]. *)
Definition requestAnimationFrame (gameStatus : GameStatus) (c : Mounted.t)
    : Mounted.t :=
  Mounted.mk (Mounted.world c) (Mounted.width c) (Mounted.height c)
    (Mounted.gameStatus c) (Mounted.nextHandle c)
    (Mounted.queue c ++ [Callback.mk (Mounted.nextHandle c) gameStatus])
    (S (Mounted.nextHandle c)).

(** [cancelAnimationFrame(handle)] *)
Definition cancelAnimationFrame (handle : nat) (c : Mounted.t) : Mounted.t :=
  Mounted.mk (Mounted.world c) (Mounted.width c) (Mounted.height c)
    (Mounted.gameStatus c) (Mounted.animationRef c)
    (filter (fun cb => negb (Callback.handle cb =? handle)%nat)
       (Mounted.queue c))
    (Mounted.nextHandle c).

Definition withWorld (w : World.t) (c : Mounted.t) : Mounted.t :=
  Mounted.mk w (Mounted.width c) (Mounted.height c) (Mounted.gameStatus c)
    (Mounted.animationRef c) (Mounted.queue c) (Mounted.nextHandle c).

Section Effects.

Variable rnd : nat -> R.

(** The component after its first render, with [gameStatus =
    'playing'], in a window of the given size; the browser hands out
    the handles from [handle] on. *)
Definition mountCanvas (windowWidth windowHeight : R) (stored : Z)
    (n handle : nat) : Mounted.t :=
  let c0 :=
    Mounted.mk
      (Component.world (mount rnd windowWidth windowHeight stored n))
      windowWidth windowHeight gsPlaying 0 [] handle in
  requestAnimationFrame gsPlaying (requestAnimationFrame gsPlaying c0).

(** One callback of an animation frame: a call of its [gameLoop]
    closure, which may register the closure again. *)
Definition runCallback (timestamp : R) (cb : Callback.t) (c : Mounted.t)
    : option (Mounted.t * list Event) :=
  let f :=
    Frame.mk timestamp (Mounted.width c) (Mounted.height c)
      (Callback.gameStatus cb) in
  match gameLoop rnd f (Mounted.world c) with
  | None => None
  | Some t =>
      let c1 := withWorld (Tick.world t) c in
      Some (if Tick.requested t
            then requestAnimationFrame (Callback.gameStatus cb) c1
            else c1,
            Tick.events t)
  end.

Fixpoint runQueue (timestamp : R) (callbacks : list Callback.t)
    (c : Mounted.t) : option (Mounted.t * list Event) :=
  match callbacks with
  | [] => Some (c, [])
  | cb :: rest =>
      match runCallback timestamp cb c with
      | None => None
      | Some (c1, events1) =>
          match runQueue timestamp rest c1 with
          | None => None
          | Some (c2, events2) => Some (c2, events1 ++ events2)
          end
      end
  end.

(** An animation frame: the callbacks registered before it are run, in
    order; those they register wait for the next frame. *)
Definition browserFrame (timestamp : R) (c : Mounted.t)
    : option (Mounted.t * list Event) :=
  runQueue timestamp (Mounted.queue c)
    (Mounted.mk (Mounted.world c) (Mounted.width c) (Mounted.height c)
       (Mounted.gameStatus c) (Mounted.animationRef c) []
       (Mounted.nextHandle c)).

(** A tap on the canvas: the listener calls the [handleTap] of the
    last render. *)
Definition tapCanvas (c : Mounted.t) : Mounted.t :=
  withWorld (handleTap (Mounted.gameStatus c) (Mounted.world c)) c.

(** The body of the effect "Reset game" when [gameStatus] is
    ['playing']; [stored] is the high score in local storage. *)
Definition resetGame (stored : Z) (c : Mounted.t) : Mounted.t :=
  let w := Mounted.world c in
  let '(game, lastSpeed, n) :=
    initGame rnd (Mounted.width c) (Mounted.height c) stored
      (World.lastObstacleSpeed w) (World.randomCalls w) in
  requestAnimationFrame gsPlaying
    (withWorld
       (World.mk game 0 (World.colorChangeFlash w)
          (World.pendingColorChange w) lastSpeed n)
       c).

(** A render with the prop [gameStatus], and the effects it runs. *)
Definition setGameStatus (gameStatus : GameStatus) (stored : Z)
    (c : Mounted.t) : Mounted.t :=
  let rendered :=
    Mounted.mk (Mounted.world c) (Mounted.width c) (Mounted.height c)
      gameStatus (Mounted.animationRef c) (Mounted.queue c)
      (Mounted.nextHandle c) in
  let cleaned := cancelAnimationFrame (Mounted.animationRef c) rendered in
  match gameStatus, Mounted.gameStatus c with
  | gsPlaying, gsPlaying => c
  | gsPaused, gsPaused => c
  | gsPaused, gsPlaying => cleaned
  | gsPlaying, gsPaused =>
      resetGame stored (requestAnimationFrame gsPlaying cleaned)
  end.

(** The component through frames, taps, pauses and resumes. *)
Inductive runs : Mounted.t -> Prop :=
| runs_mount (windowWidth windowHeight : R) (stored : Z) (n handle : nat) :
    runs (mountCanvas windowWidth windowHeight stored n handle)
| runs_frame (timestamp : R) (c c' : Mounted.t) (events : list Event) :
    runs c -> browserFrame timestamp c = Some (c', events) -> runs c'
| runs_tap (c : Mounted.t) : runs c -> runs (tapCanvas c)
| runs_status (gameStatus : GameStatus) (stored : Z) (c : Mounted.t) :
    runs c -> runs (setGameStatus gameStatus stored c).

(** The component through frames and taps only. *)
Inductive plays : Mounted.t -> Prop :=
| plays_mount (windowWidth windowHeight : R) (stored : Z) (n handle : nat) :
    plays (mountCanvas windowWidth windowHeight stored n handle)
| plays_frame (timestamp : R) (c c' : Mounted.t) (events : list Event) :
    plays c -> browserFrame timestamp c = Some (c', events) -> plays c'
| plays_tap (c : Mounted.t) : plays c -> plays (tapCanvas c).

End Effects.

(** * What the specification says, in its own words *)

(** §4.3, step 1: the per-type half-width of an obstacle. *)
Definition spec_thickness (ty : ObstacleType) : R :=
  match ty with dotCircle => 20 | _ => 14 end.

(** §4.3, step 2: [theta] is the angle [a] normalised into [[0, 2π)]. *)
Definition spec_normalized (a theta : R) : Prop :=
  0 <= theta < 2 * PI /\ exists k : Z, theta = a + IZR k * (2 * PI).

(** §4.3, step 2: the palette index of the segment at a normalised
    angle. *)
Definition spec_segmentIndex (ty : ObstacleType) (theta : R) : Z :=
  match ty with
  | dotCircle =>
      (floor (IZR (floor (theta / (2 * PI) * 24)) / 6) mod 4)%Z
  | _ => (floor (theta / (PI / 2)) mod 4)%Z
  end.

(** §4.3: the ball is strictly inside the band of the obstacle and its
    colour differs from the colour of the segment it is in. *)
Definition spec_collision (ball : Ball.t) (obstacle : Obstacle.t)
    (centerX : R) : Prop :=
  let dx := Ball.x ball - centerX in
  let dy := Ball.y ball - Obstacle.y obstacle in
  let distance := sqrt (dx * dx + dy * dy) in
  let thickness := spec_thickness (Obstacle.type obstacle) in
  (Obstacle.radius obstacle - thickness - Ball.radius ball < distance
   /\ distance < Obstacle.radius obstacle + thickness + Ball.radius ball)
  /\ exists theta : R,
       spec_normalized (atan2 dy dx - Obstacle.rotation obstacle) theta
       /\ Ball.color ball
          <> index COLOR_ORDER
               (spec_segmentIndex (Obstacle.type obstacle) theta).

(** §3: the fixed cyclic order of the palette. *)
Definition spec_successor (c : GameColor) : GameColor :=
  match c with
  | cyan => purple
  | purple => pink
  | pink => yellow
  | yellow => cyan
  end.

(** §4.2: the type of the obstacle of generation index [i]. *)
Definition spec_type (i : nat) : ObstacleType :=
  if (i mod 5 =? 0)%nat then dotCircle
  else if (i mod 2 =? 0)%nat then ring else halfRing.

(** * Properties *)

(** ** Booleans and numbers *)

Lemma Rltb_true (a b : R) : Rltb a b = true <-> a < b.
Proof. unfold Rltb. destruct (Rlt_dec a b); split; intros; easy. Qed.

Lemma Rltb_false (a b : R) : Rltb a b = false <-> b <= a.
Proof.
  unfold Rltb. destruct (Rlt_dec a b); split; intros; try easy; lra.
Qed.

Lemma Rleb_true (a b : R) : Rleb a b = true <-> a <= b.
Proof. unfold Rleb. destruct (Rle_dec a b); split; intros; easy. Qed.

Lemma Rleb_false (a b : R) : Rleb a b = false <-> b < a.
Proof.
  unfold Rleb. destruct (Rle_dec a b); split; intros; try easy; lra.
Qed.

Lemma Rgtb_true (a b : R) : Rgtb a b = true <-> b < a.
Proof. apply Rltb_true. Qed.

Lemma Rgtb_false (a b : R) : Rgtb a b = false <-> a <= b.
Proof. apply Rltb_false. Qed.

Lemma Rgeb_true (a b : R) : Rgeb a b = true <-> b <= a.
Proof. apply Rleb_true. Qed.

Lemma Rgeb_false (a b : R) : Rgeb a b = false <-> a < b.
Proof. apply Rleb_false. Qed.

Lemma colorNeq_true (a b : Color) : colorNeq a b = true <-> a <> b.
Proof.
  unfold colorNeq, colorEq. destruct (Color_eq_dec a b); simpl; split;
    intros; try easy.
Qed.

Lemma floor_spec (a : R) (z : Z) : floor a = z <-> IZR z <= a < IZR z + 1.
Proof.
  unfold floor. split.
  - intros <-. destruct (base_Int_part a). lra.
  - intros [H1 H2]. symmetry. apply Int_part_spec. lra.
Qed.

Lemma floor_range (a : R) (lo hi : Z) :
  IZR lo <= a < IZR hi -> (lo <= floor a < hi)%Z.
Proof.
  intros [H1 H2]. destruct (proj1 (floor_spec a (floor a)) eq_refl) as [F1 F2].
  split.
  - apply Z.lt_succ_r. apply lt_IZR. rewrite succ_IZR. lra.
  - apply lt_IZR. lra.
Qed.

Lemma filter_none {A : Type} (p : A -> bool) (l : list A) :
  (forall a, In a l -> p a = false) -> filter p l = [].
Proof.
  induction l as [|a l IH]; intros H; simpl; [reflexivity|].
  rewrite (H a (or_introl eq_refl)). apply IH. intros a' Ha'.
  apply H. now right.
Qed.

Lemma filter_all {A : Type} (p : A -> bool) (l : list A) :
  (forall a, In a l -> p a = true) -> filter p l = l.
Proof.
  induction l as [|a l IH]; intros H; simpl; [reflexivity|].
  rewrite (H a (or_introl eq_refl)). f_equal. apply IH. intros a' Ha'.
  apply H. now right.
Qed.

(** ** The angle normalisation *)

Lemma whileNegative_spec (a : R) :
  0 <= whileNegative a
  /\ (0 <= a -> whileNegative a = a)
  /\ exists k : Z, whileNegative a = a + IZR k * (2 * PI).
Proof.
  funelim (whileNegative a).
  - destruct H as (H1 & H2 & k & Hk). repeat split.
    + exact H1.
    + intros; lra.
    + exists (k + 1)%Z. rewrite Hk, plus_IZR. ring.
  - repeat split; try lra. exists 0%Z. ring.
Qed.

Lemma whileFullTurn_spec (a : R) :
  whileFullTurn a < 2 * PI
  /\ (0 <= a -> 0 <= whileFullTurn a)
  /\ exists k : Z, whileFullTurn a = a + IZR k * (2 * PI).
Proof.
  funelim (whileFullTurn a).
  - destruct H as (H1 & H2 & k & Hk). repeat split.
    + exact H1.
    + intros. apply H2. lra.
    + exists (k - 1)%Z. rewrite Hk, minus_IZR. ring.
  - repeat split; try lra. exists 0%Z. ring.
Qed.

Lemma normalizeAngle_spec (a : R) : spec_normalized a (normalizeAngle a).
Proof.
  unfold normalizeAngle, spec_normalized.
  destruct (whileNegative_spec a) as (N1 & _ & k1 & Hk1).
  destruct (whileFullTurn_spec (whileNegative a)) as (F1 & F2 & k2 & Hk2).
  repeat split; auto.
  exists (k1 + k2)%Z. rewrite Hk2, Hk1, plus_IZR. ring.
Qed.

Lemma spec_normalized_unique (a t1 t2 : R) :
  spec_normalized a t1 -> spec_normalized a t2 -> t1 = t2.
Proof.
  intros [[L1 U1] [k1 E1]] [[L2 U2] [k2 E2]].
  pose proof PI_RGT_0 as HPI.
  assert (Hd : t1 - t2 = IZR (k1 - k2) * (2 * PI))
    by (rewrite minus_IZR; lra).
  assert (Hk : (k1 - k2 = 0)%Z).
  { assert (Hlt : (-1 < k1 - k2 < 1)%Z); [|lia].
    split; apply lt_IZR; nra. }
  rewrite Hk in Hd. lra.
Qed.

(** ** Collision detection *)

Lemma thicknessOf_spec (ty : ObstacleType) : thicknessOf ty = spec_thickness ty.
Proof. destruct ty; reflexivity. Qed.

Lemma quadrant_range (theta : R) :
  0 <= theta < 2 * PI -> (0 <= floor (theta / (PI / 2)) < 4)%Z.
Proof.
  intros [H1 H2]. pose proof PI_RGT_0 as HPI.
  apply floor_range. split.
  - apply Rmult_le_reg_r with (PI / 2); [lra|]. field_simplify; lra.
  - apply Rmult_lt_reg_r with (PI / 2); [lra|]. field_simplify; lra.
Qed.

Lemma dotIndex_range (theta : R) :
  0 <= theta < 2 * PI -> (0 <= floor (theta / (PI * 2) * 24) < 24)%Z.
Proof.
  intros [H1 H2]. pose proof PI_RGT_0 as HPI.
  apply floor_range.
  assert (0 <= theta / (PI * 2) < 1).
  { split.
    - apply Rmult_le_reg_r with (PI * 2); [lra|]. field_simplify; lra.
    - apply Rmult_lt_reg_r with (PI * 2); [lra|]. field_simplify; lra. }
  lra.
Qed.

Lemma colorIndex_range (d : Z) :
  (0 <= d < 24)%Z -> (0 <= floor (IZR d / 6) < 4)%Z.
Proof.
  intros [H1 H2]. apply floor_range.
  apply IZR_le in H1. apply IZR_lt in H2. lra.
Qed.

Lemma segmentColorAt_spec (ty : ObstacleType) (theta : R) :
  0 <= theta < 2 * PI ->
  segmentColorAt ty theta = index COLOR_ORDER (spec_segmentIndex ty theta).
Proof.
  intros Ht. unfold segmentColorAt, spec_segmentIndex.
  pose proof (quadrant_range theta Ht) as Hq.
  pose proof (dotIndex_range theta Ht) as Hd.
  pose proof (colorIndex_range _ Hd) as Hc.
  replace (2 * PI) with (PI * 2) by ring.
  destruct ty; rewrite Z.rem_mod_nonneg by lia; reflexivity.
Qed.

(** The segment colour that [checkCollision] resolves is one of the four
    palette colours. *)
Lemma segmentColorAt_palette (ty : ObstacleType) (theta : R) :
  0 <= theta < 2 * PI ->
  exists c : GameColor, segmentColorAt ty theta = Some c /\ In c COLOR_ORDER.
Proof.
  intros Ht. rewrite segmentColorAt_spec by exact Ht.
  assert (Hr : (0 <= spec_segmentIndex ty theta < 4)%Z)
    by (unfold spec_segmentIndex; destruct ty; apply Z.mod_pos_bound; lia).
  set (i := spec_segmentIndex ty theta) in *.
  assert (Hi : i = 0%Z \/ i = 1%Z \/ i = 2%Z \/ i = 3%Z) by lia.
  destruct Hi as [-> | [-> | [-> | ->]]]; cbn; eexists; split;
    try reflexivity; simpl; tauto.
Qed.

(** C1.  For every ball and obstacle, [checkCollision] answers [true]
    exactly when the distance of the ball from the lane centre at the
    height of the obstacle lies strictly between
    [radius - thickness - ball.radius] and
    [radius + thickness + ball.radius], with thickness 20 for a
    [dotCircle] and 14 otherwise, and the colour of the ball differs from
    the palette colour of the segment at the angle
    [atan2(dy, dx) - rotation] normalised into [[0, 2π)]: quadrant
    [floor(angle / (π/2)) mod 4] for rings, and
    [floor(floor(angle / 2π × 24) / 6) mod 4] for a [dotCircle].  When the
    colours are equal the answer is [false]; the check is a function of
    its arguments alone and returns a boolean, so that it changes no
    state. *)
Theorem checkCollision_iff_spec (ball : Ball.t) (obstacle : Obstacle.t)
    (centerX : R) :
  (checkCollision ball obstacle centerX = true
   <-> spec_collision ball obstacle centerX)
  /\ (forall theta : R,
        spec_normalized
          (atan2 (Ball.y ball - Obstacle.y obstacle) (Ball.x ball - centerX)
           - Obstacle.rotation obstacle) theta ->
        Ball.color ball
        = index COLOR_ORDER
            (spec_segmentIndex (Obstacle.type obstacle) theta) ->
        checkCollision ball obstacle centerX = false).
Proof.
  assert (Hiff : checkCollision ball obstacle centerX = true
                 <-> spec_collision ball obstacle centerX).
  { unfold checkCollision, spec_collision.
    change (spec_thickness (Obstacle.type obstacle))
      with (thicknessOf (Obstacle.type obstacle)).
    set (dx := Ball.x ball - centerX).
    set (dy := Ball.y ball - Obstacle.y obstacle).
    set (distance := sqrt (dx * dx + dy * dy)).
    set (inner := Obstacle.radius obstacle
                  - thicknessOf (Obstacle.type obstacle) - Ball.radius ball).
    set (outer := Obstacle.radius obstacle
                  + thicknessOf (Obstacle.type obstacle) + Ball.radius ball).
    set (a := atan2 dy dx - Obstacle.rotation obstacle).
    pose proof (normalizeAngle_spec a) as Hn.
    destruct (Rleb distance inner || Rgeb distance outer) eqn:Hband.
    - split; [discriminate|].
      intros [[Hi Ho] _]. apply orb_true_iff in Hband.
      destruct Hband as [Hb | Hb];
        [apply Rleb_true in Hb | apply Rgeb_true in Hb]; lra.
    - apply orb_false_iff in Hband. destruct Hband as [Hb1 Hb2].
      apply Rleb_false in Hb1. apply Rgeb_false in Hb2.
      rewrite (segmentColorAt_spec _ _ (proj1 Hn)).
      split.
      + intros Hc.
        destruct (colorNeq (Ball.color ball) _) eqn:Hneq; [|discriminate].
        apply colorNeq_true in Hneq.
        split; [split; assumption|].
        exists (normalizeAngle a). split; assumption.
      + intros [_ [theta [Hth Hneq]]].
        rewrite (spec_normalized_unique a _ _ Hn Hth).
        apply colorNeq_true in Hneq. rewrite Hneq. reflexivity. }
  split; [exact Hiff|].
  intros theta Hth Heq.
  apply not_true_is_false. intros Hc.
  apply Hiff in Hc. destruct Hc as [_ [theta' [Hth' Hneq]]].
  rewrite (spec_normalized_unique _ _ _ Hth' Hth) in Hneq. contradiction.
Qed.

(** ** Obstacle generation *)

Section Generation.

Variable rnd : nat -> R.

(** The loop ends after at most [maxAttempts] samples in all; it
    returns the last sample, which passed the acceptance test, and has
    made two random calls for each sample. *)
Lemma speedLoop_spec (type : ObstacleType) (index : nat) (prevSpeed : R)
    (attempts n : nat) :
  let '(s, attempts', n') :=
    speedLoop rnd type index prevSpeed attempts n in
  (attempts < attempts')%nat
  /\ (attempts' <= Nat.max maxAttempts (S attempts))%nat
  /\ n' = (n + 2 * (attempts' - attempts))%nat
  /\ s = sampleSpeed rnd type index (n' - 2)
  /\ speedAccepted s prevSpeed attempts' = true.
Proof.
  funelim (speedLoop rnd type index prevSpeed attempts n).
  - repeat split; try lia.
    + f_equal. lia.
    + assumption.
  - clear Heqcall H0.
    destruct (speedLoop rnd type index0 prevSpeed (S attempts) (n + 2))
      as [[s a'] n'].
    destruct H as (H1 & H2 & H3 & H4 & H5).
    assert (Hlt : (S attempts < maxAttempts)%nat).
    { unfold speedAccepted in Hcont.
      apply orb_false_iff in Hcont. destruct Hcont as [_ Hcont].
      apply Nat.leb_gt in Hcont. exact Hcont. }
    repeat split; try lia; assumption.
Qed.

Hypothesis rnd_range : forall n : nat, 0 <= rnd n < 1.

(** Every sampled speed is at least 0.00576 in magnitude. *)
Lemma sampleSpeed_magnitude (type : ObstacleType) (index n : nat) :
  0.00576 <= Rabs (sampleSpeed rnd type index n).
Proof.
  unfold sampleSpeed.
  pose proof (rnd_range (S n)) as Hr.
  pose proof (pos_INR (index mod 11)) as Hi.
  set (r := rnd (S n)) in *. set (k := INR (index mod 11)) in *.
  assert (Hbase : 0.008 <= match type with
                           | dotCircle => (0.008 + k * 0.004) * 2.5
                           | _ => 0.008 + k * 0.004
                           end) by (destruct type; lra).
  set (base := match type with
               | dotCircle => (0.008 + k * 0.004) * 2.5
               | _ => 0.008 + k * 0.004
               end) in *.
  destruct (Rgtb (rnd n) 0.5).
  - rewrite Rabs_pos_eq; nra.
  - rewrite Rabs_left; nra.
Qed.

(** C7.  The sampling loop of [createObstacle] stops after at most 10
    samples (two random calls each), and the speed [s] it accepts, which
    becomes the obstacle's [rotationSpeed], relates to the previous
    speed [p] in one of three ways: [s] and [p] have opposite signs, or
    [| |s| - |p| |] exceeds [max(0.2·|p|, 0.005)], or the 10 attempts are
    used up and [s] is the tenth sample. *)
Theorem createObstacle_speed_rule (canvasWidth y : R) (index : nat)
    (p : R) (n : nat) :
  exists (s : R) (attempts : nat),
    speedLoop rnd (obstacleTypeOf index) index p 0 n
    = (s, attempts, (n + 2 * attempts)%nat)
    /\ (1 <= attempts <= 10)%nat
    /\ s = sampleSpeed rnd (obstacleTypeOf index) index
             (n + 2 * (attempts - 1))
    /\ Obstacle.rotationSpeed
         (fst (createObstacle rnd canvasWidth y index p n)) = s
    /\ snd (createObstacle rnd canvasWidth y index p n)
       = (n + 2 * attempts + 2)%nat
    /\ (s * p < 0
        \/ Rabs (Rabs s - Rabs p) > Rmax (0.2 * Rabs p) 0.005
        \/ attempts = 10%nat).
Proof.
  pose proof (speedLoop_spec (obstacleTypeOf index) index p 0 n) as Hs.
  unfold createObstacle.
  destruct (speedLoop rnd (obstacleTypeOf index) index p 0 n)
    as [[s attempts] n'].
  destruct Hs as (H1 & H2 & H3 & H4 & H5).
  change maxAttempts with 10%nat in H2.
  exists s, attempts.
  assert (Hn' : n' = (n + 2 * attempts)%nat) by lia.
  rewrite Hn' in *. simpl fst. simpl snd.
  repeat split; try lia.
  - rewrite H4. f_equal. lia.
  - unfold speedAccepted in H5.
    apply orb_true_iff in H5. destruct H5 as [H5 | H5];
      [apply orb_true_iff in H5; destruct H5 as [H5 | H5]|].
    + right; left. apply Rgtb_true in H5.
      rewrite (Rmult_comm 0.2). lra.
    + assert (Hmag : 0.00576 <= Rabs s)
        by (rewrite H4; apply sampleSpeed_magnitude).
      destruct (Rgtb s 0) eqn:Es, (Rgtb p 0) eqn:Ep; simpl in H5;
        try discriminate.
      * apply Rgtb_true in Es. apply Rgtb_false in Ep.
        destruct (Req_dec p 0) as [-> | Hp].
        -- right; left. rewrite Rabs_R0, Rmult_0_r, Rminus_0_r, Rabs_Rabsolu.
           unfold Rmax. destruct (Rle_dec 0 0.005); lra.
        -- left. nra.
      * apply Rgtb_false in Es. apply Rgtb_true in Ep.
        assert (s <> 0).
        { intros ->. rewrite Rabs_R0 in Hmag. lra. }
        left. nra.
    + right; right. apply Nat.leb_le in H5.
      change maxAttempts with 10%nat in H5. lia.
Qed.

End Generation.

(** ** One call of [gameLoop] *)

(** The three ways a playing call ends. *)
Lemma gameLoop_playing (rnd : nat -> R) (f : Frame.t) (w : World.t)
    (t : Tick.t) :
  gameLoop rnd f w = Some t ->
  Frame.gameStatus f = gsPlaying ->
  let g := World.game w in
  let g' := World.game (Tick.world t) in
  GameState.ball g' = movedBall f w
  /\ GameState.cameraY g' = movedCamera f w
  /\ GameState.score g' = scoredScore f w
  /\ GameState.highScore g' = GameState.highScore g
  /\ World.pendingColorChange (Tick.world t) = scoredPending f w
  /\ World.colorChangeFlash (Tick.world t) = snd (fst (applied f w))
  /\ World.lastTime (Tick.world t) = Frame.timestamp f
  /\ ((collides f w = true
       /\ GameState.status g' = gameover
       /\ Tick.events t = scoreEvents f w ++ [GameOver (scoredScore f w)]
       /\ Tick.requested t = false
       /\ GameState.obstacles g' = scoredObstacles f w)
      \/ (collides f w = false
          /\ exists highest : R,
               highestObstacle f w = Some highest
               /\ GameState.obstacles g'
                  = filter (fun o => onScreen (movedCamera f w)
                                       (Frame.height f) (Obstacle.y o))
                      (generatedObstacles rnd f w highest)
               /\ ((fallsOut f w = true
                    /\ GameState.status g' = gameover
                    /\ Tick.events t
                       = scoreEvents f w ++ [GameOver (scoredScore f w)]
                    /\ Tick.requested t = false)
                   \/ (fallsOut f w = false
                       /\ GameState.status g' = GameState.status g
                       /\ Tick.events t = scoreEvents f w
                       /\ Tick.requested t
                          = isPlaying (GameState.status g))))).
Proof.
  intros Hloop Hgs.
  unfold gameLoop in Hloop. rewrite Hgs in Hloop.
  unfold playingBlock in Hloop. cbn [World.game World.colorChangeFlash
    World.pendingColorChange World.lastObstacleSpeed World.randomCalls
    World.lastTime] in Hloop.
  unfold collides, highestObstacle, generatedObstacles, fallsOut,
    scoredObstacles, scoredScore, scoredPending, scoreEvents, scored,
    movedCamera, rotated, appliedPending, movedBall, applied, deltaTime.
  destruct (applyPendingColorChange _ _ _ _) as [[ball0 flash] pending0].
  cbn [fst snd].
  destruct (scoreLoop _ _ _ _ _) as [[[obstacles score] pending] events].
  cbn [fst snd].
  destruct (collisionLoop _ _ _).
  - inversion Hloop; subst; clear Hloop. cbn.
    repeat split; try reflexivity. left. repeat split; reflexivity.
  - destruct (minimum _) as [highest|]; [|discriminate].
    destruct (generate _ _ _ _ _ _ _ _ _ _)
      as [[[[obstacles1 switchers1] stars1] lastSpeed] n] eqn:Hgen.
    cbn [fst snd].
    destruct (belowBoundary _ _ _).
    + inversion Hloop; subst; clear Hloop. cbn.
      repeat split; try reflexivity. right. split; [reflexivity|].
      exists highest. rewrite Hgen. repeat split; try reflexivity.
      left. repeat split; reflexivity.
    + inversion Hloop; subst; clear Hloop. cbn.
      repeat split; try reflexivity. right. split; [reflexivity|].
      exists highest. rewrite Hgen. repeat split; try reflexivity.
      right. repeat split; reflexivity.
Qed.

(** A paused call only records the timestamp and decays the flash. *)
Lemma gameLoop_paused (rnd : nat -> R) (f : Frame.t) (w : World.t)
    (t : Tick.t) :
  gameLoop rnd f w = Some t ->
  Frame.gameStatus f = gsPaused ->
  World.game (Tick.world t) = World.game w
  /\ World.pendingColorChange (Tick.world t) = World.pendingColorChange w
  /\ Tick.events t = []
  /\ Tick.requested t = isPlaying (GameState.status (World.game w)).
Proof.
  intros Hloop Hgs. unfold gameLoop in Hloop. rewrite Hgs in Hloop.
  inversion Hloop; subst; clear Hloop. cbn. repeat split; reflexivity.
Qed.

(** ** The scoring loop *)

Lemma scoreLoop_obstacles (ts : R) (b : Ball.t) (l : list Obstacle.t)
    (s : Z) (p : option Pending.t) :
  fst (fst (fst (scoreLoop ts b l s p)))
  = map (fun o => if crosses b o then markPassed o else o) l.
Proof.
  revert s p. induction l as [|o l IH]; intros s p; simpl; [reflexivity|].
  destruct (crosses b o).
  - specialize (IH (s + 1)%Z (scheduleColorChange ts b (s + 1) p)).
    destruct (scoreLoop ts b l _ _) as [[[l' s'] p'] ev]. simpl in *.
    now rewrite IH.
  - specialize (IH s p).
    destruct (scoreLoop ts b l _ _) as [[[l' s'] p'] ev]. simpl in *.
    now rewrite IH.
Qed.

Lemma scoreLoop_score (ts : R) (b : Ball.t) (l : list Obstacle.t)
    (s : Z) (p : option Pending.t) :
  snd (fst (fst (scoreLoop ts b l s p)))
  = (s + Z.of_nat (length (filter (crosses b) l)))%Z.
Proof.
  revert s p. induction l as [|o l IH]; intros s p; simpl; [lia|].
  destruct (crosses b o).
  - specialize (IH (s + 1)%Z (scheduleColorChange ts b (s + 1) p)).
    destruct (scoreLoop ts b l _ _) as [[[l' s'] p'] ev]. simpl in *. lia.
  - specialize (IH s p).
    destruct (scoreLoop ts b l _ _) as [[[l' s'] p'] ev]. simpl in *. lia.
Qed.

Lemma scoreLoop_events (ts : R) (b : Ball.t) (l : list Obstacle.t)
    (s : Z) (p : option Pending.t) :
  snd (scoreLoop ts b l s p)
  = map ScoreChange (scoresAfter s (length (filter (crosses b) l))).
Proof.
  revert s p. induction l as [|o l IH]; intros s p; simpl; [reflexivity|].
  destruct (crosses b o).
  - specialize (IH (s + 1)%Z (scheduleColorChange ts b (s + 1) p)).
    destruct (scoreLoop ts b l _ _) as [[[l' s'] p'] ev]. simpl in *.
    now rewrite IH.
  - specialize (IH s p).
    destruct (scoreLoop ts b l _ _) as [[[l' s'] p'] ev]. simpl in *.
    exact IH.
Qed.

Lemma rem2_even (s : Z) : (Z.rem s 2 =? 0)%Z = Z.even s.
Proof.
  destruct (Z.even s) eqn:E.
  - apply Z.eqb_eq. apply Z.even_spec in E. destruct E as [m ->].
    rewrite Z.mul_comm. apply Z.rem_mul. lia.
  - apply Z.eqb_neq. intros H.
    apply Z.rem_divide in H; [|lia]. destruct H as [m ->].
    rewrite Z.even_mul in E. simpl in E. rewrite orb_true_r in E.
    discriminate.
Qed.

Lemma scheduleColorChange_spec (ts : R) (b : Ball.t) (s : Z)
    (p : option Pending.t) :
  scheduleColorChange ts b s p
  = match p with
    | Some q => Some q
    | None =>
        if Z.even s
        then Some (Pending.mk (ts + 1000) (nextColor (Ball.color b)))
        else None
    end.
Proof.
  unfold scheduleColorChange. rewrite rem2_even.
  destruct p, (Z.even s); reflexivity.
Qed.

Lemma scoreLoop_pending (ts : R) (b : Ball.t) (l : list Obstacle.t)
    (s : Z) (p : option Pending.t) :
  snd (fst (scoreLoop ts b l s p))
  = match p with
    | Some q => Some q
    | None =>
        if existsb Z.even (scoresAfter s (length (filter (crosses b) l)))
        then Some (Pending.mk (ts + 1000) (nextColor (Ball.color b)))
        else None
    end.
Proof.
  revert s p. induction l as [|o l IH]; intros s p; simpl.
  - destruct p; reflexivity.
  - destruct (crosses b o).
    + specialize (IH (s + 1)%Z (scheduleColorChange ts b (s + 1) p)).
      destruct (scoreLoop ts b l _ _) as [[[l' s'] p'] ev]. simpl in *.
      rewrite IH, scheduleColorChange_spec.
      destruct p; [reflexivity|].
      destruct (Z.even (s + 1)); reflexivity.
    + specialize (IH s p).
      destruct (scoreLoop ts b l _ _) as [[[l' s'] p'] ev]. simpl in *.
      exact IH.
Qed.

Lemma crosses_unpassed (b : Ball.t) (o : Obstacle.t) :
  crosses b o = true -> Obstacle.passed o = false.
Proof.
  unfold crosses. destruct (Obstacle.passed o); [discriminate|reflexivity].
Qed.

Lemma scoredObstacles_evolve (f : Frame.t) (w : World.t) :
  scoredObstacles f w = map (evolve f w) (GameState.obstacles (World.game w)).
Proof.
  unfold scoredObstacles, scored. rewrite scoreLoop_obstacles.
  unfold rotated. rewrite map_map. reflexivity.
Qed.

Lemma scoredScore_count (f : Frame.t) (w : World.t) :
  scoredScore f w
  = (GameState.score (World.game w) + Z.of_nat (length (crossing f w)))%Z.
Proof. unfold scoredScore, scored. apply scoreLoop_score. Qed.

Lemma scoreEvents_list (f : Frame.t) (w : World.t) :
  scoreEvents f w
  = map ScoreChange
      (scoresAfter (GameState.score (World.game w)) (length (crossing f w))).
Proof. unfold scoreEvents, scored. apply scoreLoop_events. Qed.

Lemma collisionLoop_true (b : Ball.t) (l : list Obstacle.t) (cx : R) :
  collisionLoop b l cx = true
  <-> exists o, In o l /\ Obstacle.passed o = false
                /\ checkCollision b o cx = true.
Proof.
  induction l as [|o l IH]; simpl.
  - split; [discriminate|]. intros (o & [] & _).
  - destruct (negb (Obstacle.passed o) && checkCollision b o cx) eqn:E.
    + split; [|reflexivity]. intros _.
      apply andb_true_iff in E. destruct E as [E1 E2].
      apply negb_true_iff in E1. exists o. auto.
    + rewrite IH. split.
      * intros (o' & Hin & H). exists o'. auto.
      * intros (o' & [-> | Hin] & H1 & H2).
        -- rewrite H1, H2 in E. discriminate.
        -- exists o'. auto.
Qed.

Lemma applied_ball (f : Frame.t) (w : World.t) :
  let b := GameState.ball (World.game w) in
  let b' := fst (fst (applied f w)) in
  Ball.x b' = Ball.x b /\ Ball.y b' = Ball.y b
  /\ Ball.radius b' = Ball.radius b /\ Ball.velocity b' = Ball.velocity b.
Proof.
  unfold applied, applyPendingColorChange. cbn zeta.
  destruct (World.pendingColorChange w) as [p|]; [|cbn; auto].
  destruct (Rgeb _ _); cbn; auto.
Qed.

(** ** Physics *)

(** C8.  In every playing call, with [dt] the elapsed-time factor of the
    call, the velocity is updated first and the position with the new
    velocity: [velocity' = velocity + 0.35·dt] and
    [y' = y + velocity'·dt]; then the camera moves by
    [camera' = camera + ((y' - height·0.7) - camera)·0.1], a step that
    [dt] does not scale.  From velocity 0 with [dt = 1] the velocity
    becomes 0.35 and [y] grows by exactly 0.35; [dt] is 1 in the first
    call of a session, when [lastTimeRef] is still 0. *)
Theorem gravity_then_camera (rnd : nat -> R) (f : Frame.t) (w : World.t)
    (t : Tick.t) :
  gameLoop rnd f w = Some t ->
  Frame.gameStatus f = gsPlaying ->
  let dt := deltaTime f w in
  let b := GameState.ball (World.game w) in
  let b' := GameState.ball (World.game (Tick.world t)) in
  let camera := GameState.cameraY (World.game w) in
  let camera' := GameState.cameraY (World.game (Tick.world t)) in
  Ball.velocity b' = Ball.velocity b + 0.35 * dt
  /\ Ball.y b' = Ball.y b + Ball.velocity b' * dt
  /\ camera' = camera + ((Ball.y b' - Frame.height f * 0.7) - camera) * 0.1
  /\ (Ball.velocity b = 0 -> dt = 1 ->
      Ball.velocity b' = 0.35 /\ Ball.y b' - Ball.y b = 0.35)
  /\ (World.lastTime w = 0 -> dt = 1).
Proof.
  intros Hloop Hgs dt b b' camera camera'.
  destruct (gameLoop_playing rnd f w t Hloop Hgs)
    as (Hb & Hc & _).
  destruct (applied_ball f w) as (_ & Hy & _ & Hv).
  assert (Hvel : Ball.velocity b' = Ball.velocity b + 0.35 * dt).
  { unfold b'. rewrite Hb. unfold movedBall, applyGravity. cbn.
    rewrite Hv. reflexivity. }
  assert (Hpos : Ball.y b' = Ball.y b + Ball.velocity b' * dt).
  { unfold b'. rewrite Hb. unfold movedBall, applyGravity. cbn.
    rewrite Hy, Hv. reflexivity. }
  repeat split.
  - exact Hvel.
  - exact Hpos.
  - unfold camera'. rewrite Hc. unfold movedCamera, followBall.
    fold b'. rewrite <- Hb. reflexivity.
  - rewrite Hvel. lra.
  - rewrite Hpos, Hvel. nra.
  - intros H0. unfold dt, deltaTime, deltaTimeOf, truthy. rewrite H0.
    destruct (Req_dec_T 0 0); [reflexivity|contradiction].
Qed.

(** ** Scoring *)

Lemma createObstacle_fields (rnd : nat -> R) (cw y : R) (index : nat)
    (p : R) (n : nat) :
  let o := fst (createObstacle rnd cw y index p n) in
  Obstacle.type o = obstacleTypeOf index
  /\ Obstacle.y o = y
  /\ Obstacle.radius o = 140
  /\ Obstacle.passed o = false.
Proof.
  unfold createObstacle.
  destruct (speedLoop rnd (obstacleTypeOf index) index p 0 n) as [[s a] n'].
  cbn. auto.
Qed.

Lemma generatedObstacles_spec (rnd : nat -> R) (f : Frame.t) (w : World.t)
    (highest : R) :
  generatedObstacles rnd f w highest
  = if nearFrontier f w highest
    then scoredObstacles f w ++ [newObstacle rnd f w highest]
    else scoredObstacles f w.
Proof.
  unfold generatedObstacles, generate, nearFrontier, newObstacle.
  destruct (Rltb _ _); [|reflexivity].
  destruct (createObstacle _ _ _ _ _ _) as [o n1].
  destruct (Rgtb _ _); reflexivity.
Qed.

Lemma evolve_same (f : Frame.t) (w : World.t) (o : Obstacle.t) :
  sameObstacle o (evolve f w o)
  /\ Obstacle.passed (evolve f w o)
     = Obstacle.passed o
       || crosses (movedBall f w) (rotateObstacle (deltaTime f w) o).
Proof.
  unfold evolve, sameObstacle.
  destruct (crosses _ _) eqn:Hc; cbn; repeat split.
  - now rewrite orb_true_r.
  - now rewrite orb_false_r.
Qed.




(** What "Reset game" leaves of the refs. *)
Lemma resetWorld_refs (rnd : nat -> R) (cw ch : R) (stored : Z)
    (w : World.t) :
  let w' := resetWorld rnd cw ch stored w in
  World.game w'
  = fst (fst (initGame rnd cw ch stored (World.lastObstacleSpeed w)
                (World.randomCalls w)))
  /\ World.lastTime w' = 0
  /\ World.colorChangeFlash w' = World.colorChangeFlash w
  /\ World.pendingColorChange w' = World.pendingColorChange w.
Proof.
  unfold resetWorld.
  destruct (initGame rnd cw ch stored _ _) as [[g ls] n]. cbn. auto.
Qed.



(** ** The deferred colour change *)

Lemma nextColor_successor (c : GameColor) :
  nextColor (Some c) = Some (spec_successor c).
Proof. destruct c; reflexivity. Qed.

(** C5.  The pending colour change is one slot, [null] or one change.
    In a playing call, each score increment fills the slot exactly when
    the incremented score is a multiple of 2 and the slot is empty, with
    target timestamp [timestamp + 1000] and, as target colour, the
    successor of the ball's colour in the palette order; with the slot
    full the increment leaves it as it is.  So after the scoring loop the
    slot holds what it held before the loop if that was a change, and
    otherwise a new change if one of the scores reached is even, and
    nothing if none is.  A paused call and a tap leave the slot alone. *)
Theorem color_change_scheduling (rnd : nat -> R) (f : Frame.t)
    (w : World.t) (t : Tick.t) :
  gameLoop rnd f w = Some t ->
  let ts := Frame.timestamp f in
  let b := movedBall f w in
  let score := GameState.score (World.game w) in
  let k := length (crossing f w) in
  let fresh := Pending.mk (ts + 1000) (nextColor (Ball.color b)) in
  (Frame.gameStatus f = gsPlaying ->
   World.pendingColorChange (Tick.world t) = scoredPending f w
   /\ (forall q, appliedPending f w = Some q -> scoredPending f w = Some q)
   /\ (appliedPending f w = None ->
       scoredPending f w
       = if existsb Z.even (scoresAfter score k) then Some fresh else None)
   /\ (forall (s : Z) (p : option Pending.t),
         scheduleColorChange ts b (s + 1) p
         = match p with
           | Some q => Some q
           | None => if Z.even (s + 1) then Some fresh else None
           end)
   /\ Ball.color b = Ball.color (fst (fst (applied f w)))
   /\ (forall c, Ball.color b = Some c ->
       Pending.newColor fresh = Some (spec_successor c)))
  /\ (Frame.gameStatus f = gsPaused ->
      World.pendingColorChange (Tick.world t) = World.pendingColorChange w)
  /\ (forall gs,
        World.pendingColorChange (handleTap gs w)
        = World.pendingColorChange w).
Proof.
  intros Hloop ts b score k fresh.
  split; [intros Hgs; repeat apply conj|split].
  - now destruct (gameLoop_playing rnd f w t Hloop Hgs)
      as (_ & _ & _ & _ & Hp & _).
  - intros q Hq. unfold scoredPending, scored.
    rewrite scoreLoop_pending, Hq. reflexivity.
  - intros Hnone. unfold scoredPending, scored.
    rewrite scoreLoop_pending, Hnone. reflexivity.
  - intros s p. apply scheduleColorChange_spec.
  - reflexivity.
  - intros c Hc. unfold fresh. cbn [Pending.newColor]. rewrite Hc.
    apply nextColor_successor.
  - intros Hgs. now destruct (gameLoop_paused rnd f w t Hloop Hgs)
      as (_ & Hp & _).
  - intros []; reflexivity.
Qed.

(** ** The start of a session *)

Lemma initGame_game (rnd : nat -> R) (cw ch : R) (stored : Z) (ls : R)
    (n : nat) :
  fst (fst (initGame rnd cw ch stored ls n))
  = GameState.mk playing 0%Z stored
      (Ball.mk (cw / 2) (ch * 0.7) BALL_RADIUS 0 (getRandomColor rnd n))
      (fst (fst (generateInitialObstacles rnd cw ch ls (S n)))) [] [] 0.
Proof.
  unfold initGame.
  destruct (generateInitialObstacles rnd cw ch ls (S n)) as [[obs ls'] n'].
  reflexivity.
Qed.

Lemma mount_world (rnd : nat -> R) (cw ch : R) (stored : Z) (n : nat) :
  exists (ls1 : R) (n1 : nat),
    mount rnd cw ch stored n
    = Component.mk
        (World.mk (fst (fst (initGame rnd cw ch stored ls1 n1))) 0 0 None
           (snd (fst (initGame rnd cw ch stored ls1 n1)))
           (snd (initGame rnd cw ch stored ls1 n1)))
        2.
Proof.
  unfold mount.
  destruct (initGame rnd cw ch stored 0 n) as [[g1 ls1] n1].
  exists ls1, n1.
  destruct (initGame rnd cw ch stored ls1 n1) as [[g2 ls2] n2].
  reflexivity.
Qed.

Lemma getRandomColor_palette (rnd : nat -> R) (n : nat) :
  0 <= rnd n < 1 ->
  exists c : GameColor, getRandomColor rnd n = Some c.
Proof.
  intros Hr. unfold getRandomColor.
  assert (Hi : (0 <= floor (rnd n * INR (length COLOR_ORDER)) < 4)%Z).
  { apply floor_range. simpl. lra. }
  set (i := floor (rnd n * INR (length COLOR_ORDER))) in *.
  assert (Hc : i = 0%Z \/ i = 1%Z \/ i = 2%Z \/ i = 3%Z) by lia.
  destruct Hc as [-> | [-> | [-> | ->]]]; cbn; eexists; reflexivity.
Qed.

(** ** The colour of the ball *)

Lemma applied_color (f : Frame.t) (w : World.t) :
  match World.pendingColorChange w with
  | Some p =>
      if Rgeb (Frame.timestamp f) (Pending.timestamp p)
      then Ball.color (fst (fst (applied f w))) = Pending.newColor p
           /\ snd (fst (applied f w)) = 1
           /\ appliedPending f w = None
      else Ball.color (fst (fst (applied f w)))
           = Ball.color (GameState.ball (World.game w))
           /\ appliedPending f w = Some p
  | None =>
      Ball.color (fst (fst (applied f w)))
      = Ball.color (GameState.ball (World.game w))
      /\ appliedPending f w = None
  end.
Proof.
  unfold appliedPending, applied, applyPendingColorChange.
  destruct (World.pendingColorChange w) as [p|]; [|cbn; auto].
  destruct (Rgeb _ _); cbn; repeat split; lra.
Qed.

Lemma colorInvariant_step (rnd : nat -> R) (w w' : World.t) :
  colorInvariant w -> step rnd w w' -> colorInvariant w'.
Proof.
  intros (c & Hc & Hp) Hstep. destruct Hstep as [gs w | f w t _ Hloop].
  - exists c. destruct gs; cbn; auto.
  - destruct (Frame.gameStatus f) eqn:Hgs.
    + destruct (gameLoop_playing rnd f w t Hloop Hgs)
        as (Hb & _ & _ & _ & Hpend & _).
      pose proof (applied_color f w) as Ha.
      assert (Hcol : Ball.color (movedBall f w)
                     = Ball.color (fst (fst (applied f w)))) by reflexivity.
      unfold colorInvariant. rewrite Hb, Hpend, Hcol.
      unfold scoredPending, scored. rewrite scoreLoop_pending.
      destruct (World.pendingColorChange w) as [p|].
      * destruct (Rgeb _ _).
        -- destruct Ha as (Ha1 & _ & Ha3). rewrite Ha1, Ha3.
           rewrite (Hp p eq_refl), nextColor_successor.
           exists (spec_successor c). split; [reflexivity|].
           intros q. destruct (existsb _ _); [|discriminate].
           intros [= <-]. cbn [Pending.newColor].
           rewrite ?Hcol, Ha1, (Hp p eq_refl).
           now rewrite nextColor_successor.
        -- destruct Ha as (Ha1 & Ha2). rewrite Ha1, Ha2.
           exists c. split; [exact Hc|].
           intros q [= <-]. now apply Hp.
      * destruct Ha as (Ha1 & Ha2). rewrite Ha1, Ha2.
        exists c. split; [exact Hc|].
        intros q. destruct (existsb _ _); [|discriminate].
        intros [= <-]. cbn [Pending.newColor]. now rewrite ?Hcol, Ha1, Hc.
    + destruct (gameLoop_paused rnd f w t Hloop Hgs) as (Hg & Hpend & _).
      exists c. rewrite Hg, Hpend. auto.
Qed.

Lemma colorInvariant_reachable (rnd : nat -> R) (w : World.t) :
  (forall n : nat, 0 <= rnd n < 1) ->
  reachable rnd w -> colorInvariant w.
Proof.
  intros Hrnd Hreach. induction Hreach as [cw ch stored n Hch | w w' _ IH Hs].
  - destruct (mount_world rnd cw ch stored n) as (ls1 & n1 & ->).
    cbn [Component.world]. unfold colorInvariant.
    cbn [World.game World.pendingColorChange].
    rewrite initGame_game. cbn [GameState.ball Ball.color].
    destruct (getRandomColor_palette rnd n1 (Hrnd n1)) as [c Hc].
    exists c. split; [exact Hc|discriminate].
  - eapply colorInvariant_step; eauto.
Qed.

Lemma scoredPending_spec (f : Frame.t) (w : World.t) :
  scoredPending f w
  = match appliedPending f w with
    | Some q => Some q
    | None =>
        if existsb Z.even
             (scoresAfter (GameState.score (World.game w))
                (length (crossing f w)))
        then Some (Pending.mk (Frame.timestamp f + 1000)
                     (nextColor (Ball.color (movedBall f w))))
        else None
    end.
Proof. unfold scoredPending, scored. apply scoreLoop_pending. Qed.

Lemma scheduledInvariant_call (rnd : nat -> R) (f : Frame.t) (w : World.t)
    (t : Tick.t) (s : Color) :
  scheduledInvariant w s ->
  gameLoop rnd f w = Some t ->
  scheduledInvariant (Tick.world t) (scheduledFrom f w s).
Proof.
  intros (c & Hc & Hp) Hloop. unfold scheduledFrom.
  destruct (Frame.gameStatus f) eqn:Hgs.
  - destruct (gameLoop_playing rnd f w t Hloop Hgs)
      as (Hb & _ & _ & _ & Hpend & _).
    pose proof (applied_color f w) as Ha.
    assert (Hcol : Ball.color (movedBall f w)
                   = Ball.color (fst (fst (applied f w)))) by reflexivity.
    unfold scheduledInvariant. rewrite Hb, Hpend, Hcol.
    rewrite scoredPending_spec, Hcol.
    destruct (World.pendingColorChange w) as [p|].
    + destruct (Hp p eq_refl) as (c0 & Hs & Hnew).
      destruct (Rgeb _ _).
      * destruct Ha as (Ha1 & _ & Ha3). rewrite Ha1, Ha3, Hnew.
        rewrite nextColor_successor.
        exists (spec_successor c0). split; [reflexivity|].
        intros q. destruct (existsb _ _); [|discriminate].
        intros [= <-]. exists (spec_successor c0).
        split; reflexivity.
      * destruct Ha as (Ha1 & Ha2). rewrite Ha1, Ha2.
        exists c. split; [exact Hc|].
        intros q [= <-]. exists c0. split; [exact Hs|exact Hnew].
    + destruct Ha as (Ha1 & Ha2). rewrite Ha1, Ha2, Hc.
      exists c. split; [reflexivity|].
      intros q. destruct (existsb _ _); [|discriminate].
      intros [= <-]. exists c. split; reflexivity.
  - destruct (gameLoop_paused rnd f w t Hloop Hgs) as (Hg & Hpend & _).
    exists c. rewrite Hg, Hpend. auto.
Qed.

Lemma scheduledInvariant_new (rnd : nat -> R) (cw ch : R) (stored : Z)
    (ls lastTime flash : R) (n : nat) (pending : option Pending.t)
    (s : Color) :
  (forall m : nat, 0 <= rnd m < 1) ->
  (forall p, pending = Some p ->
     exists c0 : GameColor,
       s = Some c0 /\ Pending.newColor p = nextColor (Some c0)) ->
  scheduledInvariant
    (World.mk (fst (fst (initGame rnd cw ch stored ls n))) lastTime flash
       pending (snd (fst (initGame rnd cw ch stored ls n)))
       (snd (initGame rnd cw ch stored ls n)))
    s.
Proof.
  intros Hrnd Hp. unfold scheduledInvariant.
  cbn [World.game World.pendingColorChange]. rewrite initGame_game.
  cbn [GameState.ball Ball.color].
  destruct (getRandomColor_palette rnd n (Hrnd n)) as [c Hc].
  exists c. split; [exact Hc|exact Hp].
Qed.

Lemma scheduledInvariant_history (rnd : nat -> R) (w : World.t)
    (s : Color) :
  (forall m : nat, 0 <= rnd m < 1) ->
  history rnd w s -> scheduledInvariant w s.
Proof.
  intros Hrnd Hh.
  induction Hh as [cw ch stored n | gs w s _ IH | f w t s _ IH Hloop
                  | cw ch stored w s _ IH | ww wh stored w s _ IH].
  - destruct (mount_world rnd cw ch stored n) as (ls1 & n1 & ->).
    cbn [Component.world]. apply scheduledInvariant_new; [exact Hrnd|].
    discriminate.
  - destruct IH as (c & Hc & Hp). exists c. destruct gs; cbn; auto.
  - eapply scheduledInvariant_call; eauto.
  - destruct IH as (c & Hc & Hp). unfold resetWorld.
    pose proof (scheduledInvariant_new rnd cw ch stored
                  (World.lastObstacleSpeed w) 0 (World.colorChangeFlash w)
                  (World.randomCalls w) (World.pendingColorChange w) s
                  Hrnd Hp) as Hnew.
    destruct (initGame rnd cw ch stored _ _) as [[g ls] n]. exact Hnew.
  - unfold resizeWorld.
    destruct (isPlaying (GameState.status (World.game w))); [exact IH|].
    destruct IH as (c & Hc & Hp).
    pose proof (scheduledInvariant_new rnd ww wh stored
                  (World.lastObstacleSpeed w) (World.lastTime w)
                  (World.colorChangeFlash w) (World.randomCalls w)
                  (World.pendingColorChange w) s Hrnd Hp) as Hnew.
    destruct (initGame rnd ww wh stored _ _) as [[g ls] n]. exact Hnew.
Qed.

(** The states of a session are states of the history of the refs. *)
Lemma reachable_history (rnd : nat -> R) (w : World.t) :
  reachable rnd w -> exists s : Color, history rnd w s.
Proof.
  intros Hreach. induction Hreach as [cw ch stored n Hch | w w' _ IH Hs].
  - exists None. apply history_mount.
  - destruct IH as [s Hh]. destruct Hs as [gs w | f w t _ Hloop].
    + exists s. now apply history_tap.
    + exists (scheduledFrom f w s). eapply history_call; eauto.
Qed.

Lemma runQueue_history (rnd : nat -> R) (ts : R)
    (callbacks : list Callback.t) (c c' : Mounted.t) (events : list Event) :
  runQueue rnd ts callbacks c = Some (c', events) ->
  (exists s : Color, history rnd (Mounted.world c) s) ->
  exists s : Color, history rnd (Mounted.world c') s.
Proof.
  revert c c' events.
  induction callbacks as [|cb rest IH]; intros c c' events Hrun Hh.
  - cbn in Hrun. injection Hrun as <- <-. exact Hh.
  - cbn [runQueue] in Hrun.
    destruct (runCallback rnd ts cb c) as [[c1 ev1]|] eqn:Hcb;
      [|discriminate].
    destruct (runQueue rnd ts rest c1) as [[c2 ev2]|] eqn:Hrest;
      [|discriminate].
    injection Hrun as <- <-. apply (IH c1 c2 ev2 Hrest).
    unfold runCallback in Hcb.
    destruct (gameLoop rnd _ (Mounted.world c)) as [t|] eqn:Hloop;
      [|discriminate].
    injection Hcb as <- <-. destruct Hh as [s Hh].
    exists (scheduledFrom
              (Frame.mk ts (Mounted.width c) (Mounted.height c)
                 (Callback.gameStatus cb))
              (Mounted.world c) s).
    replace (Mounted.world _) with (Tick.world t)
      by (destruct (Tick.requested t); reflexivity).
    eapply history_call; eauto.
Qed.

(** The states of the mounted component, through frames, taps, pauses
    and resumes, are states of the history of the refs. *)
Lemma runs_history (rnd : nat -> R) (c : Mounted.t) :
  runs rnd c -> exists s : Color, history rnd (Mounted.world c) s.
Proof.
  intros Hruns.
  induction Hruns as [ww wh stored n handle | ts c c' events _ IH Hframe
                     | c _ IH | gs stored c _ IH].
  - exists None. apply history_mount.
  - unfold browserFrame in Hframe.
    apply (runQueue_history rnd ts _ _ _ _ Hframe). exact IH.
  - destruct IH as [s Hh]. exists s. now apply history_tap.
  - destruct IH as [s Hh]. unfold setGameStatus.
    destruct gs, (Mounted.gameStatus c); try (exists s; exact Hh).
    exists s. unfold resetGame.
    cbn [requestAnimationFrame cancelAnimationFrame Mounted.world
         Mounted.width Mounted.height].
    pose proof (history_reset rnd (Mounted.width c) (Mounted.height c)
                  stored (Mounted.world c) s Hh) as Hreset.
    unfold resetWorld in Hreset.
    destruct (initGame rnd (Mounted.width c) (Mounted.height c) stored _ _)
      as [[g ls] n].
    exact Hreset.
Qed.

Lemma spec_successor_injective (a b : GameColor) :
  spec_successor a = spec_successor b -> a = b.
Proof. destruct a, b; cbn; congruence. Qed.

(** C6.  The refs are followed through everything that happens to them
    while the component is mounted: taps, calls of [gameLoop], the runs
    of "Reset game" on a resume, window resizes (the states of
    [history], among which are the states of [runs] and of
    [reachable]); each state comes with the colour [s] that the ball
    had when the pending change of the state, if there is one, was
    scheduled.  In every such state the colour of the ball is one of
    the four palette colours, and a pending change holds the colour one
    step after [s] in the palette order.  In a playing call whose
    timestamp has reached the target of the pending change, the change
    is applied before the physics: the ball takes that colour, one step
    forward from the colour it had when the change was scheduled, the
    flash is set to 1, its maximum, and the slot is cleared, so that
    after the call it is empty or holds a change scheduled by this call.
    In a playing call whose timestamp is before the target, and in one
    with no pending change, the colour of the ball stays what it was,
    as in a paused call and in a tap.  Within one game (the states of
    [reachable], where calls and taps follow the mount) the colour
    that the ball had when the change was scheduled is the colour it
    still has, so that the change takes the ball one step forward from
    its present colour; "Reset game" draws a new colour for the ball and
    keeps the pending change, after which the two colours need not be
    the same any more. *)
Theorem ball_color_in_palette (rnd : nat -> R) :
  (forall n : nat, 0 <= rnd n < 1) ->
  (forall c : Mounted.t,
     runs rnd c -> exists s : Color, history rnd (Mounted.world c) s)
  /\ (forall w : World.t,
        reachable rnd w -> exists s : Color, history rnd w s)
  /\ forall (w : World.t) (s : Color),
       history rnd w s ->
       exists c : GameColor,
         Ball.color (GameState.ball (World.game w)) = Some c
         /\ In c COLOR_ORDER
         /\ (forall p, World.pendingColorChange w = Some p ->
               exists c0 : GameColor,
                 s = Some c0
                 /\ In c0 COLOR_ORDER
                 /\ Pending.newColor p = Some (spec_successor c0))
         /\ (reachable rnd w ->
             forall p, World.pendingColorChange w = Some p ->
                       s = Some c
                       /\ Pending.newColor p = Some (spec_successor c))
         /\ (forall cw ch stored,
               World.pendingColorChange (resetWorld rnd cw ch stored w)
               = World.pendingColorChange w
               /\ Ball.color
                    (GameState.ball
                       (World.game (resetWorld rnd cw ch stored w)))
                  = getRandomColor rnd (World.randomCalls w))
         /\ (forall gs,
               Ball.color (GameState.ball (World.game (handleTap gs w)))
               = Some c)
         /\ forall (f : Frame.t) (t : Tick.t),
              gameLoop rnd f w = Some t ->
              let color' :=
                Ball.color (GameState.ball (World.game (Tick.world t))) in
              let pending' := World.pendingColorChange (Tick.world t) in
              (Frame.gameStatus f = gsPaused -> color' = Some c)
              /\ (Frame.gameStatus f = gsPlaying ->
                  (forall p, World.pendingColorChange w = Some p ->
                     Pending.timestamp p <= Frame.timestamp f ->
                     exists c0 : GameColor,
                       s = Some c0
                       /\ Ball.color (fst (fst (applied f w)))
                          = Some (spec_successor c0)
                       /\ appliedPending f w = None
                       /\ color' = Some (spec_successor c0)
                       /\ World.colorChangeFlash (Tick.world t) = 1
                       /\ (pending' = None
                           \/ exists q,
                                pending' = Some q
                                /\ Pending.timestamp q
                                   = Frame.timestamp f + 1000))
                  /\ (forall p, World.pendingColorChange w = Some p ->
                        Frame.timestamp f < Pending.timestamp p ->
                        color' = Some c /\ pending' = Some p)
                  /\ (World.pendingColorChange w = None ->
                      color' = Some c)).
Proof.
  intros Hrnd. split; [apply runs_history|]. split; [apply reachable_history|].
  intros w s Hh.
  destruct (scheduledInvariant_history rnd w s Hrnd Hh) as (c & Hc & Hp).
  exists c. split; [exact Hc|].
  split; [destruct c; simpl; tauto|].
  split.
  { intros p Hpend. destruct (Hp p Hpend) as (c0 & Hs & Hnew).
    exists c0. split; [exact Hs|].
    split; [destruct c0; simpl; tauto|].
    rewrite Hnew. apply nextColor_successor. }
  split.
  { intros Hreach p Hpend.
    destruct (colorInvariant_reachable rnd w Hrnd Hreach) as (c' & Hc' & Hp').
    assert (c' = c) by congruence. subst c'.
    destruct (Hp p Hpend) as (c0 & Hs & Hnew).
    specialize (Hp' p Hpend). rewrite Hp', !nextColor_successor in Hnew.
    injection Hnew as Hnew. apply spec_successor_injective in Hnew.
    subst c0. split; [exact Hs|]. rewrite Hp'. apply nextColor_successor. }
  split.
  { intros cw ch stored.
    destruct (resetWorld_refs rnd cw ch stored w) as (Hg & _ & _ & Hpend).
    split; [exact Hpend|]. rewrite Hg, initGame_game. reflexivity. }
  split; [intros []; cbn; exact Hc|].
  intros f t Hloop color' pending'. split.
  - intros Hgs. destruct (gameLoop_paused rnd f w t Hloop Hgs) as (Hg & _).
    unfold color'. now rewrite Hg.
  - intros Hgs.
    destruct (gameLoop_playing rnd f w t Hloop Hgs)
      as (Hb & _ & _ & _ & Hpend & Hflash & _).
    assert (Hcol : color' = Ball.color (fst (fst (applied f w))))
      by (unfold color'; rewrite Hb; reflexivity).
    pose proof (applied_color f w) as Ha.
    fold pending' in Hpend.
    rewrite scoredPending_spec in Hpend.
    repeat apply conj.
    + intros p Hsome Hts. rewrite Hsome in Ha.
      rewrite (proj2 (Rgeb_true _ _) Hts) in Ha.
      destruct Ha as (Ha1 & Ha2 & Ha3).
      destruct (Hp p Hsome) as (c0 & Hs & Hnew).
      rewrite Hnew, nextColor_successor in Ha1.
      exists c0. split; [exact Hs|]. split; [exact Ha1|].
      split; [exact Ha3|]. split; [congruence|].
      split; [congruence|].
      rewrite Ha3 in Hpend. destruct (existsb _ _).
      * right. eexists. split; [exact Hpend|reflexivity].
      * now left.
    + intros p Hsome Hts. rewrite Hsome in Ha.
      rewrite (proj2 (Rgeb_false _ _) Hts) in Ha.
      destruct Ha as (Ha1 & Ha2). rewrite Ha2 in Hpend.
      split; congruence.
    + intros Hnone. rewrite Hnone in Ha. destruct Ha as (Ha1 & _).
      congruence.
Qed.

(** ** The frontier *)

Lemma minimum_none (l : list R) : minimum l = None <-> l = [].
Proof.
  destruct l as [|v l]; simpl; [tauto|].
  destruct (minimum l); split; discriminate.
Qed.

Lemma minimum_some (l : list R) (m : R) :
  minimum l = Some m -> In m l /\ forall v, In v l -> m <= v.
Proof.
  revert m. induction l as [|v l IH]; intros m; simpl; [discriminate|].
  destruct (minimum l) as [m'|] eqn:E.
  - intros [= <-]. destruct (IH m' eq_refl) as [Hin Hle].
    unfold Rmin. destruct (Rle_dec v m').
    + split; [now left|]. intros v' [<- | Hv']; [lra|].
      specialize (Hle v' Hv'). lra.
    + split; [now right|]. intros v' [<- | Hv']; [lra|]. auto.
  - intros [= <-]. apply minimum_none in E. subst l.
    split; [now left|]. intros v' [<- | []]. lra.
Qed.

Lemma minimum_char (l : list R) (m : R) :
  In m l -> (forall v, In v l -> m <= v) -> minimum l = Some m.
Proof.
  intros Hin Hle. destruct (minimum l) as [m'|] eqn:E.
  - destruct (minimum_some l m' E) as [Hin' Hle'].
    specialize (Hle m' Hin'). specialize (Hle' m Hin). f_equal. lra.
  - apply minimum_none in E. subst l. destruct Hin.
Qed.

Lemma createObstacle_fst_fields (rnd : nat -> R) (cw y : R) (index : nat)
    (p : R) (n : nat) (o : Obstacle.t) (n' : nat) :
  createObstacle rnd cw y index p n = (o, n') ->
  Obstacle.type o = obstacleTypeOf index
  /\ Obstacle.y o = y
  /\ Obstacle.radius o = 140
  /\ Obstacle.passed o = false.
Proof.
  intros H. pose proof (createObstacle_fields rnd cw y index p n) as Hf.
  rewrite H in Hf. exact Hf.
Qed.

(** The initial obstacles: the [j]-th of the loop has index [i + j]. *)
Lemma initialLoop_spec (rnd : nat -> R) (count i : nat) (cw startY : R)
    (acc : list Obstacle.t) (n : nat) :
  exists news : list Obstacle.t,
    fst (initialLoop rnd count i cw startY acc n) = acc ++ news
    /\ length news = count
    /\ forall j o, nth_error news j = Some o ->
         Obstacle.type o = obstacleTypeOf (i + j)
         /\ Obstacle.y o = startY - INR (i + j) * OBSTACLE_GAP
         /\ Obstacle.radius o = 140
         /\ Obstacle.passed o = false.
Proof.
  revert i acc n. induction count as [|count IH]; intros i acc n.
  - exists []. simpl. rewrite app_nil_r.
    split; [reflexivity|split; [reflexivity|]].
    intros [|j] o; discriminate.
  - simpl.
    destruct (createObstacle rnd cw (startY - INR i * OBSTACLE_GAP) i _ n)
      as [o n1] eqn:Hcreate.
    destruct (IH (S i) (acc ++ [o]) n1) as (news & Heq & Hlen & Hnth).
    exists (o :: news). rewrite Heq, <- app_assoc. simpl.
    split; [reflexivity|split; [now rewrite Hlen|]].
    intros [|j] o' Ho'; simpl in Ho'.
    + injection Ho' as <-. rewrite Nat.add_0_r.
      eapply createObstacle_fst_fields; eauto.
    + replace (i + S j)%nat with (S i + j)%nat by lia. now apply Hnth.
Qed.

Lemma mount_obstacles (rnd : nat -> R) (cw ch : R) (stored : Z) (n : nat) :
  let g := World.game (Component.world (mount rnd cw ch stored n)) in
  GameState.status g = playing
  /\ Ball.y (GameState.ball g) = ch * 0.7
  /\ Ball.velocity (GameState.ball g) = 0
  /\ length (GameState.obstacles g) = 5%nat
  /\ forall j o, nth_error (GameState.obstacles g) j = Some o ->
       Obstacle.type o = obstacleTypeOf j
       /\ Obstacle.y o = ch * 0.3 - INR j * OBSTACLE_GAP
       /\ Obstacle.radius o = 140
       /\ Obstacle.passed o = false.
Proof.
  destruct (mount_world rnd cw ch stored n) as (ls1 & n1 & ->).
  cbn [Component.world World.game]. rewrite initGame_game.
  cbn [GameState.status GameState.ball GameState.obstacles Ball.y
       Ball.velocity].
  unfold generateInitialObstacles.
  destruct (initialLoop_spec rnd 5 0 cw (ch * 0.3) [] (S n1))
    as (news & Heq & Hlen & Hnth).
  destruct (initialLoop rnd 5 0 cw (ch * 0.3) [] (S n1)) as [obs n2].
  cbn [fst snd] in *. subst obs.
  split; [reflexivity|split; [reflexivity|split; [reflexivity|]]].
  split; [exact Hlen|].
  intros j o Hj. exact (Hnth j o Hj).
Qed.

Lemma deltaTime_nonneg (f : Frame.t) (w : World.t) :
  World.lastTime w <= Frame.timestamp f -> 0 <= deltaTime f w.
Proof.
  intros H. unfold deltaTime, deltaTimeOf. destruct (truthy _); [|lra].
  apply Rmult_le_pos; [lra|]. apply Rlt_le, Rinv_0_lt_compat. lra.
Qed.

Lemma status_stays (rnd : nat -> R) (w w' : World.t) :
  step rnd w w' ->
  GameState.status (World.game w') = playing ->
  GameState.status (World.game w) = playing.
Proof.
  intros [gs w0 | f w0 t _ Hloop].
  - destruct gs; cbn; auto.
  - destruct (Frame.gameStatus f) eqn:Hgs.
    + destruct (gameLoop_playing rnd f w0 t Hloop Hgs)
        as (_ & _ & _ & _ & _ & _ & _ & Hend).
      destruct Hend as [(_ & Hs & _) | (_ & h & _ & _ & Hend)];
        [congruence|].
      destruct Hend as [(_ & Hs & _) | (_ & Hs & _)]; congruence.
    + destruct (gameLoop_paused rnd f w0 t Hloop Hgs) as (Hg & _).
      now rewrite Hg.
Qed.

(** What a playing call that leaves the session playing does to the
    frontier: the highest obstacle after generation is at least two gaps
    above the ball and stays on screen. *)
Lemma frontier_kept (rnd : nat -> R) (f : Frame.t) (w : World.t)
    (highest : R) :
  frontierInvariant w ->
  GameState.status (World.game w) = playing ->
  World.lastTime w <= Frame.timestamp f ->
  highestObstacle f w = Some highest ->
  fallsOut f w = false ->
  JUMP_FORCE <= Ball.velocity (movedBall f w)
  /\ exists frontier : R,
       minimum (map Obstacle.y (generatedObstacles rnd f w highest))
       = Some frontier
       /\ frontier + OBSTACLE_GAP * 2 <= Ball.y (movedBall f w)
       /\ onScreen (movedCamera f w) (Frame.height f) frontier = true.
Proof.
  intros Hinv Hst Hts Hhigh Hfall.
  destruct (Hinv Hst) as (Hv & o & Hin & Ho).
  pose proof (deltaTime_nonneg f w Hts) as Hdt.
  destruct (applied_ball f w) as (_ & Hy & _ & Hvel).
  unfold JUMP_FORCE, OBSTACLE_GAP in *.
  set (dt := deltaTime f w) in *.
  assert (Hv' : Ball.velocity (movedBall f w)
                = Ball.velocity (GameState.ball (World.game w))
                  + GRAVITY * dt)
    by (unfold movedBall, applyGravity; cbn; now rewrite Hvel).
  assert (Hy' : Ball.y (movedBall f w)
                = Ball.y (GameState.ball (World.game w))
                  + Ball.velocity (movedBall f w) * dt)
    by (unfold movedBall, applyGravity; cbn; now rewrite Hy, Hvel).
  unfold GRAVITY in *.
  set (v := Ball.velocity (GameState.ball (World.game w))) in *.
  set (y := Ball.y (GameState.ball (World.game w))) in *.
  set (v' := Ball.velocity (movedBall f w)) in *.
  set (y' := Ball.y (movedBall f w)) in *.
  assert (Hclimb : y - 300 <= y') by nra.
  split; [nra|].
  unfold highestObstacle in Hhigh.
  destruct (minimum_some _ _ Hhigh) as [Hhin Hhle].
  assert (Hho : highest <= Obstacle.y o).
  { apply Hhle. rewrite scoredObstacles_evolve, map_map.
    apply in_map_iff. exists o. split; [|exact Hin].
    now destruct (evolve_same f w o) as [(_ & _ & Hyo & _) _]. }
  assert (Hscreen : forall frontier, frontier + 300 * 2 <= y' ->
            onScreen (movedCamera f w) (Frame.height f) frontier = true).
  { intros frontier Hfr. unfold onScreen. apply Rltb_true.
    unfold fallsOut, belowBoundary in Hfall. apply Rgtb_false in Hfall.
    fold y' in Hfall. lra. }
  rewrite generatedObstacles_spec. unfold nearFrontier, OBSTACLE_GAP.
  fold y'. destruct (Rltb y' (highest + 300 * 2)) eqn:Hnear.
  - exists (highest - 300).
    assert (Hfr : highest - 300 + 300 * 2 <= y') by lra.
    repeat split; auto.
    apply minimum_char.
    + rewrite map_app. apply in_or_app. right. simpl. left.
      unfold newObstacle, OBSTACLE_GAP.
      now destruct (createObstacle_fields rnd (Frame.width f)
                      (highest - 300) (length (scoredObstacles f w))
                      (World.lastObstacleSpeed w) (World.randomCalls w))
        as (_ & Hyn & _).
    + intros v0 Hv0. rewrite map_app in Hv0.
      apply in_app_or in Hv0. destruct Hv0 as [Hv0 | [<- | []]].
      * specialize (Hhle v0 Hv0). lra.
      * unfold newObstacle, OBSTACLE_GAP.
        destruct (createObstacle_fields rnd (Frame.width f)
                    (highest - 300) (length (scoredObstacles f w))
                    (World.lastObstacleSpeed w) (World.randomCalls w))
          as (_ & Hyn & _).
        rewrite Hyn. lra.
  - apply Rltb_false in Hnear. exists highest. repeat split; auto.
Qed.

Lemma frontierInvariant_step (rnd : nat -> R) (w w' : World.t) :
  frontierInvariant w -> step rnd w w' -> frontierInvariant w'.
Proof.
  intros Hinv Hstep Hst'.
  pose proof (status_stays rnd w w' Hstep Hst') as Hst.
  destruct Hstep as [gs w | f w t Hts Hloop].
  - destruct (Hinv Hst) as (Hv & o & Hin & Ho).
    destruct gs; cbn.
    + split; [lra|]. exists o. auto.
    + split; [exact Hv|]. exists o. auto.
  - destruct (Frame.gameStatus f) eqn:Hgs.
    + destruct (gameLoop_playing rnd f w t Hloop Hgs)
        as (Hb & _ & _ & _ & _ & _ & _ & Hend).
      destruct Hend as [(_ & Hs & _) | (_ & h & Hh & Hobs & Hend)];
        [congruence|].
      destruct Hend as [(_ & Hs & _) | (Hfall & _)]; [congruence|].
      destruct (frontier_kept rnd f w h Hinv Hst Hts Hh Hfall)
        as (Hv & frontier & Hmin & Hfr & Hscreen).
      rewrite Hb, Hobs. split; [exact Hv|].
      destruct (minimum_some _ _ Hmin) as [Hin _].
      apply in_map_iff in Hin. destruct Hin as (o & Hyo & Hin).
      exists o. split.
      * apply filter_In. split; [exact Hin|]. now rewrite Hyo.
      * now rewrite Hyo.
    + destruct (gameLoop_paused rnd f w t Hloop Hgs) as (Hg & _).
      rewrite Hg. now apply Hinv.
Qed.

Lemma frontierInvariant_reachable (rnd : nat -> R) (w : World.t) :
  reachable rnd w -> frontierInvariant w.
Proof.
  intros Hreach. induction Hreach as [cw ch stored n Hch | w w' _ IH Hs].
  - destruct (mount_obstacles rnd cw ch stored n)
      as (_ & Hy & Hv & Hlen & Hnth).
    intros _. rewrite Hv, Hy. unfold JUMP_FORCE, OBSTACLE_GAP in *.
    split; [lra|].
    destruct (nth_error (GameState.obstacles
                (World.game (Component.world (mount rnd cw ch stored n))))
                4) as [o|] eqn:Ho.
    + exists o. split; [eapply nth_error_In; eauto|].
      destruct (Hnth 4%nat o Ho) as (_ & Hyo & _).
      rewrite Hyo. simpl. lra.
    + apply nth_error_None in Ho. lia.
  - eapply frontierInvariant_step; eauto.
Qed.

(** A call on a state with an obstacle has a result. *)
Lemma gameLoop_defined (rnd : nat -> R) (f : Frame.t) (w : World.t) :
  GameState.obstacles (World.game w) <> [] ->
  exists t : Tick.t, gameLoop rnd f w = Some t.
Proof.
  intros Hne. unfold gameLoop.
  destruct (Frame.gameStatus f); [|eexists; reflexivity].
  unfold playingBlock.
  destruct (applyPendingColorChange _ _ _ _) as [[ball0 flash] pending0].
  destruct (scoreLoop _ _ _ _ _) as [[[obstacles score] pending] events]
    eqn:Hscore.
  destruct (collisionLoop _ _ _); [eexists; reflexivity|].
  assert (Hobs : obstacles <> []).
  { pose proof (scoreLoop_obstacles (Frame.timestamp f)
      (applyGravity
         (deltaTimeOf (World.lastTime w) (Frame.timestamp f)) ball0)
      (map (rotateObstacle
              (deltaTimeOf (World.lastTime w) (Frame.timestamp f)))
         (GameState.obstacles (World.game w)))
      (GameState.score (World.game w)) pending0) as Hmap.
    cbn [World.game World.lastTime] in Hscore.
    rewrite Hscore in Hmap. cbn [fst] in Hmap. rewrite Hmap.
    destruct (GameState.obstacles (World.game w)); [contradiction|].
    discriminate. }
  destruct (minimum (map Obstacle.y obstacles)) as [h|] eqn:Hmin.
  - destruct (generate _ _ _ _ _ _ _ _ _ _)
      as [[[[obstacles1 switchers1] stars1] lastSpeed] n].
    destruct (belowBoundary _ _ _); eexists; reflexivity.
  - apply minimum_none in Hmin. destruct obstacles; [contradiction|].
    discriminate.
Qed.

(** C10.  A session starts with 5 obstacles.  In every reachable state of
    a session that is playing, the obstacles are not empty, so that a
    call of [gameLoop] has a result: its [Math.min] is taken over at
    least one obstacle and is the position of one of them.  The generator
    appends one obstacle, a gap above the frontier, exactly when the ball
    is less than two gaps below the frontier.  When the call leaves the
    session playing, the frontier after generation passes the pruning
    test [y < camera + height + 200], and is the frontier of the state
    after the call. *)
Theorem obstacles_never_empty (rnd : nat -> R) (w : World.t) :
  reachable rnd w ->
  GameState.status (World.game w) = playing ->
  GameState.obstacles (World.game w) <> []
  /\ (forall cw ch stored n,
        length (GameState.obstacles
                  (World.game (Component.world (mount rnd cw ch stored n))))
        = 5%nat)
  /\ forall f : Frame.t,
       World.lastTime w <= Frame.timestamp f ->
       exists t : Tick.t,
         gameLoop rnd f w = Some t
         /\ (Frame.gameStatus f = gsPlaying ->
             exists highest : R,
               highestObstacle f w = Some highest
               /\ In highest (map Obstacle.y (scoredObstacles f w))
               /\ generatedObstacles rnd f w highest
                  = (if Rltb (Ball.y (movedBall f w))
                          (highest + 2 * OBSTACLE_GAP)
                     then scoredObstacles f w ++ [newObstacle rnd f w highest]
                     else scoredObstacles f w)
               /\ Obstacle.y (newObstacle rnd f w highest)
                  = highest - OBSTACLE_GAP
               /\ (GameState.status (World.game (Tick.world t)) = playing ->
                   exists frontier : R,
                     minimum (map Obstacle.y
                                (generatedObstacles rnd f w highest))
                     = Some frontier
                     /\ Rltb frontier
                          (movedCamera f w + Frame.height f + 200) = true
                     /\ minimum (map Obstacle.y
                                   (GameState.obstacles
                                      (World.game (Tick.world t))))
                        = Some frontier)).
Proof.
  intros Hreach Hst.
  pose proof (frontierInvariant_reachable rnd w Hreach) as Hinv.
  assert (Hne : GameState.obstacles (World.game w) <> []).
  { destruct (Hinv Hst) as (_ & o & Hin & _).
    intros Hnil. rewrite Hnil in Hin. destruct Hin. }
  split; [exact Hne|].
  split; [intros cw ch stored n; apply mount_obstacles|].
  intros f Hts.
  destruct (gameLoop_defined rnd f w Hne) as [t Hloop].
  exists t. split; [exact Hloop|]. intros Hgs.
  assert (Hhigh : exists highest, highestObstacle f w = Some highest).
  { unfold highestObstacle.
    destruct (minimum (map Obstacle.y (scoredObstacles f w))) eqn:Hmin;
      [eauto|].
    apply minimum_none in Hmin. rewrite scoredObstacles_evolve in Hmin.
    destruct (GameState.obstacles (World.game w)); [contradiction|].
    discriminate. }
  destruct Hhigh as [highest Hhigh]. exists highest.
  split; [exact Hhigh|].
  split; [apply (minimum_some _ _ Hhigh)|].
  split.
  { rewrite generatedObstacles_spec. unfold nearFrontier.
    now rewrite (Rmult_comm 2). }
  split.
  { unfold newObstacle. apply createObstacle_fields. }
  intros Hst'.
  destruct (gameLoop_playing rnd f w t Hloop Hgs)
    as (_ & _ & _ & _ & _ & _ & _ & Hend).
  destruct Hend as [(_ & Hs & _) | (_ & h & Hh & Hobs & Hend)];
    [congruence|].
  destruct Hend as [(_ & Hs & _) | (Hfall & _)]; [congruence|].
  assert (h = highest) by congruence. subst h.
  destruct (frontier_kept rnd f w highest Hinv Hst Hts Hhigh Hfall)
    as (_ & frontier & Hmin & _ & Hscreen).
  exists frontier. split; [exact Hmin|]. split; [exact Hscreen|].
  rewrite Hobs. destruct (minimum_some _ _ Hmin) as [Hin Hle].
  apply minimum_char.
  - apply in_map_iff in Hin. destruct Hin as (o & Hyo & Hin).
    apply in_map_iff. exists o. split; [exact Hyo|].
    apply filter_In. split; [exact Hin|]. now rewrite Hyo.
  - intros v Hv. apply Hle. apply in_map_iff in Hv.
    destruct Hv as (o & Hyo & Hfil). apply filter_In in Hfil.
    apply in_map_iff. exists o. tauto.
Qed.

(** ** The [passed] flag *)

(** The obstacles after a call, in terms of the obstacles before. *)
Lemma step_obstacles (rnd : nat -> R) (w w' : World.t) :
  step rnd w w' ->
  let obs := GameState.obstacles (World.game w) in
  let obs' := GameState.obstacles (World.game w') in
  obs' = obs
  \/ exists f : Frame.t,
       obs' = map (evolve f w) obs
       \/ exists (h bound : R) (new : Obstacle.t),
            In h (map Obstacle.y obs)
            /\ (forall v, In v (map Obstacle.y obs) -> h <= v)
            /\ Obstacle.y new = h - OBSTACLE_GAP
            /\ (obs' = filter (fun o => Rltb (Obstacle.y o) bound)
                         (map (evolve f w) obs)
                \/ obs' = filter (fun o => Rltb (Obstacle.y o) bound)
                            (map (evolve f w) obs ++ [new])).
Proof.
  intros [gs w0 | f w0 t _ Hloop]; cbv zeta.
  - left. destruct gs; reflexivity.
  - destruct (Frame.gameStatus f) eqn:Hgs.
    + destruct (gameLoop_playing rnd f w0 t Hloop Hgs)
        as (_ & _ & _ & _ & _ & _ & _ & Hend).
      right. exists f.
      destruct Hend as [(_ & _ & _ & _ & Ho) | (_ & h & Hh & Ho & _)].
      * left. rewrite Ho. apply scoredObstacles_evolve.
      * right. exists h, (movedCamera f w0 + Frame.height f + 200),
          (newObstacle rnd f w0 h).
        unfold highestObstacle in Hh.
        destruct (minimum_some _ _ Hh) as [Hin Hle].
        rewrite scoredObstacles_evolve, map_map in Hin, Hle.
        assert (Hys : map (fun o => Obstacle.y (evolve f w0 o))
                        (GameState.obstacles (World.game w0))
                      = map Obstacle.y
                          (GameState.obstacles (World.game w0))).
        { apply map_ext. intros o.
          now destruct (evolve_same f w0 o) as [(_ & _ & Hy & _) _]. }
        rewrite Hys in Hin, Hle.
        split; [exact Hin|]. split; [exact Hle|].
        split; [apply createObstacle_fields|].
        rewrite Ho, generatedObstacles_spec, scoredObstacles_evolve.
        unfold onScreen. destruct (nearFrontier f w0 h); auto.
    + left. destruct (gameLoop_paused rnd f w0 t Hloop Hgs) as (Hg & _).
      now rewrite Hg.
Qed.

Lemma passedSince_refl (w : World.t) : passedSince w w.
Proof.
  split.
  - intros o' Hin _ Hall. exact (Hall o' Hin eq_refl).
  - intros Hne.
    destruct (minimum (map Obstacle.y (GameState.obstacles (World.game w))))
      as [m|] eqn:Hmin.
    + destruct (minimum_some _ _ Hmin) as [Hin Hle].
      apply in_map_iff in Hin. destruct Hin as (o' & Hy & Hin).
      exists o'. split; [exact Hin|]. intros o Ho. rewrite Hy.
      apply Hle. now apply in_map.
    + apply minimum_none in Hmin. apply map_eq_nil in Hmin. contradiction.
Qed.

Lemma passedSince_step (rnd : nat -> R) (w w' w'' : World.t) :
  passedSince w w' -> step rnd w' w'' -> passedSince w w''.
Proof.
  intros [Hpass Hlow] Hstep.
  pose proof (step_obstacles rnd w' w'' Hstep) as Hobs. cbv zeta in Hobs.
  unfold passedSince. cbv zeta.
  set (obs := GameState.obstacles (World.game w)) in *.
  set (obs' := GameState.obstacles (World.game w')) in *.
  set (obs'' := GameState.obstacles (World.game w'')) in *.
  assert (Hevolved : forall f o',
            In o' (map (evolve f w') obs') ->
            (exists o, In o obs /\ Obstacle.y o = Obstacle.y o') ->
            (forall o, In o obs -> Obstacle.y o = Obstacle.y o' ->
                       Obstacle.passed o = true) ->
            Obstacle.passed o' = true).
  { intros f o' Hin Hex Hall. apply in_map_iff in Hin.
    destruct Hin as (o1 & <- & Hin).
    destruct (evolve_same f w' o1) as [(_ & _ & Hy & _) Hp].
    rewrite Hy in Hex, Hall. rewrite Hp, (Hpass o1 Hin Hex Hall).
    reflexivity. }
  assert (Hlowest : forall f o',
            In o' (map (evolve f w') obs') ->
            exists o1, In o1 obs' /\ Obstacle.y o' = Obstacle.y o1).
  { intros f o' Hin. apply in_map_iff in Hin.
    destruct Hin as (o1 & <- & Hin). exists o1. split; [exact Hin|].
    now destruct (evolve_same f w' o1) as [(_ & _ & Hy & _) _]. }
  destruct Hobs as [Hsame | (f & [Hmap | (h & bound & new & Hin & Hle & Hyn
                                          & Hfil)])].
  - rewrite Hsame. split; assumption.
  - rewrite Hmap. split; [apply Hevolved|].
    intros Hne.
    assert (Hne' : obs' <> [])
      by (intros Hnil; rewrite Hnil in Hne; now apply Hne).
    destruct (Hlow Hne') as (o1 & Hin1 & Hle1).
    exists (evolve f w' o1). split; [now apply in_map|].
    intros o Ho. destruct (evolve_same f w' o1) as [(_ & _ & Hy & _) _].
    rewrite Hy. now apply Hle1.
  - assert (Hne' : obs' <> [])
      by (intros Hnil; rewrite Hnil in Hin; destruct Hin).
    destruct (Hlow Hne') as (o1 & Hin1 & Hle1).
    assert (Hh : forall o, In o obs -> h <= Obstacle.y o).
    { intros o Ho. specialize (Hle1 o Ho).
      specialize (Hle (Obstacle.y o1) (in_map _ _ _ Hin1)). lra. }
    unfold OBSTACLE_GAP in Hyn.
    split.
    + intros o' Hin' Hex Hall.
      assert (Hcase : In o' (map (evolve f w') obs') \/ o' = new).
      { destruct Hfil as [Hfil | Hfil]; rewrite Hfil in Hin';
          apply filter_In in Hin'; destruct Hin' as [Hin' _]; auto.
        apply in_app_or in Hin'. destruct Hin' as [Hin' | [<- | []]]; auto. }
      destruct Hcase as [Hold | ->]; [now apply (Hevolved f)|].
      destruct Hex as (o & Ho & Hy). specialize (Hh o Ho). lra.
    + intros Hne.
      destruct obs'' as [|o2 rest] eqn:Hobs''; [contradiction|].
      assert (Hin2 : In o2 (o2 :: rest)) by now left.
      (* the lowest of the kept obstacles is kept *)
      assert (Hkept : forall o', Obstacle.y o' <= Obstacle.y o2 ->
                In o' (map (evolve f w') obs' ++ [new]) ->
                (In new (o2 :: rest) \/ ~ In new (o2 :: rest)) ->
                Rltb (Obstacle.y o') bound = true).
      { intros o' Hy' _ _.
        assert (Hb : Rltb (Obstacle.y o2) bound = true).
        { destruct Hfil as [Hfil | Hfil]; rewrite Hfil in Hin2;
            apply filter_In in Hin2; tauto. }
        apply Rltb_true in Hb. apply Rltb_true. lra. }
      destruct Hfil as [Hfil | Hfil].
      * (* no new obstacle: the obstacle at [h] is kept *)
        apply in_map_iff in Hin. destruct Hin as (oh & Hyh & Hinh).
        exists (evolve f w' oh).
        destruct (evolve_same f w' oh) as [(_ & _ & Hy & _) _].
        split.
        -- rewrite Hfil. apply filter_In. split; [now apply in_map|].
           apply Hkept; [|apply in_or_app; left; now apply in_map|tauto].
           rewrite Hfil in Hin2. apply filter_In in Hin2.
           destruct Hin2 as [Hin2 _].
           destruct (Hlowest f o2 Hin2) as (o3 & Hin3 & Hy3).
           rewrite Hy, Hyh, Hy3. apply Hle. now apply in_map.
        -- intros o Ho. rewrite Hy, Hyh. now apply Hh.
      * exists new. split.
        -- rewrite Hfil. apply filter_In.
           split; [apply in_or_app; right; now left|].
           apply Hkept; [|apply in_or_app; right; now left|tauto].
           rewrite Hfil in Hin2. apply filter_In in Hin2.
           destruct Hin2 as [Hin2 _]. apply in_app_or in Hin2.
           destruct Hin2 as [Hin2 | [<- | []]]; [|lra].
           destruct (Hlowest f o2 Hin2) as (o3 & Hin3 & Hy3).
           rewrite Hy3.
           specialize (Hle (Obstacle.y o3) (in_map _ _ _ Hin3)). lra.
        -- intros o Ho. specialize (Hh o Ho). lra.
Qed.

Lemma passedSince_steps (rnd : nat -> R) (w w' : World.t) :
  steps rnd w w' -> passedSince w w'.
Proof.
  intros Hsteps. induction Hsteps as [w | w w' w'' _ IH Hstep].
  - apply passedSince_refl.
  - eapply passedSince_step; eauto.
Qed.

(** C3.  Through every call, the obstacles of the game state are the
    obstacles of before, each rotated and possibly flagged, in the same
    order, less those filtered out as off screen, with at most one new,
    unpassed obstacle at the end.  The flag of an obstacle is never
    cleared: it is set after the call exactly when it was set before or
    the scoring loop of this call set it.  An obstacle that is passed when
    a call starts is not among those that the call scores, and is not the
    one a collision is reported against: a collision of the call is
    against an obstacle that was not passed before the call and that the
    call did not flag.  A paused call and a tap leave the obstacles as
    they are.  So through any number of later calls an obstacle that is
    passed stays passed: in every later state, an obstacle at the height
    of a passed obstacle of now is passed, new obstacles being created
    above all the others. *)
Theorem passed_is_permanent (rnd : nat -> R) (f : Frame.t) (w : World.t)
    (t : Tick.t) :
  gameLoop rnd f w = Some t ->
  let g := World.game w in
  let g' := World.game (Tick.world t) in
  let old := map (evolve f w) (GameState.obstacles g) in
  (Frame.gameStatus f = gsPlaying ->
   (GameState.obstacles g' = old
    \/ exists (keep : Obstacle.t -> bool) (news : list Obstacle.t),
         GameState.obstacles g' = filter keep (old ++ news)
         /\ (forall o o', sameObstacle o o' -> keep o' = keep o)
         /\ (news = []
             \/ exists o, news = [o] /\ Obstacle.passed o = false))
   /\ (forall o,
         sameObstacle o (evolve f w o)
         /\ (Obstacle.passed o = true ->
             Obstacle.passed (evolve f w o) = true)
         /\ (Obstacle.passed o = true ->
             crosses (movedBall f w) (rotateObstacle (deltaTime f w) o)
             = false))
   /\ GameState.score g'
      = (GameState.score g + Z.of_nat (length (crossing f w)))%Z
   /\ Forall (fun o => Obstacle.passed o = false) (crossing f w)
   /\ (collides f w = true ->
       exists o, In o (GameState.obstacles g)
                 /\ Obstacle.passed o = false
                 /\ Obstacle.passed (evolve f w o) = false
                 /\ checkCollision (movedBall f w) (evolve f w o)
                      (Frame.width f / 2) = true)
   /\ (collides f w = false -> fallsOut f w = false ->
       GameState.status g' = GameState.status g))
  /\ (Frame.gameStatus f = gsPaused ->
      GameState.obstacles g' = GameState.obstacles g)
  /\ (forall gs,
        GameState.obstacles (World.game (handleTap gs w))
        = GameState.obstacles g)
  /\ (forall w' : World.t,
        steps rnd w w' ->
        forall o', In o' (GameState.obstacles (World.game w')) ->
          (exists o, In o (GameState.obstacles g)
                     /\ Obstacle.y o = Obstacle.y o') ->
          (forall o, In o (GameState.obstacles g) ->
                     Obstacle.y o = Obstacle.y o' ->
                     Obstacle.passed o = true) ->
          Obstacle.passed o' = true).
Proof.
  intros Hloop g g' old.
  split; [intros Hgs; repeat apply conj|split; [|split]].
  - destruct (gameLoop_playing rnd f w t Hloop Hgs)
      as (_ & _ & _ & _ & _ & _ & _ & Hend).
    destruct Hend as [(_ & _ & _ & _ & Ho) | (_ & h & _ & Ho & _)].
    + left. fold g' in Ho. rewrite Ho. apply scoredObstacles_evolve.
    + right. fold g' in Ho. rewrite generatedObstacles_spec in Ho.
      exists (fun o => onScreen (movedCamera f w) (Frame.height f)
                         (Obstacle.y o)).
      destruct (nearFrontier f w h).
      * exists [newObstacle rnd f w h].
        rewrite scoredObstacles_evolve in Ho. repeat split.
        -- exact Ho.
        -- intros o o' (_ & _ & Hy & _). now rewrite Hy.
        -- right. eexists. split; [reflexivity|].
           apply createObstacle_fields.
      * exists []. rewrite app_nil_r.
        rewrite scoredObstacles_evolve in Ho. repeat split.
        -- exact Ho.
        -- intros o o' (_ & _ & Hy & _). now rewrite Hy.
        -- now left.
  - intros o. destruct (evolve_same f w o) as [Hsame Hp].
    repeat split; try apply Hsame.
    + intros Ht. rewrite Hp, Ht. reflexivity.
    + intros Ht. unfold crosses. cbn. rewrite Ht. reflexivity.
  - destruct (gameLoop_playing rnd f w t Hloop Hgs) as (_ & _ & Hs & _).
    fold g' in Hs. rewrite Hs. apply scoredScore_count.
  - unfold crossing. apply Forall_forall. intros o Hin.
    apply filter_In in Hin. destruct Hin as [_ Hc].
    now apply crosses_unpassed in Hc.
  - intros Hc. unfold collides in Hc. apply collisionLoop_true in Hc.
    destruct Hc as (o' & Hin & Hp & Hcheck).
    rewrite scoredObstacles_evolve in Hin. apply in_map_iff in Hin.
    destruct Hin as (o & <- & Hin).
    exists o. repeat split; auto.
    destruct (evolve_same f w o) as [_ Hp'].
    rewrite Hp' in Hp. now apply orb_false_iff in Hp.
  - intros Hc Hf.
    destruct (gameLoop_playing rnd f w t Hloop Hgs)
      as (_ & _ & _ & _ & _ & _ & _ & Hend).
    destruct Hend as [(Hc' & _) | (_ & h & _ & _ & Hend)];
      [congruence|].
    destruct Hend as [(Hf' & _) | (_ & Hst & _)]; [congruence|exact Hst].
  - intros Hgs. destruct (gameLoop_paused rnd f w t Hloop Hgs) as (Hg & _).
    unfold g', g. now rewrite Hg.
  - intros []; reflexivity.
  - intros w' Hsteps. apply (passedSince_steps rnd w w' Hsteps).
Qed.

(** ** Collisions on the axis of the lane *)

Lemma normalizeAngle_id (a : R) : 0 <= a < 2 * PI -> normalizeAngle a = a.
Proof.
  intros Ha. apply (spec_normalized_unique a).
  - apply normalizeAngle_spec.
  - split; [exact Ha|]. exists 0%Z. ring.
Qed.

Lemma atan2_below (dy : R) : 0 < dy -> atan2 dy 0 = PI / 2.
Proof.
  intros Hdy. unfold atan2.
  destruct (Rlt_dec 0 0); [lra|].
  destruct (Rlt_dec 0 dy); [reflexivity|lra].
Qed.

(** The ball on the axis, below the centre of the obstacle and inside
    its band, with an angle that needs no normalisation. *)
Lemma checkCollision_below (b : Ball.t) (o : Obstacle.t) (cx : R) :
  let dy := Ball.y b - Obstacle.y o in
  let thickness := thicknessOf (Obstacle.type o) in
  Ball.x b = cx ->
  0 < dy ->
  Obstacle.radius o - thickness - Ball.radius b < dy ->
  dy < Obstacle.radius o + thickness + Ball.radius b ->
  0 <= PI / 2 - Obstacle.rotation o < 2 * PI ->
  checkCollision b o cx
  = colorNeq (Ball.color b)
      (segmentColorAt (Obstacle.type o) (PI / 2 - Obstacle.rotation o)).
Proof.
  intros dy thickness Hx Hdy Hin Hout Hangle.
  unfold checkCollision. fold dy. fold thickness.
  replace (Ball.x b - cx) with 0 by lra.
  replace (0 * 0 + dy * dy) with (dy * dy) by ring.
  rewrite sqrt_square by lra.
  rewrite (proj2 (Rleb_false _ _) Hin), (proj2 (Rgeb_false _ _) Hout).
  cbn [orb]. rewrite atan2_below by exact Hdy.
  rewrite normalizeAngle_id by exact Hangle.
  destruct (colorNeq _ _); reflexivity.
Qed.

(** Far enough above or below an obstacle, no collision. *)
Lemma checkCollision_far (b : Ball.t) (o : Obstacle.t) (cx : R) :
  Obstacle.radius o + thicknessOf (Obstacle.type o) + Ball.radius b
  <= Rabs (Ball.y b - Obstacle.y o) ->
  checkCollision b o cx = false.
Proof.
  intros Hfar. unfold checkCollision.
  set (dx := Ball.x b - cx). set (dy := Ball.y b - Obstacle.y o) in *.
  assert (Hd : Rabs dy <= sqrt (dx * dx + dy * dy)).
  { rewrite <- sqrt_Rsqr_abs. apply sqrt_le_1.
    - apply Rle_0_sqr.
    - unfold Rsqr. nra.
    - unfold Rsqr. nra. }
  rewrite (proj2 (Rgeb_true _ _)) by lra.
  now rewrite orb_true_r.
Qed.

Lemma createObstacle_motion (rnd : nat -> R) (cw y : R) (index : nat)
    (p : R) (n : nat) :
  let o := fst (createObstacle rnd cw y index p n) in
  (exists m, Obstacle.rotation o = rnd m * PI * 2)
  /\ (exists m, Obstacle.rotationSpeed o
                = sampleSpeed rnd (obstacleTypeOf index) index m).
Proof.
  unfold createObstacle.
  pose proof (speedLoop_spec rnd (obstacleTypeOf index) index p 0 n) as Hs.
  destruct (speedLoop rnd (obstacleTypeOf index) index p 0 n)
    as [[s a] n'].
  destruct Hs as (_ & _ & _ & Hs & _). cbn. eauto.
Qed.

Lemma initialLoop_motion (rnd : nat -> R) (count i : nat) (cw startY : R)
    (acc : list Obstacle.t) (n : nat) :
  exists news : list Obstacle.t,
    fst (initialLoop rnd count i cw startY acc n) = acc ++ news
    /\ forall j o, nth_error news j = Some o ->
         (exists m, Obstacle.rotation o = rnd m * PI * 2)
         /\ (exists m, Obstacle.rotationSpeed o
                       = sampleSpeed rnd (obstacleTypeOf (i + j)) (i + j) m).
Proof.
  revert i acc n. induction count as [|count IH]; intros i acc n.
  - exists []. simpl. rewrite app_nil_r. split; [reflexivity|].
    intros [|j] o; discriminate.
  - simpl.
    pose proof (createObstacle_motion rnd cw
                  (startY - INR i * OBSTACLE_GAP) i
                  (if (0 <? i)%nat
                   then match nth_error acc (i - 1) with
                        | Some o => Obstacle.rotationSpeed o
                        | None => 0
                        end
                   else 0) n) as Hm.
    destruct (createObstacle rnd cw (startY - INR i * OBSTACLE_GAP) i _ n)
      as [o n1].
    destruct (IH (S i) (acc ++ [o]) n1) as (news & Heq & Hnth).
    exists (o :: news). rewrite Heq, <- app_assoc. simpl.
    split; [reflexivity|].
    intros [|j] o' Ho'; simpl in Ho'.
    + injection Ho' as <-. rewrite Nat.add_0_r. exact Hm.
    + replace (i + S j)%nat with (S i + j)%nat by lia. now apply Hnth.
Qed.

Lemma mount_motion (rnd : nat -> R) (cw ch : R) (stored : Z) (n : nat) :
  let w := Component.world (mount rnd cw ch stored n) in
  let g := World.game w in
  GameState.score g = 0%Z
  /\ GameState.cameraY g = 0
  /\ Ball.x (GameState.ball g) = cw / 2
  /\ Ball.radius (GameState.ball g) = BALL_RADIUS
  /\ (exists m, Ball.color (GameState.ball g) = getRandomColor rnd m)
  /\ World.lastTime w = 0
  /\ World.pendingColorChange w = None
  /\ Component.callbacks (mount rnd cw ch stored n) = 2%nat
  /\ forall j o, nth_error (GameState.obstacles g) j = Some o ->
       (exists m, Obstacle.rotation o = rnd m * PI * 2)
       /\ (exists m, Obstacle.rotationSpeed o
                     = sampleSpeed rnd (obstacleTypeOf j) j m).
Proof.
  destruct (mount_world rnd cw ch stored n) as (ls1 & n1 & ->).
  cbn [Component.world Component.callbacks World.game World.lastTime
       World.pendingColorChange].
  rewrite initGame_game.
  cbn [GameState.score GameState.cameraY GameState.ball
       GameState.obstacles Ball.x Ball.radius Ball.color].
  unfold generateInitialObstacles.
  destruct (initialLoop_motion rnd 5 0 cw (ch * 0.3) [] (S n1))
    as (news & Heq & Hnth).
  destruct (initialLoop rnd 5 0 cw (ch * 0.3) [] (S n1)) as [obs n2].
  cbn [fst snd] in *. subst obs.
  repeat (split; [reflexivity|]).
  split; [eexists; reflexivity|].
  repeat (split; [reflexivity|]).
  intros j o Hj. exact (Hnth j o Hj).
Qed.

(** ** The end of a session *)

(** A call takes a playing session to game over in two ways only: the
    collision loop finds an unpassed obstacle that collides, or, no
    obstacle colliding, the ball is below
    [camera + height + 50] at the boundary check.  Either way the call
    sends the score notifications of its scoring loop and then
    [onGameOver] once, with the score of the state, and requests no
    animation frame. *)
Lemma game_over_paths (rnd : nat -> R) (f : Frame.t) (w : World.t)
    (t : Tick.t) :
  gameLoop rnd f w = Some t ->
  GameState.status (World.game w) = playing ->
  GameState.status (World.game (Tick.world t)) = gameover ->
  Frame.gameStatus f = gsPlaying
  /\ ((collides f w = true
       /\ exists o, In o (scoredObstacles f w)
                    /\ Obstacle.passed o = false
                    /\ checkCollision (movedBall f w) o (Frame.width f / 2)
                       = true)
      \/ (collides f w = false
          /\ Ball.y (movedBall f w)
             > movedCamera f w + Frame.height f + 50))
  /\ Tick.events t
     = scoreEvents f w
       ++ [GameOver (GameState.score (World.game (Tick.world t)))]
  /\ Tick.requested t = false.
Proof.
  intros Hloop Hst Hst'.
  destruct (Frame.gameStatus f) eqn:Hgs.
  - destruct (gameLoop_playing rnd f w t Hloop Hgs) as
      (_ & _ & Hs & _ & _ & _ & _ & Hend).
    split; [reflexivity|]. rewrite Hs.
    destruct Hend as [(Hc & _ & He & Hr & _) | (Hc & h & _ & _ & Hend)].
    + split; [left; split; [exact Hc|]|auto].
      now apply collisionLoop_true.
    + destruct Hend as [(Hf & _ & He & Hr) | (_ & Hsame & _)];
        [|congruence].
      split; [right; split; [exact Hc|]|auto].
      unfold fallsOut, belowBoundary in Hf. apply Rgtb_true in Hf. lra.
  - destruct (gameLoop_paused rnd f w t Hloop Hgs) as (Hg & _).
    rewrite Hg in Hst'. congruence.
Qed.

(** A call on a session that is over requests no animation frame. *)
Lemma game_over_stops (rnd : nat -> R) (f : Frame.t) (w : World.t)
    (t : Tick.t) :
  gameLoop rnd f w = Some t ->
  GameState.status (World.game w) = gameover ->
  Tick.requested t = false
  /\ GameState.status (World.game (Tick.world t)) = gameover.
Proof.
  intros Hloop Hst. destruct (Frame.gameStatus f) eqn:Hgs.
  - destruct (gameLoop_playing rnd f w t Hloop Hgs) as
      (_ & _ & _ & _ & _ & _ & _ & Hend).
    destruct Hend as [(_ & Hs & _ & Hr & _) | (_ & h & _ & _ & Hend)];
      [auto|].
    destruct Hend as [(_ & Hs & _ & Hr) | (_ & Hs & _ & Hr)]; [auto|].
    rewrite Hr, Hs, Hst. auto.
  - destruct (gameLoop_paused rnd f w t Hloop Hgs) as (Hg & _ & _ & Hr).
    rewrite Hr, Hg, Hst. auto.
Qed.

Lemma rotate_zero (o : Obstacle.t) : rotateObstacle 0 o = o.
Proof.
  destruct o as [i ty y rot sp r p]. unfold rotateObstacle. cbn.
  f_equal. lra.
Qed.

Lemma gravity_zero (b : Ball.t) : applyGravity 0 b = b.
Proof.
  destruct b as [x y r v c]. unfold applyGravity, GRAVITY. cbn.
  f_equal; lra.
Qed.

Lemma crosses_evolve (f : Frame.t) (w : World.t) (o : Obstacle.t) :
  crosses (movedBall f w) (evolve f w o) = false.
Proof.
  unfold evolve.
  destruct (crosses (movedBall f w) (rotateObstacle (deltaTime f w) o))
    eqn:Hc; [reflexivity|exact Hc].
Qed.

(** A second call in the frame of a collision.  When a playing call, in
    a frame whose timestamp is not 0, ends at the [return] of the
    collision loop, a call that follows it with the same timestamp has
    [deltaTime = 0]: it applies no pending change, leaves the ball and
    the rotations where they are, moves the camera a step closer to its
    target, finds the same collision and calls [onGameOver] again. *)
Lemma second_call_repeats (rnd : nat -> R) (f : Frame.t) (w : World.t)
    (t1 : Tick.t) :
  gameLoop rnd f w = Some t1 ->
  Frame.gameStatus f = gsPlaying ->
  Frame.timestamp f <> 0 ->
  collides f w = true ->
  exists t2 : Tick.t,
    gameLoop rnd f (Tick.world t1) = Some t2
    /\ Tick.events t1
       = scoreEvents f w
         ++ [GameOver (GameState.score (World.game (Tick.world t1)))]
    /\ Tick.events t2
       = [GameOver (GameState.score (World.game (Tick.world t1)))]
    /\ Tick.requested t1 = false
    /\ Tick.requested t2 = false
    /\ GameState.ball (World.game (Tick.world t2))
       = GameState.ball (World.game (Tick.world t1))
    /\ GameState.cameraY (World.game (Tick.world t2))
       = followBall (Frame.height f)
           (GameState.ball (World.game (Tick.world t1)))
           (GameState.cameraY (World.game (Tick.world t1))).
Proof.
  intros Hloop Hgs Hts Hcollides.
  destruct (gameLoop_playing rnd f w t1 Hloop Hgs)
    as (Hb & Hc & Hs & _ & Hpe & _ & Hlt & Hend).
  destruct Hend as [(_ & Hst & Hev & Hreq & Hobs) | (Hc' & _)];
    [|congruence].
  set (w1 := Tick.world t1) in *.
  assert (Hdt : deltaTime f w1 = 0).
  { unfold deltaTime, deltaTimeOf, truthy. rewrite Hlt.
    destruct (Req_dec_T (Frame.timestamp f) 0); [contradiction|].
    unfold Rdiv. rewrite Rminus_diag. ring. }
  assert (Hquiet : fst (fst (applied f w1)) = GameState.ball (World.game w1)
                   /\ appliedPending f w1 = World.pendingColorChange w1).
  { unfold appliedPending, applied, applyPendingColorChange.
    destruct (World.pendingColorChange w1) as [p|] eqn:Hp; [|auto].
    assert (Hlater : Frame.timestamp f < Pending.timestamp p).
    { clear Hp. symmetry in Hpe. unfold scoredPending, scored in Hpe.
      rewrite scoreLoop_pending in Hpe.
      pose proof (applied_color f w) as Ha.
      destruct (World.pendingColorChange w) as [q|].
      - destruct (Rgeb (Frame.timestamp f) (Pending.timestamp q)) eqn:Hq.
        + destruct Ha as (_ & _ & Ha). rewrite Ha in Hpe.
          destruct (existsb _ _); [|discriminate].
          injection Hpe as <-. cbn. lra.
        + destruct Ha as (_ & Ha). rewrite Ha in Hpe.
          injection Hpe as <-. now apply Rgeb_false in Hq.
      - destruct Ha as (_ & Ha). rewrite Ha in Hpe.
        destruct (existsb _ _); [|discriminate].
        injection Hpe as <-. cbn. lra. }
    rewrite (proj2 (Rgeb_false _ _) Hlater). auto. }
  destruct Hquiet as [Hball Hpend].
  assert (Hmoved : movedBall f w1 = GameState.ball (World.game w1)).
  { unfold movedBall. rewrite Hdt, Hball. apply gravity_zero. }
  assert (Hrot : rotated f w1 = GameState.obstacles (World.game w1)).
  { unfold rotated. rewrite Hdt. rewrite <- (map_id (GameState.obstacles _))
      at 2. apply map_ext. apply rotate_zero. }
  assert (Hnone : forall o, In o (GameState.obstacles (World.game w1)) ->
            crosses (movedBall f w1) o = false).
  { intros o Hin. rewrite Hobs, scoredObstacles_evolve in Hin.
    apply in_map_iff in Hin. destruct Hin as (o' & <- & _).
    rewrite Hmoved, Hb. apply crosses_evolve. }
  assert (Hcross : crossing f w1 = []).
  { unfold crossing. rewrite Hrot. now apply filter_none. }
  assert (Hscored : scoredObstacles f w1
                    = GameState.obstacles (World.game w1)).
  { unfold scoredObstacles, scored. rewrite scoreLoop_obstacles, Hrot.
    rewrite <- (map_id (GameState.obstacles _)) at 2.
    apply map_ext_in. intros o Hin. now rewrite (Hnone o Hin). }
  assert (Hcollides1 : collides f w1 = true).
  { unfold collides. rewrite Hscored, Hmoved, Hb, Hobs. exact Hcollides. }
  assert (Hne : GameState.obstacles (World.game w1) <> []).
  { rewrite Hobs. unfold collides in Hcollides.
    apply collisionLoop_true in Hcollides.
    destruct Hcollides as (o & Hin & _). intros Hnil.
    rewrite Hnil in Hin. destruct Hin. }
  destruct (gameLoop_defined rnd f w1 Hne) as [t2 Ht2].
  exists t2. split; [exact Ht2|].
  destruct (gameLoop_playing rnd f w1 t2 Ht2 Hgs)
    as (Hb2 & Hc2 & Hs2 & _ & _ & _ & _ & Hend2).
  destruct Hend2 as [(_ & _ & Hev2 & Hreq2 & _) | (Hc2' & _)];
    [|congruence].
  rewrite scoreEvents_list, Hcross in Hev2. cbn in Hev2.
  rewrite scoredScore_count, Hcross in Hev2. cbn in Hev2.
  rewrite Z.add_0_r in Hev2.
  repeat split.
  - rewrite Hev, Hs. reflexivity.
  - exact Hev2.
  - exact Hreq.
  - exact Hreq2.
  - rewrite Hb2. exact Hmoved.
  - rewrite Hc2. unfold movedCamera. now rewrite Hmoved.
Qed.

(** With the two callbacks that mounting registers, the frame in which
    a collision ends the session sends [onGameOver] twice, and leaves no
    callback registered. *)
Lemma two_callbacks_two_notifications (rnd : nat -> R) (f : Frame.t)
    (c : Component.t) :
  Component.callbacks c = 2%nat ->
  GameState.obstacles (World.game (Component.world c)) <> [] ->
  Frame.gameStatus f = gsPlaying ->
  Frame.timestamp f <> 0 ->
  collides f (Component.world c) = true ->
  exists (c' : Component.t) (score : Z),
    animationFrame rnd f c
    = Some (c', scoreEvents f (Component.world c)
                ++ [GameOver score; GameOver score])
    /\ Component.callbacks c' = 0%nat
    /\ GameState.status (World.game (Component.world c')) = gameover.
Proof.
  intros Hcb Hne Hgs Hts Hcollides.
  destruct (gameLoop_defined rnd f (Component.world c) Hne) as [t1 Ht1].
  destruct (second_call_repeats rnd f (Component.world c) t1 Ht1 Hgs Hts
              Hcollides)
    as (t2 & Ht2 & Hev1 & Hev2 & Hreq1 & Hreq2 & _).
  exists (Component.mk (Tick.world t2) 0),
         (GameState.score (World.game (Tick.world t1))).
  unfold animationFrame. rewrite Hcb. cbn [runCallbacks].
  rewrite Ht1, Ht2, Hev1, Hev2, Hreq1, Hreq2. cbn.
  rewrite <- app_assoc. repeat split.
  destruct (gameLoop_playing rnd f (Component.world c) t1 Ht1 Hgs)
    as (_ & _ & _ & _ & _ & _ & _ & Hend).
  destruct Hend as [(_ & Hst & _) | (Hc' & _)]; [|congruence].
  now destruct (game_over_stops rnd f (Tick.world t1) t2 Ht2 Hst).
Qed.

Lemma zeroRandom_speed (m : nat) :
  sampleSpeed zeroRandom dotCircle 0 m = - 0.0144.
Proof.
  unfold sampleSpeed, zeroRandom.
  rewrite (proj2 (Rgtb_false 0 0.5)) by lra.
  simpl. lra.
Qed.

Lemma zeroRandom_color (m : nat) : getRandomColor zeroRandom m = Some cyan.
Proof.
  unfold getRandomColor, zeroRandom.
  replace (floor (0 * INR (length COLOR_ORDER))) with 0%Z; [reflexivity|].
  symmetry. apply floor_spec. simpl. lra.
Qed.

Lemma PI_bounds : 3 < PI <= 4.
Proof. pose proof PI2_3_2. pose proof PI_4. lra. Qed.

(** A quarter turn and 0.0144 radians on, a [dotCircle] is purple. *)
Lemma purple_dot : segmentColorAt dotCircle (PI / 2 + 0.0144) = Some purple.
Proof.
  pose proof PI_bounds as HPI. unfold segmentColorAt.
  assert (Hdot : floor ((PI / 2 + 0.0144) / (PI * 2) * 24) = 6%Z).
  { apply floor_spec.
    replace ((PI / 2 + 0.0144) / (PI * 2) * 24) with (6 + 0.1728 / PI)
      by (field_simplify_eq; lra).
    assert (0 < 0.1728 / PI < 1); [|lra].
    split.
    - apply Rdiv_lt_0_compat; lra.
    - apply Rmult_lt_reg_r with PI; [lra|]. field_simplify; lra. }
  rewrite Hdot.
  assert (Hcol : floor (IZR 6 / 6) = 1%Z) by (apply floor_spec; lra).
  rewrite Hcol. reflexivity.
Qed.

(** A call at the crash site, with the ball moved to 210.35 and the first
    obstacle rotated to -0.0144: its collision loop returns. *)
Lemma crash_call (f : Frame.t) (w : World.t) (t : Tick.t) :
  crashSite w ->
  Frame.width f = 400 ->
  Frame.gameStatus f = gsPlaying ->
  Ball.y (movedBall f w) = 210.35 ->
  (forall o0 rest, GameState.obstacles (World.game w) = o0 :: rest ->
     Obstacle.rotation o0 + Obstacle.rotationSpeed o0 * deltaTime f w
     = - 0.0144) ->
  gameLoop zeroRandom f w = Some t ->
  GameState.status (World.game (Tick.world t)) = gameover
  /\ Tick.events t = [GameOver 0]
  /\ Tick.requested t = false
  /\ GameState.ball (World.game (Tick.world t)) = movedBall f w
  /\ GameState.cameraY (World.game (Tick.world t)) = movedCamera f w
  /\ GameState.obstacles (World.game (Tick.world t))
     = map (rotateObstacle (deltaTime f w))
         (GameState.obstacles (World.game w))
  /\ GameState.score (World.game (Tick.world t)) = 0%Z
  /\ World.pendingColorChange (Tick.world t) = None
  /\ World.lastTime (Tick.world t) = Frame.timestamp f.
Proof.
  intros (Hx & Hr & Hcol & Hpend & Hscore & Hall & o0 & rest & Hobs
          & Hty & Hy0 & Hp0) Hw Hgs Hby Hrot Hloop.
  specialize (Hrot o0 rest Hobs).
  destruct (applied_ball f w) as (Hax & _ & Har & _).
  pose proof (applied_color f w) as Hac. rewrite Hpend in Hac.
  destruct Hac as [Hac Hap].
  assert (Hbx : Ball.x (movedBall f w) = 400 / 2)
    by (unfold movedBall; cbn; congruence).
  assert (Hbr : Ball.radius (movedBall f w) = 15)
    by (unfold movedBall; cbn; congruence).
  assert (Hbc : Ball.color (movedBall f w) = Some cyan)
    by (unfold movedBall; cbn; congruence).
  assert (Hscoredef : scoredObstacles f w
                      = map (evolve f w) (GameState.obstacles (World.game w)))
    by apply scoredObstacles_evolve.
  assert (Hevolve : forall o, evolve f w o
            = if crosses (movedBall f w) (rotateObstacle (deltaTime f w) o)
              then markPassed (rotateObstacle (deltaTime f w) o)
              else rotateObstacle (deltaTime f w) o) by reflexivity.
  assert (Hcrossdef : crossing f w
            = filter (crosses (movedBall f w))
                (map (rotateObstacle (deltaTime f w))
                   (GameState.obstacles (World.game w)))) by reflexivity.
  assert (Hcollidesdef : collides f w
            = collisionLoop (movedBall f w) (scoredObstacles f w)
                (Frame.width f / 2)) by reflexivity.
  remember (movedBall f w) as b eqn:Hbdef.
  remember (deltaTime f w) as dt eqn:Hdtdef.
  assert (Hno : forall o, In o (GameState.obstacles (World.game w)) ->
            crosses b (rotateObstacle dt o) = false).
  { intros o Hin. destruct (Hall o Hin) as [Hy Hrad].
    unfold crosses. cbn [rotateObstacle Obstacle.y Obstacle.radius].
    rewrite (proj2 (Rltb_false _ _)); [|lra].
    apply andb_false_r. }
  assert (Hcross : crossing f w = []).
  { rewrite Hcrossdef. apply filter_none. intros o Hin.
    apply in_map_iff in Hin. destruct Hin as (o' & <- & Hin). auto. }
  assert (Hscored : scoredObstacles f w
                    = map (rotateObstacle dt)
                        (GameState.obstacles (World.game w))).
  { rewrite Hscoredef. apply map_ext_in. intros o Hin.
    rewrite Hevolve. now rewrite (Hno o Hin). }
  assert (Hrad0 : Obstacle.radius o0 = 140)
    by (apply Hall; rewrite Hobs; now left).
  assert (Hcollides : collides f w = true).
  { rewrite Hcollidesdef, Hscored, Hobs. cbn [map collisionLoop].
    cbn [rotateObstacle Obstacle.passed]. rewrite Hp0. cbn [negb andb].
    rewrite checkCollision_below;
      cbn [rotateObstacle Obstacle.type Obstacle.y Obstacle.radius
           Obstacle.rotation];
      rewrite ?Hty, ?Hy0, ?Hbr, ?Hw, ?Hby, ?Hrot;
      cbn [thicknessOf]; rewrite ?Hrad0; try lra.
    - rewrite Hbc.
      replace (PI / 2 - - 0.0144) with (PI / 2 + 0.0144) by lra.
      rewrite purple_dot. reflexivity.
    - pose proof PI_bounds. lra. }
  destruct (gameLoop_playing zeroRandom f w t Hloop Hgs)
    as (Hb & Hc & Hs & _ & Hpe & _ & Hlt & Hend).
  destruct Hend as [(_ & Hst & He & Hreq & Ho) | (Hc' & _)];
    [|congruence].
  rewrite scoredScore_count, Hcross, Hscore in Hs. cbn in Hs.
  rewrite scoreEvents_list, Hcross, scoredScore_count, Hcross, Hscore in He.
  cbn in He.
  unfold scoredPending, scored in Hpe.
  rewrite scoreLoop_pending, Hap in Hpe. fold (crossing f w) in Hpe.
  rewrite Hcross in Hpe. cbn in Hpe.
  rewrite Hscored in Ho. subst b dt.
  repeat split; assumption.
Qed.

Lemma movedBall_motion (f : Frame.t) (w : World.t) :
  let b := GameState.ball (World.game w) in
  let dt := deltaTime f w in
  Ball.velocity (movedBall f w) = Ball.velocity b + 0.35 * dt
  /\ Ball.y (movedBall f w) = Ball.y b + (Ball.velocity b + 0.35 * dt) * dt
  /\ Ball.x (movedBall f w) = Ball.x b
  /\ Ball.radius (movedBall f w) = Ball.radius b.
Proof.
  destruct (applied_ball f w) as (Hx & Hy & Hr & Hv).
  unfold movedBall, applyGravity, GRAVITY. cbn.
  rewrite Hx, Hy, Hr, Hv. auto.
Qed.

Lemma smallCanvas_site :
  let w := Component.world smallCanvas in
  let g := World.game w in
  crashSite w
  /\ GameState.status g = playing
  /\ Ball.y (GameState.ball g) = 210
  /\ Ball.velocity (GameState.ball g) = 0
  /\ GameState.cameraY g = 0
  /\ World.lastTime w = 0
  /\ forall o0 rest, GameState.obstacles g = o0 :: rest ->
       Obstacle.rotation o0 = 0 /\ Obstacle.rotationSpeed o0 = - 0.0144.
Proof.
  unfold smallCanvas.
  destruct (mount_obstacles zeroRandom 400 300 0%Z 0)
    as (Hst & Hy & Hv & Hlen & Hnth).
  destruct (mount_motion zeroRandom 400 300 0%Z 0)
    as (Hscore & Hcam & Hx & Hr & (m & Hcol) & Hlast & Hpend & _ & Hmot).
  cbv zeta in *.
  set (w := Component.world (mount zeroRandom 400 300 0%Z 0)) in *.
  destruct (GameState.obstacles (World.game w)) as [|o0 rest] eqn:Hobs;
    [discriminate|].
  destruct (Hnth 0%nat o0 eq_refl) as (Hty0 & Hy0 & Hr0 & Hp0).
  destruct (Hmot 0%nat o0 eq_refl) as ((m1 & Hrot0) & (m2 & Hsp0)).
  unfold crashSite. rewrite Hobs. repeat apply conj.
  - exact Hx.
  - exact Hr.
  - rewrite Hcol. apply zeroRandom_color.
  - exact Hpend.
  - exact Hscore.
  - intros o Hin. apply In_nth_error in Hin. destruct Hin as [j Hj].
    destruct (Hnth j o Hj) as (_ & Hyo & Hro & _).
    split; [|exact Hro]. rewrite Hyo. unfold OBSTACLE_GAP.
    pose proof (pos_INR j). nra.
  - exists o0, rest. repeat split; auto.
    rewrite Hy0. simpl. unfold OBSTACLE_GAP. lra.
  - exact Hst.
  - rewrite Hy. lra.
  - exact Hv.
  - exact Hcam.
  - exact Hlast.
  - intros o rest' [= <- <-]. split.
    + rewrite Hrot0. unfold zeroRandom. ring.
    + rewrite Hsp0. apply zeroRandom_speed.
Qed.

Lemma firstFrame_deltaTime (w : World.t) :
  (World.lastTime w = 0 -> deltaTime firstFrame w = 1)
  /\ (World.lastTime w = 16.67 -> deltaTime firstFrame w = 0).
Proof.
  unfold deltaTime, deltaTimeOf, truthy, firstFrame. cbn. split; intros ->.
  - destruct (Req_dec_T 0 0); [reflexivity|contradiction].
  - destruct (Req_dec_T 16.67 0); lra.
Qed.

(** C9 (the frame chains of the component).  Mounting the component
    registers two [gameLoop] callbacks, one by the effect "Start game
    loop" and one by the effect "Reset game".  On a 400 by 300 canvas,
    with a random source that always answers 0, the first of the two
    calls of the first animation frame finds the cyan ball in the band of
    the first obstacle, at a purple dot: it ends the session and calls
    [onGameOver(0)].  The second call of the same frame runs on the
    session that is over: it moves the camera from 0.035 to 0.0665, finds
    the same collision and calls [onGameOver(0)] a second time. *)
Theorem second_callback_after_game_over :
  Component.callbacks smallCanvas = 2%nat
  /\ GameState.status (World.game (Component.world smallCanvas)) = playing
  /\ exists t1 t2 : Tick.t,
       gameLoop zeroRandom firstFrame (Component.world smallCanvas)
       = Some t1
       /\ GameState.status (World.game (Tick.world t1)) = gameover
       /\ Tick.events t1 = [GameOver 0]
       /\ GameState.cameraY (World.game (Tick.world t1)) = 0.035
       /\ gameLoop zeroRandom firstFrame (Tick.world t1) = Some t2
       /\ Tick.events t2 = [GameOver 0]
       /\ GameState.cameraY (World.game (Tick.world t2)) = 0.0665
       /\ animationFrame zeroRandom firstFrame smallCanvas
          = Some (Component.mk (Tick.world t2) 0,
                  [GameOver 0; GameOver 0]).
Proof.
  destruct smallCanvas_site
    as (Hsite & Hst & Hy & Hv & Hcam & Hlast & Hfirst).
  cbv zeta in *.
  set (w0 := Component.world smallCanvas) in *.
  split; [apply (mount_motion zeroRandom 400 300 0%Z 0)|].
  split; [exact Hst|].
  assert (Hne0 : GameState.obstacles (World.game w0) <> []).
  { destruct Hsite as (_ & _ & _ & _ & _ & _ & o0 & rest & -> & _).
    discriminate. }
  destruct (gameLoop_defined zeroRandom firstFrame w0 Hne0) as [t1 Ht1].
  pose proof (proj1 (firstFrame_deltaTime w0) Hlast) as Hdt0.
  destruct (movedBall_motion firstFrame w0) as (Hv1 & Hy1 & Hx1 & Hr1).
  cbv zeta in *. rewrite Hdt0, Hy, Hv in *.
  assert (Hy1' : Ball.y (movedBall firstFrame w0) = 210.35) by lra.
  assert (Hrot0 : forall o0 rest,
            GameState.obstacles (World.game w0) = o0 :: rest ->
            Obstacle.rotation o0
            + Obstacle.rotationSpeed o0 * deltaTime firstFrame w0
            = - 0.0144).
  { intros o0 rest Ho. destruct (Hfirst o0 rest Ho) as [-> ->].
    rewrite Hdt0. lra. }
  destruct (crash_call firstFrame w0 t1 Hsite eq_refl eq_refl Hy1' Hrot0
              Ht1)
    as (Hst1 & Hev1 & Hreq1 & Hb1 & Hc1 & Ho1 & Hs1 & Hp1 & Hl1).
  set (w1 := Tick.world t1) in *.
  assert (Hcam1 : GameState.cameraY (World.game w1) = 0.035).
  { rewrite Hc1. unfold movedCamera, followBall. rewrite Hy1', Hcam.
    cbn. lra. }
  assert (Hsite1 : crashSite w1).
  { destruct Hsite as (Hx & Hr & Hcol & Hpend & Hscore & Hall
                       & o0 & rest & Hobs & Hty & Hy0 & Hp0).
    unfold crashSite. rewrite Hb1, Ho1, Hx1, Hr1.
    repeat apply conj; auto.
    - pose proof (applied_color firstFrame w0) as Hac.
      rewrite Hpend in Hac. destruct Hac as [Hac _].
      unfold movedBall, applyGravity. cbn. congruence.
    - intros o Hin. apply in_map_iff in Hin.
      destruct Hin as (o' & <- & Hin). cbn. now apply Hall.
    - rewrite Hobs. cbn [map]. do 2 eexists. split; [reflexivity|].
      cbn. auto. }
  assert (Hne1 : GameState.obstacles (World.game w1) <> []).
  { destruct Hsite1 as (_ & _ & _ & _ & _ & _ & o0 & rest & -> & _).
    discriminate. }
  destruct (gameLoop_defined zeroRandom firstFrame w1 Hne1) as [t2 Ht2].
  assert (Hl1' : World.lastTime w1 = 16.67) by (rewrite Hl1; reflexivity).
  pose proof (proj2 (firstFrame_deltaTime w1) Hl1') as Hdt1.
  destruct (movedBall_motion firstFrame w1) as (Hv2 & Hy2 & _).
  cbv zeta in *. rewrite Hdt1, Hb1, Hy1', Hv1 in *.
  assert (Hy2' : Ball.y (movedBall firstFrame w1) = 210.35) by lra.
  assert (Hrot1 : forall o0 rest,
            GameState.obstacles (World.game w1) = o0 :: rest ->
            Obstacle.rotation o0
            + Obstacle.rotationSpeed o0 * deltaTime firstFrame w1
            = - 0.0144).
  { intros o1 rest1 Ho. rewrite Ho1 in Ho.
    destruct (GameState.obstacles (World.game w0)) as [|o0 rest] eqn:Hobs;
      [discriminate|].
    cbn [map] in Ho. injection Ho as <- <-.
    destruct (Hfirst o0 rest eq_refl) as [Hr0 Hs0].
    cbn. rewrite Hr0, Hs0, Hdt0, Hdt1. lra. }
  destruct (crash_call firstFrame w1 t2 Hsite1 eq_refl eq_refl Hy2' Hrot1
              Ht2)
    as (Hst2 & Hev2 & Hreq2 & Hb2 & Hc2 & _).
  exists t1, t2. repeat apply conj; auto.
  - rewrite Hc2. unfold movedCamera, followBall. rewrite Hy2', Hcam1.
    cbn. lra.
  - unfold animationFrame.
    replace (Component.callbacks smallCanvas) with 2%nat
      by (symmetry; apply (mount_motion zeroRandom 400 300 0%Z 0)).
    fold w0. cbn [runCallbacks]. rewrite Ht1. fold w1. rewrite Ht2.
    rewrite Hev1, Hev2, Hreq1, Hreq2. reflexivity.
Qed.

(** ** The type of a new obstacle *)

Lemma obstacleTypeOf_spec (i : nat) : obstacleTypeOf i = spec_type i.
Proof. reflexivity. Qed.

(** [createObstacle] follows the rule of the specification on the index
    it is given, and [generateInitialObstacles] gives the five initial
    obstacles their generation indices. *)
Lemma initial_types (rnd : nat -> R) (cw ch : R) (stored : Z) (n j : nat)
    (o : Obstacle.t) :
  nth_error
    (GameState.obstacles
       (World.game (Component.world (mount rnd cw ch stored n)))) j
  = Some o ->
  Obstacle.type o = spec_type j.
Proof.
  intros Hj.
  destruct (mount_obstacles rnd cw ch stored n) as (_ & _ & _ & _ & Hnth).
  now destruct (Hnth j o Hj) as (Hty & _).
Qed.

(** In [gameLoop] the index given to [createObstacle] is the length of
    the obstacles array at that moment. *)
Lemma generated_type (rnd : nat -> R) (f : Frame.t) (w : World.t)
    (highest : R) :
  Obstacle.type (newObstacle rnd f w highest)
  = spec_type (length (GameState.obstacles (World.game w))).
Proof.
  unfold newObstacle.
  destruct (createObstacle_fields rnd (Frame.width f)
              (highest - OBSTACLE_GAP) (length (scoredObstacles f w))
              (World.lastObstacleSpeed w) (World.randomCalls w))
    as (Hty & _).
  rewrite Hty, scoredObstacles_evolve, length_map. reflexivity.
Qed.

Lemma checkCollision_inside (b : Ball.t) (o : Obstacle.t) (cx : R) :
  Ball.x b = cx ->
  Rabs (Ball.y b - Obstacle.y o)
  <= Obstacle.radius o - thicknessOf (Obstacle.type o) - Ball.radius b ->
  checkCollision b o cx = false.
Proof.
  intros Hx Hin. unfold checkCollision.
  replace (Ball.x b - cx) with 0 by lra.
  set (dy := Ball.y b - Obstacle.y o) in *.
  replace (0 * 0 + dy * dy) with (Rsqr dy) by (unfold Rsqr; ring).
  rewrite sqrt_Rsqr_abs.
  now rewrite (proj2 (Rleb_true _ _) Hin).
Qed.

Lemma collisionLoop_false (b : Ball.t) (l : list Obstacle.t) (cx : R) :
  (forall o, In o l -> checkCollision b o cx = false) ->
  collisionLoop b l cx = false.
Proof.
  intros H. apply not_true_is_false. intros Hc.
  apply collisionLoop_true in Hc. destruct Hc as (o & Hin & _ & Hcheck).
  rewrite (H o Hin) in Hcheck. discriminate.
Qed.

Lemma no_crossing (f : Frame.t) (w : World.t) :
  (forall o, In o (GameState.obstacles (World.game w)) ->
     Obstacle.y o - Obstacle.radius o - 20 <= Ball.y (movedBall f w)) ->
  crossing f w = []
  /\ scoredObstacles f w = rotated f w.
Proof.
  intros Hall.
  assert (Hno : forall o, In o (GameState.obstacles (World.game w)) ->
            crosses (movedBall f w) (rotateObstacle (deltaTime f w) o)
            = false).
  { intros o Hin. unfold crosses.
    cbn [rotateObstacle Obstacle.y Obstacle.radius].
    rewrite (proj2 (Rltb_false _ _)) by (now apply Hall).
    apply andb_false_r. }
  split.
  - unfold crossing, rotated. apply filter_none. intros o Hin.
    apply in_map_iff in Hin. destruct Hin as (o' & <- & Hin). auto.
  - rewrite scoredObstacles_evolve. unfold rotated.
    apply map_ext_in. intros o Hin. unfold evolve.
    now rewrite (Hno o Hin).
Qed.

Lemma climbing_deltaTime : deltaTime climbingFrame climbingWorld = 1.
Proof.
  unfold deltaTime, deltaTimeOf, truthy, climbingFrame, climbingWorld. cbn.
  destruct (Req_dec_T 1000 0); lra.
Qed.

(** [climbingWorld] has what every state of a session has. *)
Lemma climbingWorld_invariants :
  colorInvariant climbingWorld /\ frontierInvariant climbingWorld.
Proof.
  split.
  - exists cyan. split; [reflexivity|]. intros p Hp. discriminate.
  - intros _. unfold JUMP_FORCE, OBSTACLE_GAP. cbn. split; [lra|].
    eexists. split; [right; right; left; reflexivity|]. cbn. lra.
Qed.

(** ** A session in which the array is shorter than the count *)

Lemma session_reachable (rnd : nat -> R) (w : World.t) (created : nat) :
  session rnd w created -> reachable rnd w.
Proof.
  intros Hs. induction Hs as [cw ch stored n Hch | gs w c _ IH
                             | f w t c _ IH Hts Hloop].
  - now apply reach_mount.
  - eapply reach_step; [exact IH|apply step_tap].
  - eapply reach_step; [exact IH|eapply step_frame; eauto].
Qed.

(** Far enough beside the lane centre, no collision. *)
Lemma checkCollision_beside (b : Ball.t) (o : Obstacle.t) (cx : R) :
  Obstacle.radius o + thicknessOf (Obstacle.type o) + Ball.radius b
  <= Rabs (Ball.x b - cx) ->
  checkCollision b o cx = false.
Proof.
  intros Hfar. unfold checkCollision.
  set (dx := Ball.x b - cx) in *. set (dy := Ball.y b - Obstacle.y o).
  assert (Hd : Rabs dx <= sqrt (dx * dx + dy * dy)).
  { rewrite <- sqrt_Rsqr_abs. apply sqrt_le_1.
    - apply Rle_0_sqr.
    - unfold Rsqr. nra.
    - unfold Rsqr. nra. }
  rewrite (proj2 (Rgeb_true _ _)) by lra.
  now rewrite orb_true_r.
Qed.

(** Pruning obstacles at the initial heights, the first [j <= 1] of them
    missing, with a bound above -240: what is left is again a suffix. *)
Lemma filter_heights (j : nat) (bound : R) (obs : list Obstacle.t) :
  (j <= 1)%nat ->
  map Obstacle.y obs = skipn j startHeights ->
  -240 < bound ->
  exists j' : nat,
    (j <= j' <= 1)%nat
    /\ (bound <= 60 -> j' = 1%nat)
    /\ (60 < bound -> j' = j)
    /\ map Obstacle.y (filter (fun o => Rltb (Obstacle.y o) bound) obs)
       = skipn j' startHeights.
Proof.
  intros Hj Hmap Hb.
  assert (Hcase : j = 0%nat \/ j = 1%nat) by lia.
  destruct Hcase as [-> | ->]; cbn in Hmap.
  - destruct obs as [|o1 [|o2 [|o3 [|o4 [|o5 [|o6 rest]]]]]];
      try discriminate.
    injection Hmap as H1 H2 H3 H4 H5.
    destruct (Rlt_dec 60 bound) as [Hlt | Hge].
    + exists 0%nat. repeat split; try lia; try lra.
      cbn [filter]. rewrite H1, H2, H3, H4, H5.
      rewrite !(proj2 (Rltb_true _ _)) by lra. cbn.
      now rewrite H1, H2, H3, H4, H5.
    + exists 1%nat. repeat split; try lia; try lra.
      cbn [filter]. rewrite H1, H2, H3, H4, H5.
      rewrite (proj2 (Rltb_false 60 bound)) by lra.
      rewrite !(proj2 (Rltb_true _ _)) by lra. cbn.
      now rewrite H2, H3, H4, H5.
  - destruct obs as [|o2 [|o3 [|o4 [|o5 [|o6 rest]]]]]; try discriminate.
    injection Hmap as H2 H3 H4 H5.
    exists 1%nat. repeat split; try lia.
    cbn [filter]. rewrite H2, H3, H4, H5.
    rewrite !(proj2 (Rltb_true _ _)) by lra. cbn.
    now rewrite H2, H3, H4, H5.
Qed.

Lemma heights_lowest (j : nat) (ys : list R) :
  (j <= 1)%nat -> ys = skipn j startHeights -> minimum ys = Some (-1140).
Proof.
  intros Hj ->.
  assert (Hcase : j = 0%nat \/ j = 1%nat) by lia.
  destruct Hcase as [-> | ->]; apply minimum_char; cbn.
  - tauto.
  - intros v [<- | [<- | [<- | [<- | [<- | []]]]]]; lra.
  - tauto.
  - intros v [<- | [<- | [<- | [<- | []]]]]; lra.
Qed.

Lemma evolved_heights (f : Frame.t) (w : World.t) :
  map Obstacle.y (scoredObstacles f w)
  = map Obstacle.y (GameState.obstacles (World.game w)).
Proof.
  rewrite scoredObstacles_evolve, map_map. apply map_ext. intros o.
  now destruct (evolve_same f w o) as [(_ & _ & Hy & _) _].
Qed.

(** What every call of the climb has in common: the ball is 400 beside
    the lane centre, so that the collision loop finds nothing, and the
    highest obstacle is the one at -1140. *)
Lemma beside_lane (f : Frame.t) (w : World.t) (j : nat) :
  Frame.width f = 1200 ->
  Ball.x (GameState.ball (World.game w)) = 200 ->
  Ball.radius (GameState.ball (World.game w)) = 15 ->
  (forall o, In o (GameState.obstacles (World.game w)) ->
             Obstacle.radius o = 140) ->
  (j <= 1)%nat ->
  map Obstacle.y (GameState.obstacles (World.game w))
  = skipn j startHeights ->
  collides f w = false /\ highestObstacle f w = Some (-1140).
Proof.
  intros Hw Hx Hr Hrad Hj Hys.
  destruct (movedBall_motion f w) as (_ & _ & Hx' & Hr').
  split.
  - unfold collides. apply collisionLoop_false. intros o Hin.
    rewrite scoredObstacles_evolve in Hin. apply in_map_iff in Hin.
    destruct Hin as (o' & <- & Hin).
    destruct (evolve_same f w o') as [(_ & Hty & _ & Hrd & _) _].
    apply checkCollision_beside.
    rewrite Hrd, (Hrad o' Hin), Hx', Hr', Hx, Hr, Hw.
    replace (200 - 1200 / 2) with (-400) by lra.
    rewrite Rabs_left by lra.
    destruct (Obstacle.type (evolve f w o')); cbn; lra.
  - unfold highestObstacle. rewrite evolved_heights.
    now apply (heights_lowest j).
Qed.

(** A call of the climb that appends nothing. *)
Lemma beside_call (rnd : nat -> R) (f : Frame.t) (w : World.t) (t : Tick.t)
    (j : nat) :
  gameLoop rnd f w = Some t ->
  Frame.width f = 1200 ->
  Frame.height f = 200 ->
  Frame.gameStatus f = gsPlaying ->
  GameState.status (World.game w) = playing ->
  Ball.x (GameState.ball (World.game w)) = 200 ->
  Ball.radius (GameState.ball (World.game w)) = 15 ->
  (forall o, In o (GameState.obstacles (World.game w)) ->
             Obstacle.radius o = 140) ->
  (j <= 1)%nat ->
  map Obstacle.y (GameState.obstacles (World.game w))
  = skipn j startHeights ->
  -540 <= Ball.y (movedBall f w) ->
  Ball.y (movedBall f w) <= movedCamera f w + 250 ->
  -640 < movedCamera f w ->
  let g' := World.game (Tick.world t) in
  GameState.status g' = playing
  /\ GameState.ball g' = movedBall f w
  /\ GameState.cameraY g' = movedCamera f w
  /\ World.lastTime (Tick.world t) = Frame.timestamp f
  /\ (forall o, In o (GameState.obstacles g') -> Obstacle.radius o = 140)
  /\ appended f w = 0%nat
  /\ exists j' : nat,
       (j <= j' <= 1)%nat
       /\ (movedCamera f w + 400 <= 60 -> j' = 1%nat)
       /\ map Obstacle.y (GameState.obstacles g') = skipn j' startHeights.
Proof.
  intros Hloop Hw Hh Hgs Hst Hx Hr Hrad Hj Hys Hfar Hfall Hcam.
  destruct (beside_lane f w j Hw Hx Hr Hrad Hj Hys) as [Hcol Hhigh].
  assert (Hnear : nearFrontier f w (-1140) = false).
  { unfold nearFrontier, OBSTACLE_GAP. apply Rltb_false. lra. }
  assert (Hout : fallsOut f w = false).
  { unfold fallsOut, belowBoundary. apply Rgtb_false. rewrite Hh. lra. }
  destruct (gameLoop_playing rnd f w t Hloop Hgs)
    as (Hb & Hc & _ & _ & _ & _ & Hlt & Hend).
  destruct Hend as [(Hcol' & _) | (_ & h & Hh' & Hobs & Hend)];
    [congruence|].
  assert (h = -1140) by congruence. subst h.
  destruct Hend as [(Hout' & _) | (_ & Hst' & _)]; [congruence|].
  rewrite generatedObstacles_spec, Hnear in Hobs.
  cbv zeta. repeat apply conj; try assumption.
  - congruence.
  - intros o Hin. rewrite Hobs in Hin. apply filter_In in Hin.
    destruct Hin as [Hin _]. rewrite scoredObstacles_evolve in Hin.
    apply in_map_iff in Hin. destruct Hin as (o' & <- & Hin).
    destruct (evolve_same f w o') as [(_ & _ & _ & Hrd & _) _].
    rewrite Hrd. now apply Hrad.
  - unfold appended. now rewrite Hgs, Hcol, Hhigh, Hnear.
  - destruct (filter_heights j (movedCamera f w + Frame.height f + 200)
                (scoredObstacles f w) Hj)
      as (j' & Hj' & Hone & _ & Hfil).
    + now rewrite evolved_heights.
    + rewrite Hh. lra.
    + exists j'. split; [exact Hj'|]. split.
      * intros Hle. apply Hone. rewrite Hh. lra.
      * rewrite Hobs. exact Hfil.
Qed.

Lemma deltaTime_first (f : Frame.t) (w : World.t) :
  World.lastTime w = 0 -> deltaTime f w = 1.
Proof.
  intros H. unfold deltaTime, deltaTimeOf, truthy. rewrite H.
  destruct (Req_dec_T 0 0); [reflexivity|contradiction].
Qed.

Lemma deltaTime_later (f : Frame.t) (w : World.t) :
  World.lastTime w <> 0 ->
  deltaTime f w = (Frame.timestamp f - World.lastTime w) / 16.67.
Proof.
  intros H. unfold deltaTime, deltaTimeOf, truthy.
  destruct (Req_dec_T (World.lastTime w) 0); [contradiction|reflexivity].
Qed.

(** One call beside the lane, the ball staying below -540. *)
Lemma offAxis_call (rnd : nat -> R) (f : Frame.t) (w : World.t) (j : nat)
    (Y cam last v dt : R) :
  offAxis w j Y cam last ->
  Ball.velocity (GameState.ball (World.game w)) = v ->
  Frame.width f = 1200 ->
  Frame.height f = 200 ->
  Frame.gameStatus f = gsPlaying ->
  deltaTime f w = dt ->
  let Y' := Y + (v + 0.35 * dt) * dt in
  let cam' := cam + (Y' - 140 - cam) * 0.1 in
  -540 <= Y' ->
  Y' <= cam' + 250 ->
  -640 < cam' ->
  exists (t : Tick.t) (j' : nat),
    gameLoop rnd f w = Some t
    /\ appended f w = 0%nat
    /\ offAxis (Tick.world t) j' Y' cam' (Frame.timestamp f)
    /\ (j <= j')%nat
    /\ (cam' + 400 <= 60 -> j' = 1%nat).
Proof.
  intros (Hst & Hx & Hr & Hy & Hc & Hl & Hrad & Hj & Hys) Hv Hw Hh Hgs Hdt
         Y' cam' Hfar Hfall Hcam.
  destruct (movedBall_motion f w) as (_ & Hy' & Hx' & Hr'). cbv zeta in Hy'.
  rewrite Hy, Hv, Hdt in Hy'. fold Y' in Hy'.
  assert (Hc' : movedCamera f w = cam').
  { unfold movedCamera, followBall. rewrite Hy', Hh, Hc.
    unfold cam'. lra. }
  destruct (gameLoop_defined rnd f w) as [t Hloop].
  { intros Hnil. rewrite Hnil in Hys.
    assert (Hcase : j = 0%nat \/ j = 1%nat) by lia.
    destruct Hcase as [-> | ->]; discriminate. }
  destruct (beside_call rnd f w t j Hloop Hw Hh Hgs Hst Hx Hr Hrad Hj Hys)
    as (Hst' & Hb' & Hcm' & Hlt' & Hrad' & Happ & j' & Hj' & Hone & Hys').
  - now rewrite Hy'.
  - now rewrite Hy', Hc'.
  - now rewrite Hc'.
  - exists t, j'. split; [exact Hloop|]. split; [exact Happ|].
    split; [|split; [lia|]].
    + unfold offAxis. rewrite Hb', Hcm', Hlt', Hx', Hr', Hy', Hc', Hx, Hr.
      repeat apply conj; try reflexivity; try assumption. lia.
    + intros Hle. apply Hone. now rewrite Hc'.
Qed.

Lemma offAxis_tap (w : World.t) (j : nat) (Y cam last : R) :
  offAxis w j Y cam last ->
  offAxis (handleTap gsPlaying w) j Y cam last
  /\ Ball.velocity (GameState.ball (World.game (handleTap gsPlaying w)))
     = -9.
Proof.
  intros H. split; [exact H|reflexivity].
Qed.

Lemma climbTime_positive (k : nat) : 16.67 <= climbTime k.
Proof.
  unfold climbTime. pose proof (pos_INR k). lra.
Qed.

(** One animation frame of the climb: a tap, then the two calls the
    component has registered, the second with no time elapsed. *)
Lemma climb_frame (w : World.t) (j k : nat) (Y cam last dt : R) :
  session zeroRandom w 5 ->
  offAxis w j Y cam last ->
  last <= climbTime k ->
  deltaTimeOf last (climbTime k) = dt ->
  let Y' := Y + (-9 + 0.35 * dt) * dt in
  let camA := cam + (Y' - 140 - cam) * 0.1 in
  let camB := camA + (Y' - 140 - camA) * 0.1 in
  -540 <= Y' ->
  Y' <= camA + 250 ->
  -640 < camA ->
  Y' <= camB + 250 ->
  -640 < camB ->
  exists (w' : World.t) (j' : nat),
    session zeroRandom w' 5
    /\ offAxis w' j' Y' camB (climbTime k)
    /\ (j <= j')%nat
    /\ (camA + 400 <= 60 -> j' = 1%nat).
Proof.
  intros Hs Hoff Hlast Hdt Y' camA camB Hfar HfallA HcamA HfallB HcamB.
  destruct (offAxis_tap w j Y cam last Hoff) as [Htap Hv].
  assert (Hl : World.lastTime (handleTap gsPlaying w) = last).
  { now destruct Htap as (_ & _ & _ & _ & _ & Hl & _). }
  destruct (offAxis_call zeroRandom (wideFrame k) (handleTap gsPlaying w)
              j Y cam last (-9) dt Htap Hv eq_refl eq_refl eq_refl)
    as (tA & jA & HloopA & HappA & HoffA & HjA & HoneA); try assumption.
  { unfold deltaTime. now rewrite Hl. }
  assert (HsA : session zeroRandom (Tick.world tA) 5).
  { replace 5%nat
      with (5 + appended (wideFrame k) (handleTap gsPlaying w))%nat
      by (rewrite HappA; reflexivity).
    eapply session_call; [apply session_tap; exact Hs| |exact HloopA].
    rewrite Hl. exact Hlast. }
  assert (HlA : World.lastTime (Tick.world tA) = climbTime k).
  { now destruct HoffA as (_ & _ & _ & _ & _ & HlA & _). }
  pose proof (climbTime_positive k) as Hpos.
  assert (HdtB : deltaTime (wideFrame k) (Tick.world tA) = 0).
  { rewrite deltaTime_later by (rewrite HlA; lra).
    rewrite HlA. cbn [wideFrame Frame.timestamp]. lra. }
  destruct (offAxis_call zeroRandom (wideFrame k) (Tick.world tA) jA Y' camA
              (climbTime k)
              (Ball.velocity (GameState.ball (World.game (Tick.world tA))))
              0 HoffA eq_refl eq_refl eq_refl eq_refl HdtB)
    as (tB & jB & HloopB & HappB & HoffB & HjB & HoneB).
  - lra.
  - fold camA. replace (Y' + _) with Y' by lra. fold camB. lra.
  - replace (Y' + _) with Y' by lra. fold camB. lra.
  - exists (Tick.world tB), jB.
    replace (Y' + _) with Y' in HoffB by lra. fold camB in HoffB.
    split; [|split; [exact HoffB|split; [lia|]]].
    + replace 5%nat with (5 + appended (wideFrame k) (Tick.world tA))%nat
        by (rewrite HappB; reflexivity).
      eapply session_call; [exact HsA| |exact HloopB].
      rewrite HlA. cbn. lra.
    + intros Hle. specialize (HoneA Hle).
      destruct HoffB as (_ & _ & _ & _ & _ & _ & _ & HjB1 & _). lia.
Qed.

Lemma mount_offAxis :
  offAxis (Component.world (mount zeroRandom 400 200 0%Z 0)) 0 140 0 0.
Proof.
  destruct (mount_obstacles zeroRandom 400 200 0%Z 0)
    as (Hst & Hy & _ & Hlen & Hnth).
  destruct (mount_motion zeroRandom 400 200 0%Z 0)
    as (_ & Hcam & Hx & Hr & _ & Hlt & _).
  cbv zeta in *.
  set (w := Component.world (mount zeroRandom 400 200 0%Z 0)) in *.
  clearbody w.
  destruct (GameState.obstacles (World.game w))
    as [|o0 [|o1 [|o2 [|o3 [|o4 [|o5 rest]]]]]] eqn:Hobs;
    try discriminate.
  assert (H0 : Obstacle.y o0 = 60 /\ Obstacle.radius o0 = 140).
  { destruct (Hnth 0%nat o0 eq_refl) as (_ & H & Hrd & _).
    split; [|exact Hrd]. rewrite H. unfold OBSTACLE_GAP. simpl. lra. }
  assert (H1 : Obstacle.y o1 = -240 /\ Obstacle.radius o1 = 140).
  { destruct (Hnth 1%nat o1 eq_refl) as (_ & H & Hrd & _).
    split; [|exact Hrd]. rewrite H. unfold OBSTACLE_GAP. simpl. lra. }
  assert (H2 : Obstacle.y o2 = -540 /\ Obstacle.radius o2 = 140).
  { destruct (Hnth 2%nat o2 eq_refl) as (_ & H & Hrd & _).
    split; [|exact Hrd]. rewrite H. unfold OBSTACLE_GAP. simpl. lra. }
  assert (H3 : Obstacle.y o3 = -840 /\ Obstacle.radius o3 = 140).
  { destruct (Hnth 3%nat o3 eq_refl) as (_ & H & Hrd & _).
    split; [|exact Hrd]. rewrite H. unfold OBSTACLE_GAP. simpl. lra. }
  assert (H4 : Obstacle.y o4 = -1140 /\ Obstacle.radius o4 = 140).
  { destruct (Hnth 4%nat o4 eq_refl) as (_ & H & Hrd & _).
    split; [|exact Hrd]. rewrite H. unfold OBSTACLE_GAP. simpl. lra. }
  unfold offAxis. rewrite Hobs.
  repeat apply conj; try assumption.
  - rewrite Hx. lra.
  - rewrite Hy. lra.
  - intros o [<- | [<- | [<- | [<- | [<- | []]]]]]; tauto.
  - lia.
  - cbn [map skipn]. unfold startHeights.
    destruct H0 as [-> _], H1 as [-> _], H2 as [-> _], H3 as [-> _],
             H4 as [-> _].
    reflexivity.
Qed.

Lemma climbTime_step (m : nat) :
  deltaTimeOf (climbTime m) (climbTime (S m)) = 12.
Proof.
  pose proof (climbTime_positive m) as Hpos.
  unfold deltaTimeOf, truthy.
  destruct (Req_dec_T (climbTime m) 0) as [H0 | _]; [lra|].
  unfold climbTime. rewrite S_INR. lra.
Qed.

(** The climb: the first twelve frames. *)
Lemma climb_reaches (m : nat) :
  (1 <= m <= 12)%nat ->
  exists w : World.t, session zeroRandom w 5 /\ climbing m w.
Proof.
  induction m as [|m IH]; [lia|]. intros Hm.
  destruct (Nat.eq_dec m 0) as [-> | Hpos].
  - assert (Hs : session zeroRandom
                   (Component.world (mount zeroRandom 400 200 0%Z 0)) 5).
    { apply session_mount. lra. }
    destruct (climb_frame _ 0 0 140 0 0 1 Hs mount_offAxis)
      as (w' & j' & Hs' & Hoff & _ & _).
    + pose proof (climbTime_positive 0). lra.
    + unfold deltaTimeOf, truthy.
      destruct (Req_dec_T 0 0); [reflexivity|contradiction].
    + lra.
    + lra.
    + lra.
    + lra.
    + lra.
    + exists w'. split; [exact Hs'|].
      destruct Hoff as (Hst & Hx & Hr & Hy & Hc & Hl & Hrad & Hj & Hys).
      unfold climbing. cbv zeta. rewrite Hst, Hx, Hr, Hy, Hc, Hl.
      simpl INR. repeat apply conj; try reflexivity; try lra.
      * lia.
      * exact Hrad.
      * exists j'. split; [exact Hj|]. split; [lia|exact Hys].
  - destruct IH as (w & Hs & Hclimb); [lia|].
    destruct Hclimb
      as (Hst & Hx & Hr & Hy & Hl & Hcam & Hgap & Hrad & j & Hj & Hlate
          & Hys).
    cbv zeta in *.
    assert (Hm1 : 1 <= INR m <= 11).
    { split.
      - change 1 with (INR 1). apply le_INR. lia.
      - replace 11 with (INR 11) by (simpl; lra). apply le_INR. lia. }
    destruct m as [|k]; [lia|].
    replace (S k - 1)%nat with k in Hl by lia.
    set (Y := 131.35 - 57.6 * (INR (S k) - 1)) in *.
    set (cam := GameState.cameraY (World.game w)) in *.
    assert (HY : Y = 131.35 - 57.6 * (INR (S k) - 1)) by reflexivity.
    assert (Hc : GameState.cameraY (World.game w) = cam) by reflexivity.
    clearbody Y cam.
    assert (Hoff : offAxis w j Y cam (climbTime k)).
    { unfold offAxis. repeat apply conj; try assumption; reflexivity. }
    destruct (climb_frame w j (S k) Y cam (climbTime k) 12 Hs Hoff)
      as (w' & j' & Hs' & Hoff' & Hjj & Hone).
    + unfold climbTime. rewrite S_INR. lra.
    + apply climbTime_step.
    + lra.
    + lra.
    + lra.
    + lra.
    + lra.
    + exists w'. split; [exact Hs'|].
      destruct Hoff'
        as (Hst' & Hx' & Hr' & Hy' & Hc' & Hl' & Hrad' & Hj' & Hys').
      unfold climbing. cbv zeta. rewrite Hst', Hx', Hr', Hy', Hc', Hl'.
      replace (S (S k) - 1)%nat with (S k) by lia.
      rewrite (S_INR (S k)).
      repeat apply conj; try reflexivity.
      * lra.
      * lra.
      * lra.
      * intros _. lra.
      * exact Hrad'.
      * exists j'. split; [exact Hj'|]. split; [|exact Hys'].
        intros Hlast. apply Hone.
        assert (Hk : INR (S k) = 11).
        { replace 11 with (INR 11) by (simpl; lra). f_equal. lia. }
        lra.
Qed.

(** The count of a session is the number of obstacles created: a call
    appends [appended f w] obstacles to the array before it prunes. *)
Lemma appended_spec (rnd : nat -> R) (f : Frame.t) (w : World.t)
    (t : Tick.t) :
  gameLoop rnd f w = Some t ->
  exists (keep : Obstacle.t -> bool) (news : list Obstacle.t),
    length news = appended f w
    /\ map Obstacle.y (GameState.obstacles (World.game (Tick.world t)))
       = map Obstacle.y
           (filter keep (GameState.obstacles (World.game w) ++ news)).
Proof.
  intros Hloop. unfold appended.
  destruct (Frame.gameStatus f) eqn:Hgs.
  - destruct (gameLoop_playing rnd f w t Hloop Hgs)
      as (_ & _ & _ & _ & _ & _ & _ & Hend).
    destruct Hend as [(Hcol & _ & _ & _ & Hobs)
                     | (Hcol & h & Hh & Hobs & _)]; rewrite Hcol.
    + exists (fun _ => true), []. split; [reflexivity|].
      rewrite Hobs, app_nil_r, filter_all by reflexivity.
      apply evolved_heights.
    + rewrite Hh. rewrite generatedObstacles_spec in Hobs.
      set (keep := fun y => onScreen (movedCamera f w) (Frame.height f) y).
      assert (Hfil : forall l : list Obstacle.t,
                 map Obstacle.y
                   (filter (fun o => keep (Obstacle.y o)) (map (evolve f w) l))
                 = map Obstacle.y (filter (fun o => keep (Obstacle.y o)) l)).
      { induction l as [|o l IH]; [reflexivity|]. cbn [map filter].
        destruct (evolve_same f w o) as [(_ & _ & Hy & _) _].
        rewrite Hy. destruct (keep (Obstacle.y o)); cbn [map];
          rewrite IH; congruence. }
      exists (fun o => keep (Obstacle.y o)).
      destruct (nearFrontier f w h).
      * exists [newObstacle rnd f w h]. split; [reflexivity|].
        rewrite Hobs, scoredObstacles_evolve, !filter_app, !map_app.
        now rewrite Hfil.
      * exists []. split; [reflexivity|].
        rewrite Hobs, scoredObstacles_evolve, app_nil_r. apply Hfil.
  - exists (fun _ => true), []. split; [reflexivity|].
    rewrite app_nil_r, filter_all by reflexivity.
    destruct (gameLoop_paused rnd f w t Hloop Hgs) as [Hw _].
    now rewrite Hw.
Qed.

(** C2 (the index [gameLoop] passes, against the generation index).
    A session on a 400 by 200 canvas, the random source answering 0: the
    window is widened to 1200, so that the ball, at x = 200, climbs
    beside the lane, and the player taps before every animation frame,
    the frames 200.04 ms apart.  After twelve frames the session has
    created the 5 initial obstacles, of generation indices 0 to 4, and
    the lowest of them has been pruned: the array holds 4.  The first
    call of the thirteenth frame creates the sixth obstacle of the
    session, of generation index 5, for which the rule gives a
    [dotCircle]; [gameLoop] passes the length of the array, 4, and the
    obstacle is a [ring]. *)
Theorem new_obstacle_type_follows_array_length :
  exists (w : World.t) (t : Tick.t) (new : Obstacle.t),
    session zeroRandom w 5
    /\ length (GameState.obstacles (World.game w)) = 4%nat
    /\ gameLoop zeroRandom (wideFrame 12) w = Some t
    /\ appended (wideFrame 12) w = 1%nat
    /\ session zeroRandom (Tick.world t) 6
    /\ GameState.status (World.game (Tick.world t)) = playing
    /\ GameState.obstacles (World.game (Tick.world t))
       = map (evolve (wideFrame 12) w)
           (GameState.obstacles (World.game w)) ++ [new]
    /\ Obstacle.y new = -1440
    /\ Obstacle.passed new = false
    /\ Obstacle.type new = ring
    /\ spec_type 5 = dotCircle.
Proof.
  destruct (climb_reaches 12) as (w0 & Hs0 & Hclimb); [lia|].
  destruct Hclimb
    as (Hst & Hx & Hr & Hy & Hl & Hcam & Hgap & Hrad & j & Hj & Hlate & Hys).
  cbv zeta in *.
  assert (j = 1%nat) by (apply Hlate; lia). subst j. clear Hlate Hj.
  specialize (Hgap ltac:(lia)).
  replace (12 - 1)%nat with 11%nat in Hl by reflexivity.
  replace (INR 12 - 1) with 11 in * by (simpl; lra).
  set (w := handleTap gsPlaying w0). set (f := wideFrame 12).
  assert (Hsw : session zeroRandom w 5) by (apply session_tap; exact Hs0).
  assert (Hdt : deltaTime f w = 12).
  { unfold deltaTime. change (World.lastTime w) with (World.lastTime w0).
    rewrite Hl. apply climbTime_step. }
  assert (Hgs : Frame.gameStatus f = gsPlaying) by reflexivity.
  assert (Hfw : Frame.width f = 1200) by reflexivity.
  assert (Hfh : Frame.height f = 200) by reflexivity.
  assert (Hobsw : GameState.obstacles (World.game w)
                  = GameState.obstacles (World.game w0)) by reflexivity.
  assert (Hlw : World.lastTime w = World.lastTime w0) by reflexivity.
  destruct (movedBall_motion f w) as (_ & Hy' & _). cbv zeta in Hy'.
  rewrite Hdt in Hy'.
  change (Ball.y (GameState.ball (World.game w)))
    with (Ball.y (GameState.ball (World.game w0))) in Hy'.
  change (Ball.velocity (GameState.ball (World.game w))) with (-9) in Hy'.
  rewrite Hy in Hy'.
  assert (Hc' : movedCamera f w
                = GameState.cameraY (World.game w0)
                  + (Ball.y (movedBall f w) - 140
                     - GameState.cameraY (World.game w0)) * 0.1).
  { unfold movedCamera, followBall. rewrite Hfh.
    change (GameState.cameraY (World.game w))
      with (GameState.cameraY (World.game w0)). lra. }
  destruct (beside_lane f w 1 Hfw Hx Hr Hrad (le_n 1) Hys) as [Hcol Hhigh].
  assert (Hnear : nearFrontier f w (-1140) = true).
  { unfold nearFrontier, OBSTACLE_GAP. apply Rltb_true. lra. }
  assert (Hout : fallsOut f w = false).
  { unfold fallsOut, belowBoundary. apply Rgtb_false. rewrite Hfh. lra. }
  assert (Hlen : length (GameState.obstacles (World.game w)) = 4%nat).
  { rewrite <- (length_map Obstacle.y), Hobsw, Hys. reflexivity. }
  destruct (gameLoop_defined zeroRandom f w) as [t Hloop].
  { intros Hnil. rewrite Hnil in Hlen. discriminate. }
  assert (Happ : appended f w = 1%nat).
  { unfold appended. now rewrite Hgs, Hcol, Hhigh, Hnear. }
  destruct (gameLoop_playing zeroRandom f w t Hloop Hgs)
    as (_ & _ & _ & _ & _ & _ & _ & Hend).
  destruct Hend as [(Hcol' & _) | (_ & h & Hh' & Hobs & Hend)];
    [congruence|].
  assert (h = -1140) by congruence. subst h.
  destruct Hend as [(Hout' & _) | (_ & Hst' & _)]; [congruence|].
  rewrite generatedObstacles_spec, Hnear in Hobs.
  destruct (createObstacle_fields zeroRandom (Frame.width f)
              (-1140 - OBSTACLE_GAP) (length (scoredObstacles f w))
              (World.lastObstacleSpeed w) (World.randomCalls w))
    as (Hty & Hny & _ & Hnp).
  cbv zeta in Hty, Hny, Hnp. fold (newObstacle zeroRandom f w (-1140)) in *.
  rewrite scoredObstacles_evolve, length_map, Hlen in Hty.
  unfold OBSTACLE_GAP in Hny.
  exists w, t, (newObstacle zeroRandom f w (-1140)).
  split; [exact Hsw|]. split; [exact Hlen|]. split; [exact Hloop|].
  split; [exact Happ|]. split.
  { replace 6%nat with (5 + appended f w)%nat
      by (rewrite Happ; reflexivity).
    eapply session_call; [exact Hsw| |exact Hloop].
    rewrite Hlw, Hl. unfold f, wideFrame, climbTime. cbn. lra. }
  split; [now rewrite Hst'|]. split.
  { rewrite Hobs, <- scoredObstacles_evolve. apply filter_all.
    intros o Hin. unfold onScreen. apply Rltb_true. rewrite Hfh.
    apply in_app_or in Hin. destruct Hin as [Hin | [<- | []]].
    - assert (Hyo : In (Obstacle.y o) (skipn 1 startHeights)).
      { rewrite <- Hys, <- Hobsw, <- (evolved_heights f w).
        now apply in_map. }
      cbn in Hyo.
      destruct Hyo as [<- | [<- | [<- | [<- | []]]]]; lra.
    - rewrite Hny. lra. }
  split; [rewrite Hny; lra|]. split; [exact Hnp|].
  split; [exact Hty|reflexivity].
Qed.

(** ** A session that schedules a colour change

    The climb beside the lane again, now with the score, the flags and
    the pending colour change: the ball passes the margin line of the
    obstacle at 60 in the sixth frame and that of the obstacle at -240
    in the first call of the eleventh, which takes the score to 2 and
    schedules a colour change. *)

Lemma crosses_rotated (b : Ball.t) (dt : R) (o : Obstacle.t) :
  crosses b (rotateObstacle dt o)
  = negb (Obstacle.passed o)
    && Rltb (Ball.y b) (Obstacle.y o - Obstacle.radius o - 20).
Proof. reflexivity. Qed.

(** The obstacles that a call flags, counted on their heights. *)
Lemma climb_count (f : Frame.t) (w : World.t) (Y Y' : R) :
  (forall o, In o (GameState.obstacles (World.game w)) ->
             Obstacle.radius o = 140) ->
  (forall o, In o (GameState.obstacles (World.game w)) ->
             Obstacle.passed o = Rltb Y (Obstacle.y o - 160)) ->
  Ball.y (movedBall f w) = Y' ->
  length (crossing f w)
  = length (filter (fun y => negb (Rltb Y (y - 160)) && Rltb Y' (y - 160))
              (map Obstacle.y (GameState.obstacles (World.game w)))).
Proof.
  intros Hrad Hflag Hy. unfold crossing, rotated.
  set (b := movedBall f w) in *. clearbody b.
  revert Hrad Hflag.
  generalize (GameState.obstacles (World.game w)) as l.
  induction l as [|o l IH]; intros Hrad Hflag; [reflexivity|].
  cbn [map filter]. rewrite crosses_rotated.
  rewrite (Hrad o (or_introl eq_refl)), (Hflag o (or_introl eq_refl)), Hy.
  replace (Obstacle.y o - 140 - 20) with (Obstacle.y o - 160) by lra.
  assert (Hl : length (filter (crosses b) (map (rotateObstacle (deltaTime f w)) l))
               = length (filter (fun y => negb (Rltb Y (y - 160))
                                          && Rltb Y' (y - 160))
                           (map Obstacle.y l))).
  { apply IH; intros o' Hin; [apply Hrad|apply Hflag]; now right. }
  destruct (negb (Rltb Y (Obstacle.y o - 160))
            && Rltb Y' (Obstacle.y o - 160)); cbn [length]; now rewrite Hl.
Qed.

Ltac split_Rltb :=
  repeat match goal with
         | |- context [Rltb ?a ?b] =>
             let E := fresh "E" in
             destruct (Rltb a b) eqn:E;
             [apply Rltb_true in E | apply Rltb_false in E];
             try (exfalso; lra)
         end.

Lemma climb_score_count (j : nat) (Y Y' : R) :
  (j <= 1)%nat ->
  (j = 1%nat -> Y < -100) ->
  Y' <= Y ->
  -540 <= Y' ->
  Z.of_nat
    (length (filter (fun y => negb (Rltb Y (y - 160)) && Rltb Y' (y - 160))
               (skipn j startHeights)))
  = (climbScore Y' - climbScore Y)%Z.
Proof.
  intros Hj Hpruned Hle Hlow.
  assert (Hcase : j = 0%nat \/ j = 1%nat) by lia.
  destruct Hcase as [-> | ->].
  - clear Hpruned. cbn [skipn startHeights filter]. unfold climbScore.
    split_Rltb; reflexivity.
  - specialize (Hpruned eq_refl).
    cbn [skipn startHeights filter]. unfold climbScore.
    split_Rltb; reflexivity.
Qed.

(** The flag of an obstacle after a call in which the ball does not
    come down. *)
Lemma climb_flags (f : Frame.t) (w : World.t) (Y Y' : R) (o : Obstacle.t) :
  Obstacle.radius o = 140 ->
  Obstacle.passed o = Rltb Y (Obstacle.y o - 160) ->
  Ball.y (movedBall f w) = Y' ->
  Y' <= Y ->
  Obstacle.passed (evolve f w o)
  = Rltb Y' (Obstacle.y (evolve f w o) - 160).
Proof.
  intros Hr Hp Hy Hle.
  destruct (evolve_same f w o) as [(_ & _ & Hyo & _) ->].
  rewrite Hyo, crosses_rotated, Hp, Hr, Hy.
  replace (Obstacle.y o - 140 - 20) with (Obstacle.y o - 160) by lra.
  destruct (Rltb Y (Obstacle.y o - 160)) eqn:E1,
           (Rltb Y' (Obstacle.y o - 160)) eqn:E2; try reflexivity.
  apply Rltb_true in E1. apply Rltb_false in E2. lra.
Qed.

(** The obstacles after a call of the climb that appends nothing. *)
Lemma beside_call_kept (rnd : nat -> R) (f : Frame.t) (w : World.t)
    (t : Tick.t) (j : nat) :
  gameLoop rnd f w = Some t ->
  Frame.width f = 1200 ->
  Frame.height f = 200 ->
  Frame.gameStatus f = gsPlaying ->
  Ball.x (GameState.ball (World.game w)) = 200 ->
  Ball.radius (GameState.ball (World.game w)) = 15 ->
  (forall o, In o (GameState.obstacles (World.game w)) ->
             Obstacle.radius o = 140) ->
  (j <= 1)%nat ->
  map Obstacle.y (GameState.obstacles (World.game w))
  = skipn j startHeights ->
  -540 <= Ball.y (movedBall f w) ->
  GameState.obstacles (World.game (Tick.world t))
  = filter (fun o => onScreen (movedCamera f w) (Frame.height f)
                       (Obstacle.y o))
      (map (evolve f w) (GameState.obstacles (World.game w))).
Proof.
  intros Hloop Hw Hh Hgs Hx Hr Hrad Hj Hys Hfar.
  destruct (beside_lane f w j Hw Hx Hr Hrad Hj Hys) as [Hcol Hhigh].
  assert (Hnear : nearFrontier f w (-1140) = false).
  { unfold nearFrontier, OBSTACLE_GAP. apply Rltb_false. lra. }
  destruct (gameLoop_playing rnd f w t Hloop Hgs)
    as (_ & _ & _ & _ & _ & _ & _ & Hend).
  destruct Hend as [(Hcol' & _) | (_ & h & Hh' & Hobs & _)];
    [congruence|].
  assert (h = -1140) by congruence. subst h.
  rewrite generatedObstacles_spec, Hnear in Hobs.
  now rewrite Hobs, scoredObstacles_evolve.
Qed.

(** One call of the climb, with what it makes of the score, of the
    flags and of the pending colour change. *)
Lemma offAxis_call_scored (rnd : nat -> R) (f : Frame.t) (w : World.t)
    (j : nat) (Y cam last v dt : R) :
  offAxis w j Y cam last ->
  scoredClimb w j ->
  World.pendingColorChange w = None ->
  Ball.velocity (GameState.ball (World.game w)) = v ->
  Frame.width f = 1200 ->
  Frame.height f = 200 ->
  Frame.gameStatus f = gsPlaying ->
  deltaTime f w = dt ->
  let Y' := Y + (v + 0.35 * dt) * dt in
  let cam' := cam + (Y' - 140 - cam) * 0.1 in
  -540 <= Y' ->
  Y' <= cam' + 250 ->
  -640 < cam' ->
  Y' <= Y ->
  -400 <= Y ->
  (cam' + 400 <= 60 -> Y' < -100) ->
  exists (t : Tick.t) (j' : nat),
    gameLoop rnd f w = Some t
    /\ appended f w = 0%nat
    /\ offAxis (Tick.world t) j' Y' cam' (Frame.timestamp f)
    /\ scoredClimb (Tick.world t) j'
    /\ World.pendingColorChange (Tick.world t)
       = if Rltb Y' (-400)
         then Some (Pending.mk (Frame.timestamp f + 1000) (Some purple))
         else None.
Proof.
  intros Hoff (Hcolor & Hscore & Hflags & Hpruned) Hpend Hv Hw Hh Hgs Hdt
         Y' cam' Hfar Hfall Hcam Hle Hlow Hprune.
  destruct (offAxis_call rnd f w j Y cam last v dt Hoff Hv Hw Hh Hgs Hdt
              Hfar Hfall Hcam)
    as (t & j' & Hloop & Happ & Hoff' & Hjj & Hone).
  destruct Hoff as (Hst & Hx & Hr & Hy & Hc & Hl & Hrad & Hj & Hys).
  rewrite Hy in Hscore, Hflags, Hpruned.
  destruct (movedBall_motion f w) as (_ & Hy' & _). cbv zeta in Hy'.
  rewrite Hy, Hv, Hdt in Hy'. fold Y' in Hy'.
  assert (Hc' : movedCamera f w = cam').
  { unfold movedCamera, followBall. rewrite Hy', Hh, Hc.
    unfold cam'. lra. }
  destruct (gameLoop_playing rnd f w t Hloop Hgs)
    as (Hb & _ & Hs & _ & Hp' & _).
  assert (Hkept := beside_call_kept rnd f w t j Hloop Hw Hh Hgs Hx Hr Hrad
                     Hj Hys).
  rewrite Hy', Hc', Hh in Hkept. specialize (Hkept Hfar).
  assert (Hcount : Z.of_nat (length (crossing f w))
                   = (climbScore Y' - climbScore Y)%Z).
  { rewrite (climb_count f w Y Y' Hrad Hflags Hy'), Hys.
    now apply climb_score_count. }
  pose proof (applied_color f w) as Ha. rewrite Hpend in Ha.
  destruct Ha as (Ha1 & Ha2).
  assert (Hcol' : Ball.color (movedBall f w) = Some cyan).
  { rewrite <- Hcolor, <- Ha1. reflexivity. }
  destruct Hoff' as (Hst' & Hx1 & Hr1 & Hy1 & Hc1 & Hl1 & Hrad1 & Hj1 & Hys1).
  fold Y' in Hy1, Hc1, Hone. fold cam' in Hc1, Hone.
  exists t, j'. split; [exact Hloop|]. split; [exact Happ|].
  split; [unfold offAxis; auto 10|]. split.
  - unfold scoredClimb. cbv zeta. rewrite Hy1. repeat apply conj.
    + now rewrite Hb.
    + rewrite Hs, scoredScore_count, Hscore. lia.
    + intros o' Hin. rewrite Hkept in Hin. apply filter_In in Hin.
      destruct Hin as [Hin _]. apply in_map_iff in Hin.
      destruct Hin as (o & <- & Hin).
      apply (climb_flags f w Y Y'); auto.
    + intros ->.
      assert (Hcase : j = 0%nat \/ j = 1%nat) by lia.
      destruct Hcase as [-> | ->]; [|specialize (Hpruned eq_refl); lra].
      destruct (Rle_dec (cam' + 400) 60) as [Hout | Hin];
        [now apply Hprune|].
      exfalso. cbn [skipn] in Hys.
      destruct (GameState.obstacles (World.game w)) as [|o0 rest] eqn:Hobs;
        [discriminate|].
      cbn [map startHeights] in Hys. injection Hys as Hy0 _.
      assert (Hin0 : In (Obstacle.y (evolve f w o0))
                       (skipn 1 startHeights)).
      { rewrite <- Hys1. apply in_map. rewrite Hkept. apply filter_In.
        split; [cbn [map]; now left|].
        destruct (evolve_same f w o0) as [(_ & _ & Hyo & _) _].
        rewrite Hyo, Hy0. unfold onScreen. apply Rltb_true. lra. }
      destruct (evolve_same f w o0) as [(_ & _ & Hyo & _) _].
      rewrite Hyo, Hy0 in Hin0. cbn in Hin0.
      destruct Hin0 as [H | [H | [H | [H | []]]]]; lra.
  - rewrite Hp', scoredPending_spec. unfold appliedPending. 
    fold (appliedPending f w). rewrite Ha2, Hcol', Hscore.
    change (nextColor (Some cyan)) with (Some purple).
    unfold climbScore in Hcount |- *.
    destruct (Rltb Y (-400)) eqn:E0;
      [apply Rltb_true in E0; lra|clear E0].
    destruct (Rltb Y (-100)) eqn:E1, (Rltb Y' (-100)) eqn:E2,
             (Rltb Y' (-400)) eqn:E3;
      repeat match goal with
             | H : Rltb _ _ = true |- _ => apply Rltb_true in H
             | H : Rltb _ _ = false |- _ => apply Rltb_false in H
             end;
      try (exfalso; lra);
      match type of Hcount with
      | Z.of_nat ?k = _ =>
          first [ replace k with 0%nat by lia
                | replace k with 1%nat by lia
                | replace k with 2%nat by lia ]
      end; reflexivity.
Qed.

Lemma mount_scoredClimb :
  scoredClimb (Component.world (mount zeroRandom 400 200 0%Z 0)) 0.
Proof.
  destruct (mount_obstacles zeroRandom 400 200 0%Z 0)
    as (_ & Hy & _ & _ & Hnth).
  destruct (mount_motion zeroRandom 400 200 0%Z 0)
    as (Hscore & _ & _ & _ & (m & Hcol) & _).
  cbv zeta in *. unfold scoredClimb. cbv zeta. rewrite Hy.
  repeat apply conj.
  - rewrite Hcol. apply zeroRandom_color.
  - rewrite Hscore. unfold climbScore.
    rewrite !(proj2 (Rltb_false _ _)) by lra. reflexivity.
  - intros o Hin. apply In_nth_error in Hin. destruct Hin as [i Hi].
    destruct (Hnth i o Hi) as (_ & Hyo & _ & Hpo).
    rewrite Hpo, Hyo. symmetry. apply Rltb_false.
    unfold OBSTACLE_GAP. pose proof (pos_INR i). lra.
  - discriminate.
Qed.

(** One animation frame of the climb, while the ball stays below the
    margin line at -400. *)
Lemma climb_frame_scored (w : World.t) (j k : nat) (Y cam last dt : R) :
  session zeroRandom w 5 ->
  offAxis w j Y cam last ->
  scoredClimb w j ->
  World.pendingColorChange w = None ->
  last <= climbTime k ->
  deltaTimeOf last (climbTime k) = dt ->
  let Y' := Y + (-9 + 0.35 * dt) * dt in
  let camA := cam + (Y' - 140 - cam) * 0.1 in
  let camB := camA + (Y' - 140 - camA) * 0.1 in
  -400 <= Y' ->
  Y' <= Y ->
  Y' <= camA + 250 ->
  -640 < camA ->
  Y' <= camB + 250 ->
  -640 < camB ->
  (camA + 400 <= 60 -> Y' < -100) ->
  (camB + 400 <= 60 -> Y' < -100) ->
  exists (w' : World.t) (j' : nat),
    session zeroRandom w' 5
    /\ offAxis w' j' Y' camB (climbTime k)
    /\ scoredClimb w' j'
    /\ World.pendingColorChange w' = None.
Proof.
  intros Hs Hoff Hsc Hpend Hlast Hdt Y' camA camB Hlow Hle HfallA HcamA
         HfallB HcamB HpruneA HpruneB.
  destruct (offAxis_tap w j Y cam last Hoff) as [Htap Hv].
  assert (Hl : World.lastTime (handleTap gsPlaying w) = last).
  { now destruct Htap as (_ & _ & _ & _ & _ & Hl & _). }
  assert (HY : Ball.y (GameState.ball (World.game w)) = Y).
  { now destruct Hoff as (_ & _ & _ & HY & _). }
  assert (HlowY : -400 <= Y) by lra.
  destruct (offAxis_call_scored zeroRandom (wideFrame k)
              (handleTap gsPlaying w) j Y cam last (-9) dt Htap Hsc Hpend
              Hv eq_refl eq_refl eq_refl)
    as (tA & jA & HloopA & HappA & HoffA & HscA & HpendA); try assumption.
  { unfold deltaTime. now rewrite Hl. }
  { fold Y'. lra. }
  fold Y' camA in HoffA, HpendA.
  rewrite (proj2 (Rltb_false Y' (-400))) in HpendA by lra.
  assert (HsA : session zeroRandom (Tick.world tA) 5).
  { replace 5%nat
      with (5 + appended (wideFrame k) (handleTap gsPlaying w))%nat
      by (rewrite HappA; reflexivity).
    eapply session_call; [apply session_tap; exact Hs| |exact HloopA].
    rewrite Hl. exact Hlast. }
  assert (HlA : World.lastTime (Tick.world tA) = climbTime k).
  { now destruct HoffA as (_ & _ & _ & _ & _ & HlA & _). }
  pose proof (climbTime_positive k) as Hpos.
  assert (HdtB : deltaTime (wideFrame k) (Tick.world tA) = 0).
  { rewrite deltaTime_later by (rewrite HlA; lra).
    rewrite HlA. cbn [wideFrame Frame.timestamp]. lra. }
  destruct (offAxis_call_scored zeroRandom (wideFrame k) (Tick.world tA) jA
              Y' camA (climbTime k)
              (Ball.velocity (GameState.ball (World.game (Tick.world tA))))
              0 HoffA HscA HpendA eq_refl eq_refl eq_refl eq_refl HdtB)
    as (tB & jB & HloopB & HappB & HoffB & HscB & HpendB).
  - lra.
  - fold camA. replace (Y' + _) with Y' by lra. fold camB. lra.
  - replace (Y' + _) with Y' by lra. fold camB. lra.
  - lra.
  - lra.
  - replace (Y' + _) with Y' by lra. fold camB. exact HpruneB.
  - exists (Tick.world tB), jB.
    replace (Y' + _) with Y' in HoffB, HpendB by lra.
    fold camB in HoffB.
    rewrite (proj2 (Rltb_false Y' (-400))) in HpendB by lra.
    split; [|split; [exact HoffB|split; [exact HscB|exact HpendB]]].
    replace 5%nat with (5 + appended (wideFrame k) (Tick.world tA))%nat
      by (rewrite HappB; reflexivity).
    eapply session_call; [exact HsA| |exact HloopB].
    rewrite HlA. cbn. lra.
Qed.

(** The first ten frames of the climb: the score is that of the height
    the ball has reached, and no colour change is pending. *)
Lemma climb_scored (m : nat) :
  (1 <= m <= 10)%nat ->
  exists (w : World.t) (j : nat) (cam : R),
    session zeroRandom w 5
    /\ offAxis w j (131.35 - 57.6 * (INR m - 1)) cam (climbTime (m - 1))
    /\ 131.35 - 57.6 * (INR m - 1) - 140 <= cam
    /\ cam <= 131.35 - 57.6 * (INR m - 1) - 140 + 250
    /\ scoredClimb w j
    /\ World.pendingColorChange w = None.
Proof.
  induction m as [|m IH]; [lia|]. intros Hm.
  destruct (Nat.eq_dec m 0) as [-> | Hpos].
  - assert (Hs : session zeroRandom
                   (Component.world (mount zeroRandom 400 200 0%Z 0)) 5).
    { apply session_mount. lra. }
    assert (Hpend : World.pendingColorChange
                      (Component.world (mount zeroRandom 400 200 0%Z 0))
                    = None).
    { now destruct (mount_motion zeroRandom 400 200 0%Z 0)
        as (_ & _ & _ & _ & _ & _ & Hp & _). }
    destruct (climb_frame_scored _ 0 0 140 0 0 1 Hs mount_offAxis
                mount_scoredClimb Hpend)
      as (w' & j' & Hs' & Hoff & Hsc & Hp').
    + pose proof (climbTime_positive 0). lra.
    + unfold deltaTimeOf, truthy.
      destruct (Req_dec_T 0 0); [reflexivity|contradiction].
    + lra.
    + lra.
    + lra.
    + lra.
    + lra.
    + lra.
    + lra.
    + lra.
    + exists w', j', (0 + (140 + (-9 + 0.35 * 1) * 1 - 140 - 0) * 0.1
                      + (140 + (-9 + 0.35 * 1) * 1 - 140
                         - (0 + (140 + (-9 + 0.35 * 1) * 1 - 140 - 0) * 0.1))
                        * 0.1).
      split; [exact Hs'|].
      replace (131.35 - 57.6 * (INR 1 - 1)) with (140 + (-9 + 0.35 * 1) * 1)
        by (simpl; lra).
      split; [exact Hoff|]. split; [lra|]. split; [lra|].
      split; [exact Hsc|exact Hp'].
  - destruct IH as (w & j & cam & Hs & Hoff & Hcam1 & Hcam2 & Hsc & Hp);
      [lia|].
    assert (Hm1 : 1 <= INR m <= 9).
    { split.
      - change 1 with (INR 1). apply le_INR. lia.
      - replace 9 with (INR 9) by (simpl; lra). apply le_INR. lia. }
    destruct m as [|k]; [lia|].
    replace (S k - 1)%nat with k in Hoff by lia.
    replace (S (S k) - 1)%nat with (S k) by lia.
    set (Y := 131.35 - 57.6 * (INR (S k) - 1)) in *.
    assert (HY : Y = 131.35 - 57.6 * (INR (S k) - 1)) by reflexivity.
    clearbody Y.
    destruct (climb_frame_scored w j (S k) Y cam (climbTime k) 12 Hs Hoff
                Hsc Hp)
      as (w' & j' & Hs' & Hoff' & Hsc' & Hp').
    + unfold climbTime. rewrite S_INR. lra.
    + apply climbTime_step.
    + lra.
    + lra.
    + lra.
    + lra.
    + lra.
    + lra.
    + lra.
    + lra.
    + exists w', j'. eexists.
      split; [exact Hs'|].
      replace (131.35 - 57.6 * (INR (S (S k)) - 1))
        with (Y + (-9 + 0.35 * 12) * 12)
        by (rewrite (S_INR (S k)); lra).
      split; [exact Hoff'|]. split; [lra|]. split; [lra|].
      split; [exact Hsc'|exact Hp'].
Qed.

(** The first call of the eleventh frame takes the score to 2 and
    schedules the change of the cyan ball to purple. *)
Lemma climb_schedules :
  exists w : World.t,
    session zeroRandom w 5
    /\ World.pendingColorChange w
       = Some (Pending.mk (climbTime 10 + 1000) (Some purple))
    /\ Ball.color (GameState.ball (World.game w)) = Some cyan
    /\ GameState.score (World.game w) = 2%Z.
Proof.
  destruct (climb_scored 10) as (w & j & cam & Hs & Hoff & Hc1 & Hc2 & Hsc & Hp);
    [lia|].
  replace (131.35 - 57.6 * (INR 10 - 1)) with (-387.05) in *
    by (simpl; lra).
  replace (10 - 1)%nat with 9%nat in Hoff by reflexivity.
  destruct (offAxis_tap w j _ cam _ Hoff) as [Htap Hv].
  assert (Hl : World.lastTime (handleTap gsPlaying w) = climbTime 9).
  { now destruct Htap as (_ & _ & _ & _ & _ & Hl & _). }
  destruct (offAxis_call_scored zeroRandom (wideFrame 10)
              (handleTap gsPlaying w) j (-387.05) cam (climbTime 9) (-9) 12
              Htap Hsc Hp Hv eq_refl eq_refl eq_refl)
    as (t & j' & Hloop & Happ & Hoff' & Hsc' & Hpend').
  - unfold deltaTime. rewrite Hl. apply climbTime_step.
  - lra.
  - lra.
  - lra.
  - lra.
  - lra.
  - lra.
  - exists (Tick.world t).
    rewrite (proj2 (Rltb_true _ (-400))) in Hpend' by lra.
    destruct Hsc' as (Hcol & Hscore & _).
    destruct Hoff' as (_ & _ & _ & Hy' & _).
    rewrite Hy' in Hscore.
    split; [|split; [exact Hpend'|split; [exact Hcol|]]].
    + replace 5%nat
        with (5 + appended (wideFrame 10) (handleTap gsPlaying w))%nat
        by (rewrite Happ; reflexivity).
      eapply session_call; [apply session_tap; exact Hs| |exact Hloop].
      rewrite Hl. unfold wideFrame, climbTime. cbn. lra.
    + rewrite Hscore. unfold climbScore.
      rewrite !(proj2 (Rltb_true _ _)) by lra. reflexivity.
Qed.

(** ** The theorems at work on the scenarios *)

Lemma zeroRandom_range : forall n : nat, 0 <= zeroRandom n < 1.
Proof. intros n. unfold zeroRandom. lra. Qed.

Lemma climbing_call :
  exists t : Tick.t,
    gameLoop zeroRandom climbingFrame climbingWorld = Some t.
Proof. apply gameLoop_defined. discriminate. Qed.

Lemma smallCanvas_reachable :
  reachable zeroRandom (Component.world smallCanvas).
Proof. unfold smallCanvas. apply reach_mount. lra. Qed.

Lemma smallCanvas_playing :
  GameState.status (World.game (Component.world smallCanvas)) = playing.
Proof. apply smallCanvas_site. Qed.

(** The speed of the obstacle of index 3 that follows an obstacle of
    speed 0.0144. *)
Lemma createObstacle_speed_rule_witness :
  (forall n : nat, 0 <= zeroRandom n < 1)
  /\ exists (s : R) (attempts : nat),
       speedLoop zeroRandom (obstacleTypeOf 3) 3 0.0144 0 0
       = (s, attempts, (0 + 2 * attempts)%nat)
       /\ (1 <= attempts <= 10)%nat
       /\ s = sampleSpeed zeroRandom (obstacleTypeOf 3) 3
                (0 + 2 * (attempts - 1))
       /\ Obstacle.rotationSpeed
            (fst (createObstacle zeroRandom 400 (-1710) 3 0.0144 0)) = s
       /\ snd (createObstacle zeroRandom 400 (-1710) 3 0.0144 0)
          = (0 + 2 * attempts + 2)%nat
       /\ (s * 0.0144 < 0
           \/ Rabs (Rabs s - Rabs 0.0144) > Rmax (0.2 * Rabs 0.0144) 0.005
           \/ attempts = 10%nat).
Proof.
  split.
  - exact zeroRandom_range.
  - exact (createObstacle_speed_rule zeroRandom zeroRandom_range 400 (-1710)
             3 0.0144 0).
Defined.

Lemma gravity_then_camera_witness :
  exists t : Tick.t,
    gameLoop zeroRandom climbingFrame climbingWorld = Some t
    /\ Frame.gameStatus climbingFrame = gsPlaying
    /\ let dt := deltaTime climbingFrame climbingWorld in
       let b := GameState.ball (World.game climbingWorld) in
       let b' := GameState.ball (World.game (Tick.world t)) in
       let camera := GameState.cameraY (World.game climbingWorld) in
       let camera' := GameState.cameraY (World.game (Tick.world t)) in
       Ball.velocity b' = Ball.velocity b + 0.35 * dt
       /\ Ball.y b' = Ball.y b + Ball.velocity b' * dt
       /\ camera' = camera
                    + ((Ball.y b' - Frame.height climbingFrame * 0.7)
                       - camera) * 0.1
       /\ (Ball.velocity b = 0 -> dt = 1 ->
           Ball.velocity b' = 0.35 /\ Ball.y b' - Ball.y b = 0.35)
       /\ (World.lastTime climbingWorld = 0 -> dt = 1).
Proof.
  destruct climbing_call as [t Ht]. exists t.
  split; [exact Ht|]. split; [reflexivity|].
  exact (gravity_then_camera zeroRandom climbingFrame climbingWorld t Ht
           eq_refl).
Defined.



Lemma passed_is_permanent_witness :
  exists t : Tick.t,
    gameLoop zeroRandom climbingFrame climbingWorld = Some t
    /\ (forall o,
          Obstacle.passed o = true ->
          Obstacle.passed (evolve climbingFrame climbingWorld o) = true)
    /\ Forall (fun o => Obstacle.passed o = false)
         (crossing climbingFrame climbingWorld).
Proof.
  destruct climbing_call as [t Ht]. exists t.
  split; [exact Ht|].
  pose proof (passed_is_permanent zeroRandom climbingFrame climbingWorld t
                Ht) as (Hplay & _).
  destruct (Hplay eq_refl) as (_ & Hev & _ & Hcross & _).
  split; [|exact Hcross].
  intros o. exact (proj1 (proj2 (Hev o))).
Defined.

Lemma color_change_scheduling_witness :
  exists t : Tick.t,
    gameLoop zeroRandom climbingFrame climbingWorld = Some t
    /\ World.pendingColorChange (Tick.world t)
       = scoredPending climbingFrame climbingWorld
    /\ forall q, appliedPending climbingFrame climbingWorld = Some q ->
                 scoredPending climbingFrame climbingWorld = Some q.
Proof.
  destruct climbing_call as [t Ht]. exists t.
  split; [exact Ht|].
  pose proof (color_change_scheduling zeroRandom climbingFrame
                climbingWorld t Ht) as (Hplay & _).
  destruct (Hplay eq_refl) as (Hp & Hq & _).
  split; [exact Hp|exact Hq].
Defined.

Lemma ball_color_in_palette_witness :
  (forall n : nat, 0 <= zeroRandom n < 1)
  /\ exists (w : World.t) (s : Color) (p : Pending.t),
       reachable zeroRandom w
       /\ history zeroRandom w s
       /\ World.pendingColorChange w = Some p
       /\ Ball.color (GameState.ball (World.game w)) = Some cyan
       /\ s = Some cyan
       /\ Pending.newColor p = Some (spec_successor cyan).
Proof.
  split; [exact zeroRandom_range|].
  destruct climb_schedules as (w & Hs & Hpend & Hcol & _).
  pose proof (session_reachable zeroRandom w 5 Hs) as Hreach.
  destruct (ball_color_in_palette zeroRandom zeroRandom_range)
    as (_ & Hr & Hinv).
  destruct (Hr w Hreach) as [s Hh].
  destruct (Hinv w s Hh) as (c & Hc & _ & _ & Hsame & _).
  destruct (Hsame Hreach _ Hpend) as [Hsc Hnew].
  assert (Hcyan : c = cyan) by congruence.
  rewrite Hcyan in Hsc, Hnew.
  exists w, s, (Pending.mk (climbTime 10 + 1000) (Some purple)).
  split; [exact Hreach|]. split; [exact Hh|]. split; [exact Hpend|].
  split; [exact Hcol|]. split; [exact Hsc|exact Hnew].
Defined.

Lemma obstacles_never_empty_witness :
  reachable zeroRandom (Component.world smallCanvas)
  /\ GameState.status (World.game (Component.world smallCanvas)) = playing
  /\ GameState.obstacles (World.game (Component.world smallCanvas)) <> []
  /\ forall f : Frame.t,
       World.lastTime (Component.world smallCanvas) <= Frame.timestamp f ->
       exists t : Tick.t,
         gameLoop zeroRandom f (Component.world smallCanvas) = Some t.
Proof.
  split; [exact smallCanvas_reachable|].
  split; [exact smallCanvas_playing|].
  destruct (obstacles_never_empty zeroRandom (Component.world smallCanvas)
              smallCanvas_reachable smallCanvas_playing)
    as (Hne & _ & Hcall).
  split; [exact Hne|].
  intros f Hts. destruct (Hcall f Hts) as (t & Ht & _).
  exists t. exact Ht.
Defined.

(** * Further properties of the code *)

(** ** The palette *)

(** X1 ([getRandomColor]).  For a random draw in [[0, 1)] the colour is
    never [undefined]: it is the palette colour of the quarter of the
    unit interval the draw falls in. *)
Theorem getRandomColor_quarters (rnd : nat -> R) (n : nat) :
  0 <= rnd n < 1 ->
  getRandomColor rnd n
  = Some (if Rltb (rnd n) 0.25 then cyan
          else if Rltb (rnd n) 0.5 then purple
          else if Rltb (rnd n) 0.75 then pink
          else yellow).
Proof.
  intros Hr. unfold getRandomColor.
  replace (INR (length COLOR_ORDER)) with 4 by (simpl; lra).
  destruct (Rltb (rnd n) 0.25) eqn:H1;
    [|destruct (Rltb (rnd n) 0.5) eqn:H2;
      [|destruct (Rltb (rnd n) 0.75) eqn:H3]];
    repeat match goal with
    | H : Rltb _ _ = true |- _ => apply Rltb_true in H
    | H : Rltb _ _ = false |- _ => apply Rltb_false in H
    end.
  - replace (floor (rnd n * 4)) with 0%Z; [reflexivity|].
    symmetry. apply floor_spec. simpl. lra.
  - replace (floor (rnd n * 4)) with 1%Z; [reflexivity|].
    symmetry. apply floor_spec. simpl. lra.
  - replace (floor (rnd n * 4)) with 2%Z; [reflexivity|].
    symmetry. apply floor_spec. simpl. lra.
  - replace (floor (rnd n * 4)) with 3%Z; [reflexivity|].
    symmetry. apply floor_spec. simpl. lra.
Qed.

Lemma getRandomColor_quarters_witness :
  0 <= zeroRandom 0 < 1 /\ getRandomColor zeroRandom 0 = Some cyan.
Proof.
  split; [exact (zeroRandom_range 0)|].
  rewrite (getRandomColor_quarters zeroRandom 0 (zeroRandom_range 0)).
  unfold zeroRandom. now rewrite (proj2 (Rltb_true 0 0.25)) by lra.
Defined.

(** X2 (the successor colour of the scheduling step).  The colour
    computed by [COLOR_ORDER[(COLOR_ORDER.indexOf(c) + 1) % 4]] is a
    palette colour other than [c]; taking it four times in a row leads
    back to [c]; and for [undefined], which [indexOf] does not find, it
    is the first colour of the palette. *)
Theorem nextColor_cycle (c : GameColor) :
  (exists c' : GameColor, nextColor (Some c) = Some c' /\ c' <> c)
  /\ nextColor (nextColor (nextColor (nextColor (Some c)))) = Some c
  /\ (forall k : GameColor,
        nextColor (Some k) = nextColor (Some c) -> k = c)
  /\ nextColor None = Some cyan.
Proof.
  split; [|split; [|split]].
  - destruct c; cbn; eexists; (split; [reflexivity|discriminate]).
  - destruct c; reflexivity.
  - intros k. destruct c, k; cbn; intros H; try reflexivity;
      discriminate.
  - reflexivity.
Qed.

(** ** Obstacles as they are created *)

(** X3 ([createObstacle]).  With random draws in [[0, 1)], an obstacle
    is never created at rest: the magnitude of its rotation speed lies
    between 0.72 and 1.92 times the base speed of its index, hence
    between 0.00576 and 0.2304 radians per tick; its initial rotation
    lies in [[0, 2 pi)]; and the parameter [canvasWidth] has no
    influence on the result. *)
Theorem createObstacle_ranges (rnd : nat -> R) (cw y : R) (index : nat)
    (p : R) (n : nat) :
  (forall k : nat, 0 <= rnd k < 1) ->
  let o := fst (createObstacle rnd cw y index p n) in
  let base := (0.008 + INR (index mod 11) * 0.004)
              * (if (index mod 5 =? 0)%nat then 2.5 else 1) in
  base * 0.72 <= Rabs (Obstacle.rotationSpeed o) < base * 1.92
  /\ 0.00576 <= Rabs (Obstacle.rotationSpeed o) < 0.2304
  /\ 0 <= Obstacle.rotation o < 2 * PI
  /\ forall cw' : R,
       createObstacle rnd cw' y index p n = createObstacle rnd cw y index p n.
Proof.
  intros Hrnd o base.
  destruct (createObstacle_motion rnd cw y index p n)
    as [[m Hrot] [m' Hspeed]].
  fold o in Hrot, Hspeed.
  assert (Hk : 0 <= INR (index mod 11) <= 10).
  { split; [apply pos_INR|].
    replace 10 with (INR 10) by (simpl; lra). apply le_INR.
    pose proof (Nat.mod_upper_bound index 11). lia. }
  assert (Hbase : 0.008 <= base <= 0.12).
  { unfold base. destruct (index mod 5 =? 0)%nat; lra. }
  assert (Habs : Rabs (Obstacle.rotationSpeed o)
                 = base * (0.6 + rnd (S m')) * 1.2).
  { rewrite Hspeed. unfold sampleSpeed, obstacleTypeOf, base.
    pose proof (Hrnd (S m')) as Hr.
    set (r := rnd (S m')) in *. set (k := INR (index mod 11)) in *.
    destruct (index mod 5 =? 0)%nat;
      [|destruct (index mod 2 =? 0)%nat];
      destruct (Rgtb (rnd m') 0.5);
      (rewrite Rabs_pos_eq by nra; lra)
      || (rewrite Rabs_left by nra; lra). }
  pose proof (Hrnd (S m')) as Hr.
  assert (Hlo : 0 <= base * rnd (S m')) by (apply Rmult_le_pos; lra).
  assert (Hhi : base * rnd (S m') < base * 1)
    by (apply Rmult_lt_compat_l; lra).
  split; [rewrite Habs; lra|]. split; [rewrite Habs; nra|]. split.
  - rewrite Hrot. pose proof (Hrnd m) as Hm. pose proof PI_RGT_0 as HPI.
    split; [apply Rmult_le_pos; [apply Rmult_le_pos|]; lra|].
    replace (2 * PI) with (1 * PI * 2) by ring.
    apply Rmult_lt_compat_r; [lra|]. apply Rmult_lt_compat_r; lra.
  - intros cw'. reflexivity.
Qed.

Lemma createObstacle_ranges_witness :
  (forall k : nat, 0 <= zeroRandom k < 1)
  /\ 0.00576
     <= Rabs (Obstacle.rotationSpeed
                (fst (createObstacle zeroRandom 400 (-1710) 3 0.0144 0)))
     < 0.2304.
Proof.
  split; [exact zeroRandom_range|].
  exact (proj1 (proj2 (createObstacle_ranges zeroRandom 400 (-1710) 3 0.0144
                         0 zeroRandom_range))).
Defined.

(** X4 ([initGame] and [generateInitialObstacles]).  A new game is
    playing with score 0 and the camera at 0, without stars or colour
    switchers; the ball is at rest at the middle of the canvas, seven
    tenths down; there are five unpassed obstacles of radius 140, of the
    types the rule gives for the indices 0 to 4, the first three tenths
    down the canvas and the others 300 apart above it.  The reference
    speed left for the next obstacle is the speed of the fifth, whatever
    it was before. *)
Theorem initGame_layout (rnd : nat -> R) (cw ch : R) (stored : Z) (ls : R)
    (n : nat) :
  let g := fst (fst (initGame rnd cw ch stored ls n)) in
  let ls' := snd (fst (initGame rnd cw ch stored ls n)) in
  GameState.status g = playing
  /\ GameState.score g = 0%Z
  /\ GameState.highScore g = stored
  /\ GameState.cameraY g = 0
  /\ GameState.stars g = []
  /\ GameState.colorSwitchers g = []
  /\ GameState.ball g
     = Ball.mk (cw / 2) (ch * 0.7) 15 0 (getRandomColor rnd n)
  /\ map Obstacle.type (GameState.obstacles g)
     = [dotCircle; halfRing; ring; halfRing; ring]
  /\ map Obstacle.y (GameState.obstacles g)
     = map (fun j => ch * 0.3 - INR j * 300) [0; 1; 2; 3; 4]%nat
  /\ Forall (fun o => Obstacle.radius o = 140 /\ Obstacle.passed o = false)
       (GameState.obstacles g)
  /\ (exists o, nth_error (GameState.obstacles g) 4 = Some o
                /\ ls' = Obstacle.rotationSpeed o)
  /\ forall ls2 : R,
       initGame rnd cw ch stored ls2 n = initGame rnd cw ch stored ls n.
Proof.
  cbv zeta. unfold initGame, generateInitialObstacles.
  destruct (initialLoop_spec rnd 5 0 cw (ch * 0.3) [] (S n))
    as (news & Heq & Hlen & Hnth).
  destruct (initialLoop rnd 5 0 cw (ch * 0.3) [] (S n)) as [obs n1].
  cbn [fst snd app] in *. subst obs.
  destruct news as [|o0 [|o1 [|o2 [|o3 [|o4 [|o5 rest]]]]]];
    try discriminate.
  destruct (Hnth 0%nat o0 eq_refl) as (T0 & Y0 & R0 & P0).
  destruct (Hnth 1%nat o1 eq_refl) as (T1 & Y1 & R1 & P1).
  destruct (Hnth 2%nat o2 eq_refl) as (T2 & Y2 & R2 & P2).
  destruct (Hnth 3%nat o3 eq_refl) as (T3 & Y3 & R3 & P3).
  destruct (Hnth 4%nat o4 eq_refl) as (T4 & Y4 & R4 & P4).
  cbn [GameState.status GameState.score GameState.highScore
       GameState.cameraY GameState.stars GameState.colorSwitchers
       GameState.ball GameState.obstacles map length Nat.ltb Nat.leb
       Nat.sub nth_error Nat.add] in *.
  unfold OBSTACLE_GAP in *.
  repeat apply conj; try reflexivity.
  - rewrite T0, T1, T2, T3, T4. reflexivity.
  - rewrite Y0, Y1, Y2, Y3, Y4. reflexivity.
  - repeat constructor; assumption.
  - exists o4. split; reflexivity.
Qed.

(** ** The first frame *)

(** The first call on a new game, the ball at rest or just tapped, on a
    canvas at least 460 high. *)
Lemma first_call (rnd : nat -> R) (ch : R) (f : Frame.t) (w : World.t) :
  460 <= ch ->
  Frame.height f = ch ->
  Frame.gameStatus f = gsPlaying ->
  World.lastTime w = 0 ->
  GameState.status (World.game w) = playing ->
  GameState.cameraY (World.game w) = 0 ->
  Ball.y (GameState.ball (World.game w)) = ch * 0.7 ->
  Ball.radius (GameState.ball (World.game w)) = 15 ->
  -9 <= Ball.velocity (GameState.ball (World.game w)) <= 0 ->
  (exists o, In o (GameState.obstacles (World.game w))
             /\ Obstacle.y o = ch * 0.3 - 1200) ->
  (forall o, In o (GameState.obstacles (World.game w)) ->
     Obstacle.radius o = 140
     /\ ch * 0.3 - 1200 <= Obstacle.y o <= ch * 0.3) ->
  exists t : Tick.t,
    gameLoop rnd f w = Some t
    /\ GameState.status (World.game (Tick.world t)) = playing
    /\ Tick.events t = []
    /\ Tick.requested t = true
    /\ GameState.score (World.game (Tick.world t))
       = GameState.score (World.game w)
    /\ GameState.obstacles (World.game (Tick.world t)) = rotated f w
    /\ Ball.y (GameState.ball (World.game (Tick.world t)))
       = ch * 0.7 + Ball.velocity (GameState.ball (World.game w)) + 0.35.
Proof.
  intros Hch Hfh Hgs Hlt Hst Hcam Hy Hr Hv (ot & Hot & Hyt) Hobs.
  destruct (gameLoop_defined rnd f w) as [t Hloop].
  { intros Hnil. rewrite Hnil in Hot. destruct Hot. }
  exists t. split; [exact Hloop|].
  pose proof (deltaTime_first f w Hlt) as Hdt.
  destruct (movedBall_motion f w) as (_ & Hy' & _ & Hr').
  cbv zeta in Hy'. rewrite Hdt, Hy in Hy'. rewrite Hr in Hr'.
  set (v := Ball.velocity (GameState.ball (World.game w))) in *.
  assert (Hc' : movedCamera f w = (v + 0.35) * 0.1).
  { unfold movedCamera, followBall. rewrite Hy', Hfh, Hcam. lra. }
  destruct (no_crossing f w) as [Hcross Hscored].
  { intros o Hin. destruct (Hobs o Hin) as [Hrad Hyo].
    rewrite Hy', Hrad. lra. }
  assert (Hrot : forall o, In o (rotated f w) ->
            Obstacle.radius o = 140
            /\ ch * 0.3 - 1200 <= Obstacle.y o <= ch * 0.3).
  { intros o Hin. unfold rotated in Hin. apply in_map_iff in Hin.
    destruct Hin as (o' & <- & Hin). exact (Hobs o' Hin). }
  assert (Hcol : collides f w = false).
  { unfold collides. rewrite Hscored. apply collisionLoop_false.
    intros o Hin. destruct (Hrot o Hin) as [Hrad Hyo].
    apply checkCollision_far. rewrite Hrad, Hr', Hy'.
    rewrite Rabs_pos_eq by lra.
    destruct (Obstacle.type o); cbn; lra. }
  destruct (gameLoop_playing rnd f w t Hloop Hgs)
    as (Hb & Hc & Hs & _ & _ & _ & _ & Hend).
  destruct Hend as [(Hcol' & _) | (_ & h & Hh & Hobs' & Hend)];
    [congruence|].
  unfold highestObstacle in Hh. rewrite Hscored in Hh.
  apply minimum_some in Hh. destruct Hh as [_ Hmin].
  assert (Hyh : h <= ch * 0.3 - 1200).
  { rewrite <- Hyt. apply Hmin. unfold rotated. rewrite map_map.
    apply in_map_iff. exists ot. split; [reflexivity|exact Hot]. }
  assert (Hnear : nearFrontier f w h = false).
  { unfold nearFrontier, OBSTACLE_GAP. apply Rltb_false. rewrite Hy'. lra. }
  assert (Hout : fallsOut f w = false).
  { unfold fallsOut, belowBoundary. apply Rgtb_false.
    rewrite Hy', Hc', Hfh. lra. }
  destruct Hend as [(Hout' & _) | (_ & Hst' & Hev & Hreq)]; [congruence|].
  rewrite generatedObstacles_spec, Hnear, Hscored in Hobs'.
  rewrite scoreEvents_list, Hcross in Hev.
  rewrite scoredScore_count, Hcross in Hs.
  repeat apply conj.
  - now rewrite Hst'.
  - exact Hev.
  - now rewrite Hreq, Hst.
  - rewrite Hs. cbn. lia.
  - rewrite Hobs'. apply filter_all. intros o Ho.
    destruct (Hrot o Ho) as [_ Hyo].
    unfold onScreen. apply Rltb_true. rewrite Hc', Hfh. lra.
  - rewrite Hb, Hy'. lra.
Qed.

(** X5 (the first frame of a game).  On a canvas at least 460 high
    the first call of [gameLoop] on a new game is uneventful, whether
    or not the player has tapped before it, whatever the width, the
    colours and the random draws: its [deltaTime] is 1, it reports no
    collision, sends no notification, keeps the five obstacles and
    leaves the game playing, with a further frame requested. *)
Theorem first_frame_uneventful (rnd : nat -> R) (cw ch : R) (stored : Z)
    (n : nat) (f : Frame.t) (tapped : bool) :
  460 <= ch ->
  Frame.height f = ch ->
  Frame.gameStatus f = gsPlaying ->
  let w0 := Component.world (mount rnd cw ch stored n) in
  let w := if tapped then handleTap gsPlaying w0 else w0 in
  exists t : Tick.t,
    gameLoop rnd f w = Some t
    /\ deltaTime f w = 1
    /\ collides f w = false
    /\ GameState.status (World.game (Tick.world t)) = playing
    /\ Tick.events t = []
    /\ Tick.requested t = true
    /\ GameState.score (World.game (Tick.world t)) = 0%Z
    /\ length (GameState.obstacles (World.game (Tick.world t))) = 5%nat
    /\ Ball.y (GameState.ball (World.game (Tick.world t)))
       = ch * 0.7 + (if tapped then -9 else 0) + 0.35.
Proof.
  intros Hch Hfh Hgs w0 w.
  destruct (mount_obstacles rnd cw ch stored n)
    as (Hst & Hy & Hv & Hlen & Hnth).
  destruct (mount_motion rnd cw ch stored n)
    as (Hsc & Hcam & _ & Hr & _ & Hlt & _).
  cbv zeta in *. fold w0 in Hst, Hy, Hv, Hlen, Hnth, Hsc, Hcam, Hr, Hlt.
  unfold BALL_RADIUS in Hr.
  assert (Hobs : forall o, In o (GameState.obstacles (World.game w0)) ->
            Obstacle.radius o = 140
            /\ ch * 0.3 - 1200 <= Obstacle.y o <= ch * 0.3).
  { intros o Hin. apply In_nth_error in Hin. destruct Hin as [j Hj].
    assert (Hlt5 : (j < 5)%nat).
    { rewrite <- Hlen. apply nth_error_Some. congruence. }
    destruct (Hnth j o Hj) as (_ & Hyo & Hrad & _).
    split; [exact Hrad|]. rewrite Hyo. unfold OBSTACLE_GAP.
    assert (0 <= INR j <= 4).
    { split; [apply pos_INR|].
      replace 4 with (INR 4) by (simpl; lra). apply le_INR. lia. }
    lra. }
  assert (Htop : exists o, In o (GameState.obstacles (World.game w0))
                           /\ Obstacle.y o = ch * 0.3 - 1200).
  { destruct (nth_error (GameState.obstacles (World.game w0)) 4)
      as [o|] eqn:Ho.
    - exists o. split; [now apply nth_error_In in Ho|].
      destruct (Hnth 4%nat o Ho) as (_ & Hyo & _).
      rewrite Hyo. unfold OBSTACLE_GAP. simpl. lra.
    - apply nth_error_None in Ho. lia. }
  assert (Hw : GameState.status (World.game w) = playing
               /\ GameState.cameraY (World.game w) = 0
               /\ Ball.y (GameState.ball (World.game w)) = ch * 0.7
               /\ Ball.radius (GameState.ball (World.game w)) = 15
               /\ Ball.velocity (GameState.ball (World.game w))
                  = (if tapped then -9 else 0)
               /\ GameState.obstacles (World.game w)
                  = GameState.obstacles (World.game w0)
               /\ GameState.score (World.game w) = 0%Z
               /\ World.lastTime w = 0).
  { unfold w. destruct tapped; cbn; repeat apply conj;
      try assumption; reflexivity. }
  destruct Hw as (Hst1 & Hcam1 & Hy1 & Hr1 & Hv1 & Hobs1 & Hsc1 & Hlt1).
  destruct (first_call rnd ch f w Hch Hfh Hgs Hlt1 Hst1 Hcam1 Hy1 Hr1)
    as (t & Hloop & Hst' & Hev & Hreq & Hs' & Hobs' & Hy').
  { rewrite Hv1. destruct tapped; lra. }
  { now rewrite Hobs1. }
  { now rewrite Hobs1. }
  exists t. split; [exact Hloop|].
  split; [now apply deltaTime_first|].
  split.
  { destruct (gameLoop_playing rnd f w t Hloop Hgs)
      as (_ & _ & _ & _ & _ & _ & _ & Hend).
    destruct Hend as [(_ & Hover & _) | (Hcol & _)];
      [congruence|exact Hcol]. }
  split; [exact Hst'|]. split; [exact Hev|]. split; [exact Hreq|].
  split; [now rewrite Hs'|]. split.
  - rewrite Hobs'. unfold rotated. now rewrite length_map, Hobs1.
  - rewrite Hy', Hv1. reflexivity.
Qed.

Lemma first_frame_uneventful_witness :
  460 <= 600
  /\ exists t : Tick.t,
       gameLoop zeroRandom (Frame.mk 16.67 400 600 gsPlaying)
         (handleTap gsPlaying
            (Component.world (mount zeroRandom 400 600 0%Z 0)))
       = Some t
       /\ Tick.events t = [].
Proof.
  split; [lra|].
  destruct (first_frame_uneventful zeroRandom 400 600 0%Z 0
              (Frame.mk 16.67 400 600 gsPlaying) true)
    as (t & Ht & _ & _ & _ & Hev & _); [lra|reflexivity|reflexivity|].
  exists t. split; [exact Ht|exact Hev].
Defined.

(** ** Taps and gravity *)

(** X6 ([handleTap]).  A tap sets the velocity of the ball to the jump
    force whatever it was, so that taps do not add up: the call that
    follows moves the ball by [(-9 + 0.35 dt) dt], upwards for every
    [dt] between 0 and 25.7 ticks.  A tap changes nothing else; it
    does not look at the status of the game, so it acts on a game that
    is over as well; and it does nothing at all when the prop
    [gameStatus] is not ['playing']. *)
Theorem taps_do_not_add_up (f : Frame.t) (w : World.t) :
  let tapped := handleTap gsPlaying w in
  handleTap gsPaused w = w
  /\ tapped = withVelocity (-9) w
  /\ handleTap gsPlaying tapped = tapped
  /\ (forall v : R, handleTap gsPlaying (withVelocity v w) = tapped)
  /\ Ball.y (movedBall f tapped)
     = Ball.y (GameState.ball (World.game w))
       + (-9 + 0.35 * deltaTime f w) * deltaTime f w
  /\ (0 < deltaTime f w < 25.7 ->
      Ball.y (movedBall f tapped) < Ball.y (GameState.ball (World.game w))).
Proof.
  cbv zeta.
  assert (Hdt : deltaTime f (handleTap gsPlaying w) = deltaTime f w)
    by reflexivity.
  destruct (movedBall_motion f (handleTap gsPlaying w)) as (_ & Hy & _).
  cbv zeta in Hy. rewrite Hdt in Hy.
  change (Ball.y (GameState.ball (World.game (handleTap gsPlaying w))))
    with (Ball.y (GameState.ball (World.game w))) in Hy.
  change (Ball.velocity
            (GameState.ball (World.game (handleTap gsPlaying w))))
    with (-9) in Hy.
  repeat apply conj; try reflexivity.
  - exact Hy.
  - intros Hrange. rewrite Hy. nra.
Qed.

Lemma taps_do_not_add_up_witness :
  0 < deltaTime climbingFrame climbingWorld < 25.7
  /\ Ball.y (movedBall climbingFrame (handleTap gsPlaying climbingWorld))
     < Ball.y (GameState.ball (World.game climbingWorld)).
Proof.
  assert (H : 0 < deltaTime climbingFrame climbingWorld < 25.7)
    by (rewrite climbing_deltaTime; lra).
  split; [exact H|].
  exact (proj2 (proj2 (proj2 (proj2 (proj2
           (taps_do_not_add_up climbingFrame climbingWorld))))) H).
Defined.

(** X7 (the integrator of "apply gravity").  Two steps of [a] and [b]
    ticks give the ball the velocity of one step of [a + b] ticks, but
    not its height: the single step ends [0.35 a b] lower.  So the
    trajectory depends on how the same time is cut into frames. *)
Theorem gravity_steps_do_not_compose (a b : R) (ball : Ball.t) :
  let two := applyGravity b (applyGravity a ball) in
  let one := applyGravity (a + b) ball in
  Ball.velocity two = Ball.velocity one
  /\ Ball.y one = Ball.y two + 0.35 * a * b
  /\ Ball.x two = Ball.x one
  /\ Ball.radius two = Ball.radius one
  /\ Ball.color two = Ball.color one
  /\ (two = one <-> a * b = 0).
Proof.
  cbv zeta. unfold applyGravity, GRAVITY. cbn.
  repeat apply conj; try reflexivity; try lra.
  - intros H. injection H as H1 H2. nra.
  - intros H. f_equal; nra.
Qed.

(** ** The flash, the stars and the colour switchers *)

Lemma decayFlash_bounds (flash dt : R) :
  0 <= flash <= 1 -> 0 <= dt ->
  0 <= decayFlash flash dt <= flash
  /\ decayFlash flash dt = Rmax 0 (flash - 0.05 * dt).
Proof.
  intros Hf Hdt. unfold decayFlash.
  destruct (Rgtb flash 0) eqn:Hpos.
  - apply Rgtb_true in Hpos. unfold Rmax.
    destruct (Rle_dec 0 (flash - 0.05 * dt)); split; (lra || reflexivity).
  - apply Rgtb_false in Hpos. unfold Rmax.
    destruct (Rle_dec 0 (flash - 0.05 * dt)); split; lra.
Qed.

Lemma gameLoop_flash (rnd : nat -> R) (f : Frame.t) (w : World.t)
    (t : Tick.t) :
  gameLoop rnd f w = Some t ->
  World.colorChangeFlash (Tick.world t) = 1
  \/ World.colorChangeFlash (Tick.world t)
     = decayFlash (World.colorChangeFlash w) (deltaTime f w).
Proof.
  intros Hloop. destruct (Frame.gameStatus f) eqn:Hgs.
  - destruct (gameLoop_playing rnd f w t Hloop Hgs)
      as (_ & _ & _ & _ & _ & Hflash & _).
    rewrite Hflash. unfold applied, applyPendingColorChange.
    destruct (World.pendingColorChange w) as [p|]; [|now right].
    destruct (Rgeb _ _); [left; cbn; lra|now right].
  - unfold gameLoop in Hloop. rewrite Hgs in Hloop.
    inversion Hloop; subst; clear Hloop. now right.
Qed.

(** X8 (the flash of a colour change).  Throughout a session the flash
    intensity stays between 0 and 1: a call leaves it at 1 when it
    applies a colour change, and otherwise takes 0.05 per tick off it,
    down to 0. *)
Theorem flash_in_unit_interval (rnd : nat -> R) (w : World.t) :
  reachable rnd w ->
  0 <= World.colorChangeFlash w <= 1
  /\ forall (f : Frame.t) (t : Tick.t),
       World.lastTime w <= Frame.timestamp f ->
       gameLoop rnd f w = Some t ->
       World.colorChangeFlash (Tick.world t) = 1
       \/ World.colorChangeFlash (Tick.world t)
          = Rmax 0 (World.colorChangeFlash w - 0.05 * deltaTime f w).
Proof.
  intros Hreach.
  assert (Hinv : 0 <= World.colorChangeFlash w <= 1).
  { induction Hreach as [cw ch stored n Hch | w w' _ IH Hstep].
    - destruct (mount_world rnd cw ch stored n) as (ls1 & n1 & ->).
      cbn. lra.
    - destruct Hstep as [gs w | f w t Hts Hloop].
      + destruct gs; exact IH.
      + destruct (gameLoop_flash rnd f w t Hloop) as [-> | ->]; [lra|].
        pose proof (deltaTime_nonneg f w Hts) as Hdt.
        destruct (decayFlash_bounds _ _ IH Hdt) as [Hb _]. lra. }
  split; [exact Hinv|].
  intros f t Hts Hloop.
  destruct (gameLoop_flash rnd f w t Hloop) as [H | H]; [now left|].
  right. rewrite H.
  apply decayFlash_bounds; [exact Hinv|now apply deltaTime_nonneg].
Qed.

Lemma flash_in_unit_interval_witness :
  reachable zeroRandom (Component.world smallCanvas)
  /\ 0 <= World.colorChangeFlash (Component.world smallCanvas) <= 1.
Proof.
  split; [exact smallCanvas_reachable|].
  exact (proj1 (flash_in_unit_interval zeroRandom
                  (Component.world smallCanvas) smallCanvas_reachable)).
Defined.

Lemma generated_decorations (rnd : nat -> R) (f : Frame.t) (w : World.t)
    (h : R) :
  let g := World.game w in
  (nearFrontier f w h = false
   /\ generatedSwitchers rnd f w h = GameState.colorSwitchers g
   /\ generatedStars rnd f w h = GameState.stars g)
  \/ (nearFrontier f w h = true
      /\ (exists id : R,
            generatedSwitchers rnd f w h
            = GameState.colorSwitchers g
              ++ [ColorSwitcher.mk id (Frame.width f / 2)
                    (h - OBSTACLE_GAP / 2) false])
      /\ (generatedStars rnd f w h = GameState.stars g
          \/ exists id : R,
               generatedStars rnd f w h
               = GameState.stars g
                 ++ [Star.mk id (Frame.width f / 2)
                       (h - OBSTACLE_GAP / 2 - 40) false])).
Proof.
  cbv zeta.
  unfold generatedSwitchers, generatedStars, generate, nearFrontier.
  destruct (Rltb _ _); [right|left; repeat split; reflexivity].
  destruct (createObstacle _ _ _ _ _ _) as [o n1].
  split; [reflexivity|].
  destruct (Rgtb _ _); cbn [fst snd].
  - split; [eexists; reflexivity|]. right. eexists; reflexivity.
  - split; [eexists; reflexivity|]. now left.
Qed.

Lemma gameLoop_decorations (rnd : nat -> R) (f : Frame.t) (w : World.t)
    (t : Tick.t) :
  gameLoop rnd f w = Some t ->
  Frame.gameStatus f = gsPlaying ->
  let g := World.game w in
  let g' := World.game (Tick.world t) in
  (collides f w = true
   /\ GameState.colorSwitchers g' = GameState.colorSwitchers g
   /\ GameState.stars g' = GameState.stars g)
  \/ (collides f w = false
      /\ exists h : R,
           highestObstacle f w = Some h
           /\ GameState.colorSwitchers g'
              = filter (fun s => onScreen (movedCamera f w) (Frame.height f)
                                   (ColorSwitcher.y s))
                  (map (useSwitcher (movedBall f w))
                     (generatedSwitchers rnd f w h))
           /\ GameState.stars g'
              = filter (fun s => onScreen (movedCamera f w) (Frame.height f)
                                   (Star.y s))
                  (generatedStars rnd f w h)).
Proof.
  intros Hloop Hgs.
  unfold gameLoop in Hloop. rewrite Hgs in Hloop.
  unfold playingBlock in Hloop. cbn [World.game World.colorChangeFlash
    World.pendingColorChange World.lastObstacleSpeed World.randomCalls
    World.lastTime] in Hloop.
  unfold collides, highestObstacle, generatedSwitchers, generatedStars,
    scoredObstacles, scored, movedCamera, rotated, appliedPending,
    movedBall, applied, deltaTime.
  destruct (applyPendingColorChange _ _ _ _) as [[ball0 flash] pending0].
  cbn [fst snd].
  destruct (scoreLoop _ _ _ _ _) as [[[obstacles score] pending] events].
  cbn [fst snd].
  destruct (collisionLoop _ _ _).
  - inversion Hloop; subst; clear Hloop. cbn. left.
    repeat split; reflexivity.
  - destruct (minimum _) as [highest|]; [|discriminate].
    destruct (generate _ _ _ _ _ _ _ _ _ _)
      as [[[[obstacles1 switchers1] stars1] lastSpeed] n] eqn:Hgen.
    cbn [fst snd].
    destruct (belowBoundary _ _ _);
      inversion Hloop; subst; clear Hloop; cbn; right;
      (split; [reflexivity|]); exists highest; rewrite Hgen;
      repeat split; reflexivity.
Qed.

(** X9 (stars).  No star is ever collected: in every state of a
    session each star of the game state has [collected = false].  A
    call adds at most one star, on the centre line of the canvas, 190
    above the obstacle that was highest, and takes stars away only by
    the off-screen filter. *)
Theorem stars_are_never_collected (rnd : nat -> R) (w : World.t) :
  reachable rnd w ->
  Forall (fun s => Star.collected s = false) (GameState.stars (World.game w))
  /\ forall (f : Frame.t) (t : Tick.t),
       gameLoop rnd f w = Some t ->
       exists (news : list Star.t) (keep : Star.t -> bool),
         GameState.stars (World.game (Tick.world t))
         = filter keep (GameState.stars (World.game w) ++ news)
         /\ (news = []
             \/ exists (id h : R),
                  highestObstacle f w = Some h
                  /\ news = [Star.mk id (Frame.width f / 2) (h - 190) false]).
Proof.
  intros Hreach.
  assert (Hcall : forall (w : World.t) (f : Frame.t) (t : Tick.t),
            gameLoop rnd f w = Some t ->
            exists (news : list Star.t) (keep : Star.t -> bool),
              GameState.stars (World.game (Tick.world t))
              = filter keep (GameState.stars (World.game w) ++ news)
              /\ (news = []
                  \/ exists (id h : R),
                       highestObstacle f w = Some h
                       /\ news = [Star.mk id (Frame.width f / 2) (h - 190)
                                    false])).
  { clear w Hreach. intros w f t Hloop.
    destruct (Frame.gameStatus f) eqn:Hgs.
    - destruct (gameLoop_decorations rnd f w t Hloop Hgs)
        as [(_ & _ & Hst) | (_ & h & Hh & _ & Hst)].
      + exists [], (fun _ => true). split; [|now left].
        rewrite Hst, app_nil_r. symmetry. now apply filter_all.
      + destruct (generated_decorations rnd f w h)
          as [(_ & _ & Hgen) | (_ & _ & [Hgen | (id & Hgen)])];
          cbv zeta in Hgen; rewrite Hgen in Hst.
        * eexists [], _. rewrite app_nil_r. split; [exact Hst|now left].
        * eexists [], _. rewrite app_nil_r. split; [exact Hst|now left].
        * eexists _, _. split; [exact Hst|]. right. exists id, h.
          split; [exact Hh|]. unfold OBSTACLE_GAP. do 2 f_equal. lra.
    - destruct (gameLoop_paused rnd f w t Hloop Hgs) as [Hg _].
      exists [], (fun _ => true). split; [|now left].
      rewrite Hg, app_nil_r. symmetry. now apply filter_all. }
  split; [|exact (Hcall w)].
  induction Hreach as [cw ch stored n Hch | w w' _ IH Hstep].
  - destruct (mount_world rnd cw ch stored n) as (ls1 & n1 & ->).
    cbn [Component.world World.game]. rewrite initGame_game. constructor.
  - destruct Hstep as [gs w | f w t _ Hloop].
    + destruct gs; exact IH.
    + destruct (Hcall w f t Hloop) as (news & keep & -> & Hnews).
      apply Forall_forall. intros s Hin. apply filter_In in Hin.
      destruct Hin as [Hin _]. apply in_app_or in Hin.
      destruct Hin as [Hin | Hin].
      * rewrite Forall_forall in IH. now apply IH.
      * destruct Hnews as [-> | (id & h & _ & ->)]; [destruct Hin|].
        destruct Hin as [<- | []]. reflexivity.
Qed.

Lemma stars_are_never_collected_witness :
  reachable zeroRandom (Component.world smallCanvas)
  /\ Forall (fun s => Star.collected s = false)
       (GameState.stars (World.game (Component.world smallCanvas))).
Proof.
  split; [exact smallCanvas_reachable|].
  exact (proj1 (stars_are_never_collected zeroRandom
                  (Component.world smallCanvas) smallCanvas_reachable)).
Defined.

(** X10 (colour switchers and stars are decoration).  The colour
    switchers and the stars of the game state have no influence on
    anything else: with other switchers and other stars a call makes
    the same notifications and the same request for a further frame,
    and leaves the same ball, colour included, the same obstacles,
    score, status, camera, pending change and random position.  Despite
    its name a colour switcher never changes the colour of the ball. *)
Theorem decorations_have_no_effect (rnd : nat -> R) (f : Frame.t)
    (w : World.t) (t : Tick.t) (switchers : list ColorSwitcher.t)
    (stars : list Star.t) :
  gameLoop rnd f w = Some t ->
  exists (t' : Tick.t) (switchers' : list ColorSwitcher.t)
         (stars' : list Star.t),
    gameLoop rnd f (withDecorations switchers stars w) = Some t'
    /\ Tick.events t' = Tick.events t
    /\ Tick.requested t' = Tick.requested t
    /\ Tick.world t' = withDecorations switchers' stars' (Tick.world t).
Proof.
  unfold gameLoop. destruct (Frame.gameStatus f).
  - unfold playingBlock, withDecorations.
    cbn [World.game World.colorChangeFlash World.pendingColorChange
         World.lastObstacleSpeed World.randomCalls World.lastTime
         GameState.ball GameState.obstacles GameState.score
         GameState.status GameState.highScore GameState.cameraY
         GameState.stars GameState.colorSwitchers].
    destruct (applyPendingColorChange _ _ _ _) as [[ball0 flash] pending0].
    destruct (scoreLoop _ _ _ _ _) as [[[obstacles score] pending] events].
    destruct (collisionLoop _ _ _).
    + intros [= <-]. eexists _, _, _. cbn. repeat split.
    + destruct (minimum _) as [highest|]; [|discriminate].
      unfold generate. destruct (Rltb _ _).
      * destruct (createObstacle _ _ _ _ _ _) as [o n1].
        destruct (Rgtb (rnd (S n1)) 0.5);
          destruct (belowBoundary _ _ _);
          intros [= <-]; eexists _, _, _; cbn; repeat split.
      * destruct (belowBoundary _ _ _);
          intros [= <-]; eexists _, _, _; cbn; repeat split.
  - intros [= <-]. eexists _, _, _. cbn. repeat split.
Qed.

Lemma decorations_have_no_effect_witness :
  exists t t' : Tick.t,
    gameLoop zeroRandom climbingFrame climbingWorld = Some t
    /\ gameLoop zeroRandom climbingFrame (withDecorations [] [] climbingWorld)
       = Some t'
    /\ Tick.events t' = Tick.events t.
Proof.
  destruct climbing_call as [t Ht].
  destruct (decorations_have_no_effect zeroRandom climbingFrame
              climbingWorld t [] [] Ht) as (t' & _ & _ & Ht' & Hev & _).
  exists t, t'. split; [exact Ht|]. split; [exact Ht'|exact Hev].
Defined.

(** ** The score and the obstacles created *)

Lemma unpassed_app (l1 l2 : list Obstacle.t) :
  unpassed (l1 ++ l2) = (unpassed l1 + unpassed l2)%nat.
Proof. unfold unpassed. now rewrite filter_app, length_app. Qed.

Lemma unpassed_length (l : list Obstacle.t) : (unpassed l <= length l)%nat.
Proof.
  unfold unpassed. induction l as [|o l IH]; cbn; [lia|].
  destruct (negb (Obstacle.passed o)); cbn; lia.
Qed.

Lemma unpassed_filter (keep : Obstacle.t -> bool) (l : list Obstacle.t) :
  (unpassed (filter keep l) <= unpassed l)%nat.
Proof.
  unfold unpassed. induction l as [|o l IH]; cbn; [lia|].
  destruct (keep o); cbn; destruct (negb (Obstacle.passed o)); cbn; lia.
Qed.

(** The scoring loop flags as many unpassed obstacles as it counts. *)
Lemma unpassed_evolve (f : Frame.t) (w : World.t) :
  (unpassed (scoredObstacles f w) + length (crossing f w))%nat
  = unpassed (GameState.obstacles (World.game w)).
Proof.
  rewrite scoredObstacles_evolve. unfold crossing, rotated, unpassed.
  induction (GameState.obstacles (World.game w)) as [|o l IH];
    [reflexivity|].
  cbn [map filter]. unfold evolve at 1.
  destruct (crosses (movedBall f w) (rotateObstacle (deltaTime f w) o))
    eqn:Hc.
  - apply crosses_unpassed in Hc. cbn in Hc. rewrite Hc. cbn. lia.
  - cbn [rotateObstacle Obstacle.passed].
    destruct (negb (Obstacle.passed o)); cbn; lia.
Qed.

(** X11 (each obstacle counts once).  Throughout a session the score
    is at least 0 and, together with the number of obstacles of the
    array that are not passed yet, at most the number of obstacles
    created since the game started: no obstacle is counted twice, and
    the score never runs ahead of the obstacles. *)
Theorem score_counts_obstacles_once (rnd : nat -> R) (w : World.t)
    (created : nat) :
  session rnd w created ->
  (0 <= GameState.score (World.game w))%Z
  /\ (GameState.score (World.game w)
      + Z.of_nat (unpassed (GameState.obstacles (World.game w)))
      <= Z.of_nat created)%Z.
Proof.
  intros Hs.
  induction Hs as [cw ch stored n Hch | gs w c _ IH
                  | f w t c _ IH Hts Hloop].
  - destruct (mount_obstacles rnd cw ch stored n) as (_ & _ & _ & Hlen & _).
    destruct (mount_motion rnd cw ch stored n) as (Hsc & _).
    cbv zeta in *. rewrite Hsc.
    pose proof (unpassed_length
                  (GameState.obstacles
                     (World.game (Component.world
                                    (mount rnd cw ch stored n))))).
    lia.
  - destruct gs; exact IH.
  - destruct IH as [IH0 IH1]. unfold appended.
    destruct (Frame.gameStatus f) eqn:Hgs.
    + destruct (gameLoop_playing rnd f w t Hloop Hgs)
        as (_ & _ & Hsc & _ & _ & _ & _ & Hend).
      rewrite Hsc, scoredScore_count.
      pose proof (unpassed_evolve f w) as Hev.
      destruct Hend as [(Hcol & _ & _ & _ & Hobs)
                       | (Hcol & h & Hh & Hobs & _)];
        rewrite Hcol, Hobs.
      * lia.
      * rewrite Hh, generatedObstacles_spec.
        pose proof (unpassed_filter
                      (fun o => onScreen (movedCamera f w) (Frame.height f)
                                  (Obstacle.y o))) as Hfil.
        destruct (nearFrontier f w h).
        -- specialize (Hfil (scoredObstacles f w
                             ++ [newObstacle rnd f w h])).
           rewrite unpassed_app in Hfil.
           pose proof (unpassed_length [newObstacle rnd f w h]) as Hn.
           cbn [length] in Hn. lia.
        -- specialize (Hfil (scoredObstacles f w)). lia.
    + destruct (gameLoop_paused rnd f w t Hloop Hgs) as [Hg _].
      rewrite Hg. lia.
Qed.

Lemma score_counts_obstacles_once_witness :
  session zeroRandom (Component.world smallCanvas) 5
  /\ (0 <= GameState.score (World.game (Component.world smallCanvas)))%Z.
Proof.
  assert (Hs : session zeroRandom (Component.world smallCanvas) 5).
  { unfold smallCanvas. apply session_mount. lra. }
  split; [exact Hs|].
  exact (proj1 (score_counts_obstacles_once zeroRandom
                  (Component.world smallCanvas) 5 Hs)).
Defined.

(** ** What is drawn and what collides *)

(** X12 ([drawHalfRing]).  A [halfRing] is a [ring] in all but name:
    [drawHalfRing] performs the very operations of [drawRing], four
    quarter arcs in palette order; [checkCollision] treats the two
    types alike; and so does the speed sampling of [createObstacle]. *)
Theorem halfRing_is_a_ring (o : Obstacle.t) (centerX cameraY : R)
    (ball : Ball.t) (rnd : nat -> R) (k n : nat) :
  drawHalfRing o centerX cameraY = drawRing o centerX cameraY
  /\ drawObstacle (withType halfRing o) centerX cameraY
     = drawObstacle (withType ring o) centerX cameraY
  /\ checkCollision ball (withType halfRing o) centerX
     = checkCollision ball (withType ring o) centerX
  /\ sampleSpeed rnd halfRing k n = sampleSpeed rnd ring k n.
Proof.
  assert (Hdraw : forall o' : Obstacle.t,
            drawHalfRing o' centerX cameraY = drawRing o' centerX cameraY).
  { intros o'. unfold drawHalfRing, drawRing, halfRingArc, ringSegment.
    cbn [forLoop forEachFrom COLOR_ORDER app Nat.mul Nat.add Z.of_nat
         Pos.of_succ_nat Pos.succ index Z.ltb Z.compare Z.to_nat
         Pos.to_nat Pos.iter_op nth_error gameColorAt option_map].
    repeat (apply (f_equal2 cons)); try reflexivity;
      (f_equal; simpl; lra). }
  split; [apply Hdraw|]. split; [apply Hdraw|].
  split; reflexivity.
Qed.

Lemma forEachFrom_nth {A : Type} (body : A -> nat -> list Command)
    (arr : list A) (start i : nat) (x : A) :
  nth_error arr i = Some x ->
  exists before after : list Command,
    forEachFrom body arr start = before ++ body x (start + i)%nat ++ after.
Proof.
  revert start i. induction arr as [|y arr IH]; intros start [|i] H;
    try discriminate; cbn in H.
  - injection H as ->. exists [], (forEachFrom body arr (S start)).
    cbn. now rewrite Nat.add_0_r.
  - destruct (IH (S start) i H) as (before & after & Heq).
    exists (body y start ++ before), after. cbn [forEachFrom].
    replace (start + S i)%nat with (S start + i)%nat by lia.
    now rewrite Heq, <- app_assoc.
Qed.

Lemma forLoop_nth (body : nat -> list Command) (count start i : nat) :
  (i < count)%nat ->
  exists before after : list Command,
    forLoop count start body = before ++ body (start + i)%nat ++ after.
Proof.
  revert start i. induction count as [|count IH]; intros start i Hi;
    [lia|].
  destruct i as [|i].
  - exists [], (forLoop count (S start) body). cbn.
    now rewrite Nat.add_0_r.
  - destruct (IH (S start) i) as (before & after & Heq); [lia|].
    exists (body start ++ before), after. cbn [forLoop].
    replace (start + S i)%nat with (S start + i)%nat by lia.
    now rewrite Heq, <- app_assoc.
Qed.

(** X13 ([drawRing] against [checkCollision]).  The quarter arc that
    [drawRing] strokes in the [i]-th palette colour covers, in the
    rotated frame of the obstacle, the angles from [i pi/2] to
    [(i+1) pi/2]; at every such angle [checkCollision] takes that same
    colour for the segment, for a [ring] and for a [halfRing].  The
    stroke is as wide as the band of [checkCollision] is thick. *)
Theorem ring_arcs_match_collision (o : Obstacle.t) (centerX cameraY : R)
    (i : nat) (c : GameColor) (a : R) :
  nth_error COLOR_ORDER i = Some c ->
  INR i * PI / 2 <= a < (INR i + 1) * PI / 2 ->
  (exists before after : list Command,
     drawRing o centerX cameraY
     = before ++ ringSegment (Obstacle.radius o) c i ++ after)
  /\ In (Arc 0 0 (Obstacle.radius o) (INR i * PI / 2)
           ((INR i + 1) * PI / 2))
        (ringSegment (Obstacle.radius o) c i)
  /\ In (StrokeStyle (Some (GAME_COLORS c)))
        (ringSegment (Obstacle.radius o) c i)
  /\ In (LineWidth (2 * thicknessOf ring))
        (ringSegment (Obstacle.radius o) c i)
  /\ segmentColorAt ring a = Some c
  /\ segmentColorAt halfRing a = Some c.
Proof.
  intros Hc Ha. pose proof PI_RGT_0 as HPI.
  split.
  { unfold drawRing.
    destruct (forEachFrom_nth (ringSegment (Obstacle.radius o)) COLOR_ORDER
                0 i c Hc) as (before & after & Heq).
    rewrite Heq. cbn [Nat.add].
    exists ([Save; Translate centerX (Obstacle.y o - cameraY);
             Rotate (Obstacle.rotation o)] ++ before), (after ++ [Restore]).
    now rewrite <- !app_assoc. }
  split; [cbn; tauto|]. split; [cbn; tauto|]. split.
  { right; right; left.
    replace (2 * thicknessOf ring) with 28 by (cbn; lra). reflexivity. }
  assert (Hfloor : floor (a / (PI / 2)) = Z.of_nat i).
  { apply floor_spec. rewrite <- INR_IZR_INZ. split.
    - apply Rmult_le_reg_r with (PI / 2); [lra|]. field_simplify; lra.
    - apply Rmult_lt_reg_r with (PI / 2); [lra|]. field_simplify; lra. }
  assert (Hi : (i < 4)%nat).
  { change 4%nat with (length COLOR_ORDER). apply nth_error_Some.
    congruence. }
  assert (Hcol : index COLOR_ORDER (Z.rem (Z.of_nat i) 4) = Some c).
  { destruct i as [|[|[|[|i]]]]; [exact Hc..|lia]. }
  unfold segmentColorAt. rewrite Hfloor. split; exact Hcol.
Qed.

Lemma ring_arcs_match_collision_witness :
  nth_error COLOR_ORDER 1 = Some purple
  /\ INR 1 * PI / 2 <= PI / 2 + 0.0144 < (INR 1 + 1) * PI / 2
  /\ segmentColorAt ring (PI / 2 + 0.0144) = Some purple.
Proof.
  assert (Ha : INR 1 * PI / 2 <= PI / 2 + 0.0144 < (INR 1 + 1) * PI / 2).
  { pose proof PI_bounds. simpl. lra. }
  split; [reflexivity|]. split; [exact Ha|].
  exact (proj1 (proj2 (proj2 (proj2 (proj2
           (ring_arcs_match_collision
              (Obstacle.mk 0 ring 0 0 0.02 140 false) 200 0 1 purple
              (PI / 2 + 0.0144) eq_refl Ha)))))).
Defined.

(** X14 ([drawDotCircle] against [checkCollision]).  The [i]-th of the
    24 dots is filled in the colour of its group of 6, and that is the
    colour [checkCollision] takes at the angle of the centre of the dot
    and from there up to the centre of the next dot.  So the segment of
    a dot begins at its centre: the half of a dot that comes before its
    centre has the colour of the dot before it, which at the first dot
    of a group is another colour.  The band of [checkCollision] is 4
    wider, on each side, than the dots are. *)
Theorem dot_colours_match_collision (o : Obstacle.t) (centerX cameraY : R)
    (i : nat) (a : R) :
  (i < 24)%nat ->
  let centre := (INR i / 24) * PI * 2 in
  centre <= a < centre + PI / 12 ->
  exists c : GameColor,
    index COLOR_ORDER (Z.of_nat (i / 6)) = Some c
    /\ dot (Obstacle.radius o) i
       = [BeginPath;
          Arc (cos centre * Obstacle.radius o)
            (sin centre * Obstacle.radius o) 16 0 (PI * 2);
          FillStyle (Some (GAME_COLORS c)); Fill]
    /\ (exists before after : list Command,
          drawDotCircle o centerX cameraY
          = before ++ dot (Obstacle.radius o) i ++ after)
    /\ segmentColorAt dotCircle a = Some c
    /\ (forall a' : R,
          centre + PI / 12 <= a' < centre + PI / 6 -> (i < 23)%nat ->
          segmentColorAt dotCircle a'
          = index COLOR_ORDER (Z.of_nat (S i / 6)))
    /\ thicknessOf dotCircle = 16 + 4.
Proof.
  intros Hi centre Ha. pose proof PI_RGT_0 as HPI.
  assert (Hgroup : forall j : nat, (j < 24)%nat ->
            floor (INR j / 6) = Z.of_nat (j / 6)).
  { intros j Hj. apply floor_spec. rewrite <- INR_IZR_INZ.
    pose proof (Nat.div_mod_eq j 6) as Hdm.
    pose proof (Nat.mod_upper_bound j 6 ltac:(lia)) as Hm.
    assert (Hj' : INR j = 6 * INR (j / 6) + INR (j mod 6)).
    { rewrite Hdm at 1. rewrite plus_INR, mult_INR. simpl. lra. }
    assert (0 <= INR (j mod 6) <= 5).
    { split; [apply pos_INR|].
      replace 5 with (INR 5) by (simpl; lra). apply le_INR. lia. }
    lra. }
  assert (Hseg : forall (j : nat) (b : R), (j < 24)%nat ->
            (INR j / 24) * PI * 2 <= b < (INR j / 24) * PI * 2 + PI / 12 ->
            segmentColorAt dotCircle b
            = index COLOR_ORDER (Z.of_nat (j / 6))).
  { intros j b Hj Hb. unfold segmentColorAt.
    assert (Hdot : floor (b / (PI * 2) * 24) = Z.of_nat j).
    { apply floor_spec. rewrite <- INR_IZR_INZ.
      assert (Hb' : b = b / (PI * 2) * (PI * 2)) by (field; lra).
      set (q := b / (PI * 2)) in *. nra. }
    rewrite Hdot, <- INR_IZR_INZ, (Hgroup j Hj).
    assert (Hq : (j / 6 < 4)%nat)
      by (apply Nat.Div0.div_lt_upper_bound; lia).
    rewrite Z.rem_small by lia. reflexivity. }
  assert (Hq : (i / 6 < 4)%nat) by (apply Nat.Div0.div_lt_upper_bound; lia).
  assert (Hc : exists c, index COLOR_ORDER (Z.of_nat (i / 6)) = Some c).
  { destruct (i / 6)%nat as [|[|[|[|q]]]]; [eexists; reflexivity..|lia]. }
  destruct Hc as [c Hc]. exists c.
  split; [exact Hc|]. split.
  { unfold dot. rewrite (Hgroup i Hi), Hc. cbn [gameColorAt option_map].
    reflexivity. }
  split.
  { unfold drawDotCircle.
    destruct (forLoop_nth (dot (Obstacle.radius o)) 24 0 i Hi)
      as (before & after & Heq).
    rewrite Heq. cbn [Nat.add].
    exists ([Save; Translate centerX (Obstacle.y o - cameraY);
             Rotate (Obstacle.rotation o)] ++ before), (after ++ [Restore]).
    now rewrite <- !app_assoc. }
  split; [rewrite (Hseg i a Hi Ha); exact Hc|]. split.
  - intros a' Ha' Hi'. apply Hseg; [lia|].
    rewrite S_INR. fold centre.
    replace ((INR i + 1) / 24 * PI * 2) with (centre + PI / 12)
      by (unfold centre; field).
    lra.
  - cbn. lra.
Qed.

Lemma dot_colours_match_collision_witness :
  (6 < 24)%nat
  /\ (INR 6 / 24) * PI * 2 <= PI / 2 + 0.0144 < (INR 6 / 24) * PI * 2 + PI / 12
  /\ exists c : GameColor,
       index COLOR_ORDER (Z.of_nat (6 / 6)) = Some c
       /\ segmentColorAt dotCircle (PI / 2 + 0.0144) = Some c.
Proof.
  assert (Ha : (INR 6 / 24) * PI * 2 <= PI / 2 + 0.0144
               < (INR 6 / 24) * PI * 2 + PI / 12).
  { pose proof PI_bounds. simpl. lra. }
  split; [lia|]. split; [exact Ha|].
  destruct (dot_colours_match_collision
              (Obstacle.mk 0 dotCircle 0 0 0.02 140 false) 200 0 6
              (PI / 2 + 0.0144) ltac:(lia) Ha)
    as (c & Hc & _ & _ & Hseg & _).
  exists c. split; [exact Hc|exact Hseg].
Defined.

(** ** The stored high score *)

Lemma codeOf_charOf (n : Z) : (0 <= n < 256)%Z -> codeOf (charOf n) = n.
Proof.
  intros Hn. unfold codeOf, charOf.
  rewrite Ascii.N_ascii_embedding by lia. lia.
Qed.

Lemma digitValue_decimal (d : Z) :
  (0 <= d <= 9)%Z -> digitValue 10 (charOf (48 + d)) = Some d.
Proof.
  intros Hd. unfold digitValue. rewrite codeOf_charOf by lia.
  replace ((48 <=? 48 + d) && (48 + d <=? 57))%Z with true
    by (symmetry; apply andb_true_iff; split; apply Z.leb_le; lia).
  replace (48 + d - 48 <? 10)%Z with true
    by (symmetry; apply Z.ltb_lt; lia).
  f_equal. lia.
Qed.

(** The digits of [n] read back as [n]. *)
Lemma parseDigits_digitsBefore (n : Z) (suffix : String.string) (seen : bool) :
  (0 <= n)%Z ->
  parseDigits 10 (digitsBefore n suffix) 0%Z seen
  = parseDigits 10 suffix n true.
Proof.
  revert seen. funelim (digitsBefore n suffix); intros seen Hn.
  - cbn [parseDigits]. rewrite digitValue_decimal by lia. reflexivity.
  - rewrite H by (apply Z.div_pos; lia).
    cbn [parseDigits].
    rewrite digitValue_decimal by (pose proof (Z.mod_pos_bound n 10); lia).
    f_equal. pose proof (Z.div_mod n 10). lia.
Qed.

(** The digits of [n] begin with a digit, and a digit or [suffix]
    follows it. *)
Lemma digitsBefore_head (n : Z) (suffix : String.string) :
  (0 <= n)%Z ->
  exists (d : Z) (rest : String.string),
    (0 <= d <= 9)%Z
    /\ digitsBefore n suffix = String.String (charOf (48 + d)) rest
    /\ (rest = suffix
        \/ exists (d' : Z) (rest' : String.string),
             (0 <= d' <= 9)%Z
             /\ rest = String.String (charOf (48 + d')) rest').
Proof.
  funelim (digitsBefore n suffix); intros Hn.
  - exists n, suffix. split; [lia|]. split; [reflexivity|now left].
  - destruct H as (d & rest & Hd & Hhead & Hrest);
      [apply Z.div_pos; lia|].
    exists d, rest. split; [exact Hd|]. split; [exact Hhead|]. right.
    destruct Hrest as [-> | Hrest]; [|exact Hrest].
    exists (n mod 10)%Z, suffix. split; [|reflexivity].
    pose proof (Z.mod_pos_bound n 10). lia.
Qed.

Lemma parseInt_digits (n : Z) (negative : bool) :
  (0 <= n)%Z ->
  parseInt (if negative
            then String.String (charOf 45)
                   (digitsBefore n String.EmptyString)
            else digitsBefore n String.EmptyString)
  = Some (if negative then (- n)%Z else n).
Proof.
  intros Hn.
  pose proof (parseDigits_digitsBefore n String.EmptyString false Hn)
    as Hparse.
  destruct (digitsBefore_head n String.EmptyString Hn)
    as (d & rest & Hd & Heq & Hrest).
  rewrite Heq in *.
  assert (Hc : codeOf (charOf (48 + d)) = (48 + d)%Z)
    by (apply codeOf_charOf; lia).
  assert (Hm : codeOf (charOf 45) = 45%Z) by (apply codeOf_charOf; lia).
  assert (Hws : isWhiteSpace (charOf (48 + d)) = false).
  { unfold isWhiteSpace. rewrite Hc.
    repeat (apply orb_false_iff; split); apply Z.eqb_neq; lia. }
  assert (Hsign : ((48 + d =? 45) || (48 + d =? 43))%Z = false).
  { apply orb_false_iff; split; apply Z.eqb_neq; lia. }
  assert (Hws' : isWhiteSpace (charOf 45) = false).
  { unfold isWhiteSpace. rewrite Hm. reflexivity. }
  assert (Hnot : (48 + d =? 45)%Z = false) by (apply Z.eqb_neq; lia).
  unfold parseInt. cbv zeta.
  destruct Hrest as [-> | (d' & rest' & Hd' & ->)].
  - destruct negative; cbn [trimStart]; rewrite ?Hws', ?Hws;
      cbv beta match; rewrite ?Hm, ?Hc, ?Hsign, ?Hnot;
      change ((45 =? 45)%Z || (45 =? 43)%Z) with true;
      change (45 =? 45)%Z with true; cbv beta match;
      now rewrite Hparse.
  - assert (Hx : ((codeOf (charOf (48 + d')) =? 120)
                  || (codeOf (charOf (48 + d')) =? 88))%Z = false).
    { rewrite codeOf_charOf by lia.
      apply orb_false_iff; split; apply Z.eqb_neq; lia. }
    destruct negative; cbn [trimStart]; rewrite ?Hws', ?Hws;
      cbv beta match; rewrite ?Hm, ?Hc, ?Hsign, ?Hnot;
      change ((45 =? 45)%Z || (45 =? 43)%Z) with true;
      change (45 =? 45)%Z with true; cbv beta match;
      rewrite ?Hc, Hx, andb_false_r; now rewrite Hparse.
Qed.

Lemma parseInt_numberToString (n : Z) :
  parseInt (numberToString n) = Some n
  /\ exists c rest, numberToString n = String.String c rest.
Proof.
  split.
  - unfold numberToString. destruct (Z.ltb_spec n 0).
    + rewrite (parseInt_digits (- n) true) by lia. f_equal. lia.
    + exact (parseInt_digits n false ltac:(lia)).
  - unfold numberToString. destruct (Z.ltb_spec n 0).
    + eexists _, _. reflexivity.
    + destruct (digitsBefore_head n String.EmptyString ltac:(lia))
        as (d & rest & _ & Hhead & _).
      rewrite Hhead. eexists _, _. reflexivity.
Qed.

Lemma stored_score_round_trip_aux (n : Z) :
  storedHighScore (Some (numberToString n)) = Some n.
Proof.
  destruct (parseInt_numberToString n) as [Hparse (c & rest & Heq)].
  unfold storedHighScore. rewrite Heq, <- Heq. exact Hparse.
Qed.

(** X15 (the stored high score, written and read back).  For every
    integer [n] of magnitude below [2^53], the integers that
    [n.toString()] prints digit by digit, [parseInt] reads
    [n.toString()] back as [n], and the string is not empty: what
    [handleGameOver] stores in local storage for such a score is what
    "load high score on mount" and [initGame] read from it.  An absent
    or empty entry reads as 0, and an entry without a leading number
    reads as [NaN]. *)
Theorem stored_score_round_trip (n : Z) :
  (Z.abs n < 2 ^ 53)%Z ->
  parseInt (numberToString n) = Some n
  /\ numberToString n <> String.EmptyString
  /\ storedHighScore (Some (numberToString n)) = Some n
  /\ Parent.highScore
       (loadHighScore (initialParent (Some (numberToString n)))) = Some n
  /\ storedHighScore None = Some 0%Z
  /\ storedHighScore (Some String.EmptyString) = Some 0%Z
  /\ Parent.highScore (loadHighScore (initialParent None)) = Some 0%Z
  /\ parseInt "best"%string = None.
Proof.
  intros _.
  destruct (parseInt_numberToString n) as [Hparse Hne].
  destruct Hne as (c & rest & Heq).
  split; [exact Hparse|]. split; [rewrite Heq; discriminate|].
  split; [unfold storedHighScore; rewrite Heq, <- Heq; exact Hparse|].
  split.
  { unfold loadHighScore, initialParent. cbn [Parent.storage].
    rewrite Heq. cbn [Parent.highScore]. rewrite <- Heq. exact Hparse. }
  repeat split; reflexivity.
Qed.

Lemma stored_score_round_trip_witness :
  (Z.abs 12 < 2 ^ 53)%Z
  /\ parseInt (numberToString 12) = Some 12%Z
  /\ storedHighScore (Some (numberToString 12)) = Some 12%Z.
Proof.
  split; [reflexivity|].
  destruct (stored_score_round_trip 12 eq_refl) as (H1 & _ & H3 & _).
  split; [exact H1|exact H3].
Defined.

Lemma loadHighScore_stored (storage : option String.string) :
  Parent.highScore (loadHighScore (initialParent storage))
  = storedHighScore storage.
Proof. destruct storage as [[|c rest]|]; reflexivity. Qed.

(** X16 ([handleGameOver]).  When the high score on display is the
    one in local storage, it still is after a game over: the new high
    score is the larger of the old one and the final score, it is what
    a reload of the page and the next [initGame] read from storage, and
    the "new high score" flag is raised exactly when the old one is
    beaten.  A second notification of the same game over, from the same
    closure, changes nothing more.  With a high score that is [NaN] no
    final score is ever taken as a new high score. *)
Theorem high_score_is_kept (p : Parent.t) (h finalScore : Z) :
  Parent.highScore p = Some h ->
  storedHighScore (Parent.storage p) = Some h ->
  let p' := handleGameOver (Parent.highScore p) finalScore p in
  Parent.screen p' = scGameover
  /\ Parent.highScore p' = Some (Z.max h finalScore)
  /\ storedHighScore (Parent.storage p') = Parent.highScore p'
  /\ Parent.highScore (loadHighScore (initialParent (Parent.storage p')))
     = Parent.highScore p'
  /\ Parent.isNewHighScore p'
     = Parent.isNewHighScore p || (h <? finalScore)%Z
  /\ Parent.score p' = Parent.score p
  /\ Parent.gameKey p' = Parent.gameKey p
  /\ Parent.isPaused p' = Parent.isPaused p
  /\ handleGameOver (Parent.highScore p) finalScore p' = p'
  /\ forall (q : Parent.t) (s : Z),
       Parent.highScore (handleGameOver None s q) = Parent.highScore q
       /\ Parent.storage (handleGameOver None s q) = Parent.storage q
       /\ Parent.isNewHighScore (handleGameOver None s q)
          = Parent.isNewHighScore q.
Proof.
  intros Hh Hst p'.
  assert (Hp' : Parent.screen p' = scGameover
                /\ Parent.highScore p' = Some (Z.max h finalScore)
                /\ storedHighScore (Parent.storage p') = Parent.highScore p'
                /\ Parent.isNewHighScore p'
                   = Parent.isNewHighScore p || (h <? finalScore)%Z
                /\ Parent.score p' = Parent.score p
                /\ Parent.gameKey p' = Parent.gameKey p
                /\ Parent.isPaused p' = Parent.isPaused p
                /\ handleGameOver (Parent.highScore p) finalScore p' = p').
  { unfold p', handleGameOver. rewrite Hh. cbn [greater].
    destruct (Z.ltb_spec h finalScore) as [Hlt | Hge];
      cbn [Parent.screen Parent.highScore Parent.storage
           Parent.isNewHighScore Parent.score Parent.gameKey
           Parent.isPaused].
    - repeat apply conj; try reflexivity.
      + f_equal. lia.
      + apply stored_score_round_trip_aux.
      + now rewrite orb_true_r.
    - repeat apply conj; try reflexivity.
      + f_equal. lia.
      + exact Hst.
      + now rewrite orb_false_r. }
  destruct Hp' as (H1 & H2 & H3 & H4 & H5 & H6 & H7 & H8).
  repeat apply conj; try assumption.
  - now rewrite loadHighScore_stored.
  - intros q s. repeat split.
Qed.

Lemma high_score_is_kept_witness :
  Parent.highScore (loadHighScore (initialParent (Some "7"%string)))
  = Some 7%Z
  /\ storedHighScore
       (Parent.storage (loadHighScore (initialParent (Some "7"%string))))
     = Some 7%Z
  /\ Parent.highScore
       (handleGameOver
          (Parent.highScore
             (loadHighScore (initialParent (Some "7"%string))))
          12 (loadHighScore (initialParent (Some "7"%string))))
     = Some (Z.max 7 12).
Proof.
  split; [reflexivity|]. split; [reflexivity|].
  exact (proj1 (proj2
           (high_score_is_kept
              (loadHighScore (initialParent (Some "7"%string))) 7 12
              eq_refl eq_refl))).
Defined.

(** ** The frame loop through a pause *)

Lemma gameLoop_status (rnd : nat -> R) (f : Frame.t) (w : World.t)
    (t : Tick.t) :
  gameLoop rnd f w = Some t ->
  (GameState.status (World.game (Tick.world t)) = playing ->
   GameState.status (World.game w) = playing)
  /\ Tick.requested t
     = isPlaying (GameState.status (World.game (Tick.world t))).
Proof.
  intros Hloop. destruct (Frame.gameStatus f) eqn:Hgs.
  - destruct (gameLoop_playing rnd f w t Hloop Hgs)
      as (_ & _ & _ & _ & _ & _ & _ & Hend).
    destruct Hend as [(_ & Hs & _ & Hr & _) | (_ & h & _ & _ & Hend)].
    + rewrite Hs, Hr. split; [discriminate|reflexivity].
    + destruct Hend as [(_ & Hs & _ & Hr) | (_ & Hs & _ & Hr)];
        rewrite Hs, Hr; split; (discriminate || auto).
  - destruct (gameLoop_paused rnd f w t Hloop Hgs) as (Hg & _ & _ & Hr).
    rewrite Hg, Hr. split; auto.
Qed.

Lemma runCallback_queue (rnd : nat -> R) (ts : R) (cb : Callback.t)
    (c c' : Mounted.t) (events : list Event) :
  runCallback rnd ts cb c = Some (c', events) ->
  Mounted.gameStatus c' = Mounted.gameStatus c
  /\ Mounted.width c' = Mounted.width c
  /\ Mounted.height c' = Mounted.height c
  /\ exists t : Tick.t,
       gameLoop rnd
         (Frame.mk ts (Mounted.width c) (Mounted.height c)
            (Callback.gameStatus cb))
         (Mounted.world c) = Some t
       /\ Mounted.world c' = Tick.world t
       /\ events = Tick.events t
       /\ ((Tick.requested t = false
            /\ Mounted.queue c' = Mounted.queue c
            /\ Mounted.animationRef c' = Mounted.animationRef c
            /\ Mounted.nextHandle c' = Mounted.nextHandle c)
           \/ (Tick.requested t = true
               /\ Mounted.queue c'
                  = Mounted.queue c
                    ++ [Callback.mk (Mounted.nextHandle c)
                          (Callback.gameStatus cb)]
               /\ Mounted.animationRef c' = Mounted.nextHandle c
               /\ Mounted.nextHandle c' = S (Mounted.nextHandle c))).
Proof.
  unfold runCallback.
  destruct (gameLoop rnd _ _) as [t|] eqn:Hloop; [|discriminate].
  intros [= <- <-]. destruct (Tick.requested t) eqn:Hreq; cbn;
    (split; [reflexivity|]); (split; [reflexivity|]);
    (split; [reflexivity|]); exists t; (split; [reflexivity|]);
    (split; [reflexivity|]); (split; [reflexivity|]).
  - right. repeat apply conj; (exact Hreq || reflexivity).
  - left. repeat apply conj; (exact Hreq || reflexivity).
Qed.

Lemma runQueue_playing (rnd : nat -> R) (ts : R)
    (callbacks : list Callback.t) (c c' : Mounted.t)
    (events : list Event) :
  runQueue rnd ts callbacks c = Some (c', events) ->
  Forall (fun cb => Callback.gameStatus cb = gsPlaying) callbacks ->
  Forall (fun cb => Callback.gameStatus cb = gsPlaying) (Mounted.queue c) ->
  Forall (fun cb => Callback.gameStatus cb = gsPlaying) (Mounted.queue c').
Proof.
  revert c c' events.
  induction callbacks as [|cb rest IH]; intros c c' events Hrun Hall Hq.
  - cbn in Hrun. injection Hrun as <- <-. exact Hq.
  - cbn in Hrun.
    destruct (runCallback rnd ts cb c) as [[c1 ev1]|] eqn:Hcb;
      [|discriminate].
    destruct (runQueue rnd ts rest c1) as [[c2 ev2]|] eqn:Hrest;
      [|discriminate].
    injection Hrun as <- <-. inversion Hall as [|? ? Hcbp Hrestp]; subst.
    apply (IH c1 c2 ev2 Hrest Hrestp).
    destruct (runCallback_queue rnd ts cb c c1 ev1 Hcb)
      as (_ & _ & _ & t & _ & _ & _ & [(_ & -> & _) | (_ & -> & _)]).
    + exact Hq.
    + apply Forall_app. split; [exact Hq|]. constructor; [exact Hcbp|].
      constructor.
Qed.

(** X17 (the closures of the frame loop).  Through frames, taps,
    pauses and resumes, every callback that waits for an animation
    frame is a [gameLoop] closure made with [gameStatus = 'playing']:
    the effects register no other, and a closure registers itself.  So
    [gameLoop] is never called with another [gameStatus], and its test
    of [gameStatus] never fails. *)
Theorem every_callback_is_playing (rnd : nat -> R) (c : Mounted.t) :
  runs rnd c ->
  Forall (fun cb => Callback.gameStatus cb = gsPlaying) (Mounted.queue c).
Proof.
  intros Hruns.
  induction Hruns as [ww wh stored n handle | ts c c' events _ IH Hframe
                     | c _ IH | gs stored c _ IH].
  - repeat constructor.
  - unfold browserFrame in Hframe.
    apply (runQueue_playing rnd ts _ _ _ _ Hframe IH). constructor.
  - exact IH.
  - assert (Hcancel : Forall (fun cb => Callback.gameStatus cb = gsPlaying)
              (filter (fun cb => negb (Callback.handle cb
                                       =? Mounted.animationRef c)%nat)
                 (Mounted.queue c))).
    { apply Forall_forall. intros cb Hin. apply filter_In in Hin.
      rewrite Forall_forall in IH. now apply IH. }
    unfold setGameStatus.
    destruct gs, (Mounted.gameStatus c); try exact IH.
    + unfold resetGame. cbn [Mounted.world Mounted.width Mounted.height
        requestAnimationFrame cancelAnimationFrame].
      destruct (initGame rnd _ _ _ _ _) as [[game lastSpeed] n].
      cbn. rewrite <- app_assoc. apply Forall_app.
      split; [exact Hcancel|]. repeat constructor.
    + exact Hcancel.
Qed.

Lemma every_callback_is_playing_witness :
  runs zeroRandom
    (setGameStatus zeroRandom gsPaused 0%Z
       (mountCanvas zeroRandom 400 300 0%Z 0 1))
  /\ Forall (fun cb => Callback.gameStatus cb = gsPlaying)
       (Mounted.queue
          (setGameStatus zeroRandom gsPaused 0%Z
             (mountCanvas zeroRandom 400 300 0%Z 0 1))).
Proof.
  assert (H : runs zeroRandom
                (setGameStatus zeroRandom gsPaused 0%Z
                   (mountCanvas zeroRandom 400 300 0%Z 0 1)))
    by (apply runs_status, runs_mount).
  split; [exact H|].
  exact (every_callback_is_playing zeroRandom _ H).
Defined.

Lemma runQueue_status (rnd : nat -> R) (ts : R)
    (callbacks : list Callback.t) (c c' : Mounted.t)
    (events : list Event) :
  runQueue rnd ts callbacks c = Some (c', events) ->
  Mounted.gameStatus c' = Mounted.gameStatus c
  /\ Mounted.width c' = Mounted.width c
  /\ Mounted.height c' = Mounted.height c
  /\ (GameState.status (World.game (Mounted.world c')) = playing ->
      GameState.status (World.game (Mounted.world c)) = playing).
Proof.
  revert c c' events.
  induction callbacks as [|cb rest IH]; intros c c' events Hrun.
  - cbn in Hrun. injection Hrun as <- <-. auto.
  - cbn in Hrun.
    destruct (runCallback rnd ts cb c) as [[c1 ev1]|] eqn:Hcb;
      [|discriminate].
    destruct (runQueue rnd ts rest c1) as [[c2 ev2]|] eqn:Hrest;
      [|discriminate].
    injection Hrun as <- <-.
    destruct (IH c1 c2 ev2 Hrest) as (Hgs & Hw & Hh & Hst).
    destruct (runCallback_queue rnd ts cb c c1 ev1 Hcb)
      as (Hgs1 & Hw1 & Hh1 & t & Hloop & Hworld & _).
    repeat apply conj; try congruence.
    intros Hplay. apply Hst in Hplay. rewrite Hworld in Hplay.
    exact (proj1 (gameLoop_status rnd _ _ t Hloop) Hplay).
Qed.

(** While the game is playing, through frames and taps, two callbacks
    wait for the next frame, and [animationRef] holds the handle of the
    second. *)
Lemma plays_two_callbacks (rnd : nat -> R) (c : Mounted.t) :
  plays rnd c ->
  Mounted.gameStatus c = gsPlaying
  /\ (GameState.status (World.game (Mounted.world c)) = playing ->
      exists a b : nat,
        Mounted.queue c = [Callback.mk a gsPlaying; Callback.mk b gsPlaying]
        /\ a <> b
        /\ Mounted.animationRef c = b).
Proof.
  intros Hplays.
  induction Hplays as [ww wh stored n handle | ts c c' events _ IH Hframe
                      | c _ IH].
  - split; [reflexivity|]. intros _. exists handle, (S handle).
    split; [reflexivity|]. split; [lia|reflexivity].
  - destruct IH as [Hgs IH]. unfold browserFrame in Hframe.
    destruct (runQueue_status rnd ts _ _ _ _ Hframe) as (Hgs' & _ & _ & Hst).
    cbn in Hgs', Hst. split; [congruence|]. intros Hplay.
    destruct (IH (Hst Hplay)) as (a & b & Hq & _ & _).
    rewrite Hq in Hframe. cbn [runQueue] in Hframe.
    destruct (runCallback rnd ts _ _) as [[c1 ev1]|] eqn:Ha;
      [|discriminate].
    destruct (runCallback rnd ts (Callback.mk b gsPlaying) c1)
      as [[c2 ev2]|] eqn:Hb; [|discriminate].
    injection Hframe as <- <-.
    destruct (runCallback_queue rnd ts _ _ _ _ Ha)
      as (_ & _ & _ & t1 & Hloop1 & Hw1 & _ & Hq1).
    destruct (runCallback_queue rnd ts _ _ _ _ Hb)
      as (_ & _ & _ & t2 & Hloop2 & Hw2 & _ & Hq2).
    destruct (gameLoop_status rnd _ _ t2 Hloop2) as [Hback2 Hreq2].
    rewrite <- Hw2, Hplay in Hreq2.
    rewrite <- Hw2 in Hback2. specialize (Hback2 Hplay).
    destruct (gameLoop_status rnd _ _ t1 Hloop1) as [_ Hreq1].
    rewrite <- Hw1, Hback2 in Hreq1. cbn in Hreq1, Hreq2.
    destruct Hq1 as [(Hno & _) | (_ & Hq1 & _ & Hn1)]; [congruence|].
    destruct Hq2 as [(Hno & _) | (_ & Hq2 & Hr2 & _)]; [congruence|].
    cbn in Hq1. rewrite Hq1, Hn1 in Hq2. cbn in Hq2, Hn1.
    exists (Mounted.nextHandle c), (S (Mounted.nextHandle c)).
    split; [exact Hq2|]. split; [lia|]. now rewrite Hr2, Hn1.
  - destruct IH as [Hgs IH]. split; [exact Hgs|].
    unfold tapCanvas. rewrite Hgs. exact IH.
Qed.

(** X18 (pausing).  Pausing a game that is playing does not stop it.
    The cleanup of "Start game loop" cancels the callback whose handle
    [animationRef] holds, the second of the two that wait; the first
    stays, with its closure of [gameStatus = 'playing'].  So the next
    animation frame still makes a playing call of [gameLoop] on the
    game: gravity acts on, while taps are ignored.  And a resume that
    comes before the next frame finds nothing to cancel: three
    callbacks then wait for the frame. *)
Theorem pause_leaves_a_frame_loop_running (rnd : nat -> R) (c : Mounted.t)
    (stored : Z) :
  plays rnd c ->
  GameState.status (World.game (Mounted.world c)) = playing ->
  let p := setGameStatus rnd gsPaused stored c in
  Mounted.gameStatus p = gsPaused
  /\ Mounted.world p = Mounted.world c
  /\ tapCanvas p = p
  /\ (exists a : nat, Mounted.queue p = [Callback.mk a gsPlaying])
  /\ (forall (ts : R) (t : Tick.t),
        let f :=
          Frame.mk ts (Mounted.width c) (Mounted.height c) gsPlaying in
        gameLoop rnd f (Mounted.world c) = Some t ->
        exists p' : Mounted.t,
          browserFrame rnd ts p = Some (p', Tick.events t)
          /\ Mounted.world p' = Tick.world t
          /\ Mounted.gameStatus p' = gsPaused
          /\ length (Mounted.queue p')
             = (if Tick.requested t then 1 else 0)%nat
          /\ Ball.velocity
               (GameState.ball (World.game (Mounted.world p')))
             = Ball.velocity (GameState.ball (World.game (Mounted.world c)))
               + 0.35 * deltaTime f (Mounted.world c))
  /\ forall stored' : Z,
       length (Mounted.queue (setGameStatus rnd gsPlaying stored' p))
       = 3%nat.
Proof.
  intros Hplays Hst p.
  destruct (plays_two_callbacks rnd c Hplays) as [Hgs Hq].
  destruct (Hq Hst) as (a & b & Hqueue & Hab & Href).
  assert (Hp : p = Mounted.mk (Mounted.world c) (Mounted.width c)
                 (Mounted.height c) gsPaused b [Callback.mk a gsPlaying]
                 (Mounted.nextHandle c)).
  { unfold p, setGameStatus, cancelAnimationFrame. rewrite Hgs, Href, Hqueue.
    cbn. rewrite Nat.eqb_refl.
    replace (a =? b)%nat with false by (symmetry; now apply Nat.eqb_neq).
    reflexivity. }
  rewrite Hp. cbn [Mounted.gameStatus Mounted.world Mounted.queue].
  split; [reflexivity|]. split; [reflexivity|]. split; [reflexivity|].
  split; [exists a; reflexivity|]. split.
  - intros ts t Hloop.
    set (f := Frame.mk ts (Mounted.width c) (Mounted.height c) gsPlaying)
      in *.
    unfold browserFrame, runQueue, runCallback.
    cbn [Mounted.queue Mounted.world Mounted.width Mounted.height
         Callback.gameStatus]. fold f. rewrite Hloop.
    eexists. split; [rewrite app_nil_r; reflexivity|].
    destruct (gameLoop_playing rnd f (Mounted.world c) t Hloop eq_refl)
      as (Hb & _).
    destruct (movedBall_motion f (Mounted.world c)) as (Hv & _).
    cbv zeta in Hv.
    destruct (Tick.requested t); cbn; rewrite Hb, Hv; repeat split.
  - intros stored'. unfold setGameStatus, resetGame.
    cbn -[initGame Nat.eqb].
    destruct (initGame rnd _ _ _ _ _) as [[game lastSpeed] n].
    cbn -[Nat.eqb].
    replace (a =? b)%nat with false by (symmetry; now apply Nat.eqb_neq).
    reflexivity.
Qed.

Lemma pause_leaves_a_frame_loop_running_witness :
  plays zeroRandom (mountCanvas zeroRandom 400 300 0%Z 0 1)
  /\ GameState.status
       (World.game (Mounted.world (mountCanvas zeroRandom 400 300 0%Z 0 1)))
     = playing
  /\ exists a : nat,
       Mounted.queue
         (setGameStatus zeroRandom gsPaused 0%Z
            (mountCanvas zeroRandom 400 300 0%Z 0 1))
       = [Callback.mk a gsPlaying].
Proof.
  assert (Hplays : plays zeroRandom (mountCanvas zeroRandom 400 300 0%Z 0 1))
    by apply plays_mount.
  split; [exact Hplays|]. split; [exact smallCanvas_playing|].
  exact (proj1 (proj2 (proj2 (proj2
           (pause_leaves_a_frame_loop_running zeroRandom
              (mountCanvas zeroRandom 400 300 0%Z 0 1) 0%Z Hplays
              smallCanvas_playing))))).
Defined.

Lemma initGame_start (rnd : nat -> R) (cw ch : R) (stored : Z) (ls : R)
    (n : nat) :
  let g := fst (fst (initGame rnd cw ch stored ls n)) in
  GameState.status g = playing
  /\ GameState.score g = 0%Z
  /\ GameState.cameraY g = 0
  /\ Ball.velocity (GameState.ball g) = 0
  /\ Ball.y (GameState.ball g) = ch * 0.7
  /\ length (GameState.obstacles g) = 5%nat
  /\ Forall (fun o => Obstacle.passed o = false) (GameState.obstacles g).
Proof.
  cbv zeta. rewrite initGame_game.
  cbn [GameState.status GameState.score GameState.cameraY GameState.ball
       GameState.obstacles Ball.velocity Ball.y].
  unfold generateInitialObstacles.
  destruct (initialLoop_spec rnd 5 0 cw (ch * 0.3) [] (S n))
    as (news & Heq & Hlen & Hnth).
  destruct (initialLoop rnd 5 0 cw (ch * 0.3) [] (S n)) as [obs n1].
  cbn [fst snd app] in *. subst obs.
  repeat apply conj; try reflexivity; try exact Hlen.
  apply Forall_forall. intros o Hin. apply In_nth_error in Hin.
  destruct Hin as [j Hj]. now destruct (Hnth j o Hj) as (_ & _ & _ & Hp).
Qed.

(** X19 (resuming).  Resuming a paused game starts a new game: the
    effect "Reset game" runs because the prop [gameStatus] has changed,
    and replaces the game state by that of [initGame], playing, with
    score 0, the ball at rest at its starting place and five unpassed
    obstacles, whatever the state of the game that was paused.  The
    refs of the deferred colour change and of the flash are left as
    they are, so that a colour change scheduled in the old game is
    applied to the ball of the new one.  Two callbacks are registered,
    after those that are left. *)
Theorem resume_starts_a_new_game (rnd : nat -> R) (c : Mounted.t)
    (stored : Z) :
  Mounted.gameStatus c = gsPaused ->
  let r := setGameStatus rnd gsPlaying stored c in
  let w := Mounted.world c in
  let g := World.game (Mounted.world r) in
  g = fst (fst (initGame rnd (Mounted.width c) (Mounted.height c) stored
                  (World.lastObstacleSpeed w) (World.randomCalls w)))
  /\ GameState.status g = playing
  /\ GameState.score g = 0%Z
  /\ GameState.cameraY g = 0
  /\ Ball.velocity (GameState.ball g) = 0
  /\ Ball.y (GameState.ball g) = Mounted.height c * 0.7
  /\ length (GameState.obstacles g) = 5%nat
  /\ Forall (fun o => Obstacle.passed o = false) (GameState.obstacles g)
  /\ World.lastTime (Mounted.world r) = 0
  /\ World.pendingColorChange (Mounted.world r) = World.pendingColorChange w
  /\ World.colorChangeFlash (Mounted.world r) = World.colorChangeFlash w
  /\ (forall (p : Pending.t) (f : Frame.t),
        World.pendingColorChange w = Some p ->
        Pending.timestamp p <= Frame.timestamp f ->
        Ball.color (movedBall f (Mounted.world r)) = Pending.newColor p)
  /\ Mounted.gameStatus r = gsPlaying
  /\ Mounted.queue r
     = filter (fun cb => negb (Callback.handle cb
                               =? Mounted.animationRef c)%nat)
         (Mounted.queue c)
       ++ [Callback.mk (Mounted.nextHandle c) gsPlaying;
           Callback.mk (S (Mounted.nextHandle c)) gsPlaying].
Proof.
  intros Hgs r w g.
  pose proof (initGame_start rnd (Mounted.width c) (Mounted.height c)
                stored (World.lastObstacleSpeed w) (World.randomCalls w))
    as Hstart.
  cbv zeta in Hstart.
  assert (Hr : Mounted.world r
               = World.mk
                   (fst (fst (initGame rnd (Mounted.width c)
                                (Mounted.height c) stored
                                (World.lastObstacleSpeed w)
                                (World.randomCalls w))))
                   0 (World.colorChangeFlash w)
                   (World.pendingColorChange w)
                   (snd (fst (initGame rnd (Mounted.width c)
                                (Mounted.height c) stored
                                (World.lastObstacleSpeed w)
                                (World.randomCalls w))))
                   (snd (initGame rnd (Mounted.width c) (Mounted.height c)
                           stored (World.lastObstacleSpeed w)
                           (World.randomCalls w)))
               /\ Mounted.gameStatus r = gsPlaying
               /\ Mounted.queue r
                  = filter (fun cb => negb (Callback.handle cb
                                            =? Mounted.animationRef c)%nat)
                      (Mounted.queue c)
                    ++ [Callback.mk (Mounted.nextHandle c) gsPlaying;
                        Callback.mk (S (Mounted.nextHandle c)) gsPlaying]).
  { unfold r, setGameStatus, resetGame. rewrite Hgs.
    cbn -[initGame Nat.eqb]. fold w.
    destruct (initGame rnd _ _ _ _ _) as [[game lastSpeed] n].
    cbn -[Nat.eqb]. rewrite <- app_assoc. repeat split. }
  destruct Hr as (Hworld & Hgs' & Hqueue).
  assert (Hg : g = fst (fst (initGame rnd (Mounted.width c)
                               (Mounted.height c) stored
                               (World.lastObstacleSpeed w)
                               (World.randomCalls w))))
    by (unfold g; now rewrite Hworld).
  rewrite Hg.
  destruct Hstart as (H1 & H2 & H3 & H4 & H5 & H6 & H7).
  repeat apply conj; try assumption; try reflexivity;
    try (rewrite Hworld; reflexivity).
  intros p f Hp Hts.
  pose proof (applied_color f (Mounted.world r)) as Hcol.
  assert (Hp' : World.pendingColorChange (Mounted.world r) = Some p)
    by (rewrite Hworld; exact Hp).
  rewrite Hp' in Hcol.
  rewrite (proj2 (Rgeb_true _ _) Hts) in Hcol.
  unfold movedBall, applyGravity. cbn [Ball.color]. apply Hcol.
Qed.

Lemma resume_starts_a_new_game_witness :
  Mounted.gameStatus
    (setGameStatus zeroRandom gsPaused 0%Z
       (mountCanvas zeroRandom 400 300 0%Z 0 1))
  = gsPaused
  /\ GameState.score
       (World.game
          (Mounted.world
             (setGameStatus zeroRandom gsPlaying 0%Z
                (setGameStatus zeroRandom gsPaused 0%Z
                   (mountCanvas zeroRandom 400 300 0%Z 0 1)))))
     = 0%Z.
Proof.
  split; [reflexivity|].
  exact (proj1 (proj2 (proj2
           (resume_starts_a_new_game zeroRandom
              (setGameStatus zeroRandom gsPaused 0%Z
                 (mountCanvas zeroRandom 400 300 0%Z 0 1)) 0%Z eq_refl)))).
Defined.

(** ** The column of the ball *)

(** X20 (what a session never changes).  From the start of a game
    on, through calls and taps, the ball keeps the [x] it was given,
    the middle of the canvas as it was then, and its radius of 15, and
    every obstacle has the radius 140.  The lane centre however is read
    from the canvas at every call.  So once the canvas is at least 350
    wider or narrower than it was at the start, the ball is out of
    reach of every obstacle, and no call reports a collision. *)
Theorem ball_keeps_to_its_column (rnd : nat -> R) (cw ch : R) (stored : Z)
    (n : nat) (w : World.t) :
  steps rnd (Component.world (mount rnd cw ch stored n)) w ->
  Ball.x (GameState.ball (World.game w)) = cw / 2
  /\ Ball.radius (GameState.ball (World.game w)) = 15
  /\ (forall o, In o (GameState.obstacles (World.game w)) ->
                Obstacle.radius o = 140)
  /\ forall f : Frame.t,
       350 <= Rabs (Frame.width f - cw) -> collides f w = false.
Proof.
  intros Hsteps.
  assert (Hinv : Ball.x (GameState.ball (World.game w)) = cw / 2
                 /\ Ball.radius (GameState.ball (World.game w)) = 15
                 /\ (forall o, In o (GameState.obstacles (World.game w)) ->
                               Obstacle.radius o = 140)).
  { remember (Component.world (mount rnd cw ch stored n)) as w0 eqn:Hw0.
    induction Hsteps as [w | w w' w'' _ IH Hstep].
    - subst w.
      destruct (mount_obstacles rnd cw ch stored n) as (_ & _ & _ & _ & Hnth).
      destruct (mount_motion rnd cw ch stored n) as (_ & _ & Hx & Hr & _).
      cbv zeta in *. split; [exact Hx|]. split; [exact Hr|].
      intros o Hin. apply In_nth_error in Hin. destruct Hin as [j Hj].
      now destruct (Hnth j o Hj) as (_ & _ & Hrad & _).
    - destruct (IH Hw0) as (Hx & Hr & Hrad). clear IH.
      destruct Hstep as [gs w' | f w' t _ Hloop].
      + destruct gs; cbn; auto.
      + destruct (Frame.gameStatus f) eqn:Hgs.
        * destruct (gameLoop_playing rnd f w' t Hloop Hgs)
            as (Hb & _ & _ & _ & _ & _ & _ & Hend).
          destruct (movedBall_motion f w') as (_ & _ & Hx' & Hr').
          rewrite Hb, Hx', Hr'. split; [exact Hx|]. split; [exact Hr|].
          assert (Hscored : forall o, In o (scoredObstacles f w') ->
                              Obstacle.radius o = 140).
          { intros o Hin. rewrite scoredObstacles_evolve in Hin.
            apply in_map_iff in Hin. destruct Hin as (o' & <- & Hin).
            destruct (evolve_same f w' o') as [(_ & _ & _ & Hsame & _) _].
            rewrite Hsame. now apply Hrad. }
          destruct Hend as [(_ & _ & _ & _ & Hobs)
                           | (_ & h & _ & Hobs & _)]; rewrite Hobs.
          -- exact Hscored.
          -- intros o Hin. apply filter_In in Hin. destruct Hin as [Hin _].
             rewrite generatedObstacles_spec in Hin.
             destruct (nearFrontier f w' h); [|now apply Hscored].
             apply in_app_or in Hin. destruct Hin as [Hin | [<- | []]];
               [now apply Hscored|].
             unfold newObstacle. apply createObstacle_fields.
        * destruct (gameLoop_paused rnd f w' t Hloop Hgs) as [Hg _].
          rewrite Hg. auto. }
  destruct Hinv as (Hx & Hr & Hrad).
  split; [exact Hx|]. split; [exact Hr|]. split; [exact Hrad|].
  intros f Hwide. unfold collides. apply collisionLoop_false.
  intros o Hin. rewrite scoredObstacles_evolve in Hin.
  apply in_map_iff in Hin. destruct Hin as (o' & <- & Hin).
  destruct (evolve_same f w o') as [(_ & _ & _ & Hsame & _) _].
  destruct (movedBall_motion f w) as (_ & _ & Hx' & Hr').
  apply checkCollision_beside.
  rewrite Hsame, (Hrad o' Hin), Hx', Hr', Hx, Hr.
  replace (cw / 2 - Frame.width f / 2) with (- ((Frame.width f - cw) / 2))
    by lra.
  rewrite Rabs_Ropp.
  replace ((Frame.width f - cw) / 2) with ((Frame.width f - cw) * / 2)
    by lra.
  rewrite Rabs_mult, (Rabs_pos_eq (/ 2)) by lra.
  destruct (Obstacle.type (evolve f w o')); cbn; lra.
Qed.

Lemma ball_keeps_to_its_column_witness :
  steps zeroRandom (Component.world smallCanvas) (Component.world smallCanvas)
  /\ 350 <= Rabs (Frame.width (Frame.mk 16.67 1200 300 gsPlaying) - 400)
  /\ collides (Frame.mk 16.67 1200 300 gsPlaying) (Component.world smallCanvas)
     = false.
Proof.
  assert (Hw : 350 <= Rabs (Frame.width (Frame.mk 16.67 1200 300 gsPlaying)
                            - 400)).
  { cbn. rewrite Rabs_pos_eq; lra. }
  split; [apply steps_refl|]. split; [exact Hw|].
  exact (proj2 (proj2 (proj2
           (ball_keeps_to_its_column zeroRandom 400 300 0%Z 0
              (Component.world smallCanvas)
              (steps_refl zeroRandom (Component.world smallCanvas))))) _ Hw).
Defined.

(** ** Two calls in a frame, up to the first pause *)

(** X21 (an animation frame of a game that has never been paused).
    From the mount on, through animation frames and taps only (the
    states of [plays]: the prop [gameStatus] has been ['playing'] in
    every render), and while the game is playing, the two callbacks
    that "Start game loop" and "Reset game" registered at the mount
    make an animation frame two calls of [gameLoop], one after the
    other on the same refs, with the same timestamp.  The second call
    finds [lastTimeRef] at that timestamp: for a timestamp other than 0
    no time has passed for it, it leaves the height and the velocity of
    the ball as the first call left them, and it moves the camera once
    more, so that in the frame the camera covers 19 hundredths of its
    distance to the target instead of a tenth.  Nothing is said here of
    a component that has been paused: a pause and a resume change the
    number of callbacks that wait for a frame. *)
Theorem browser_frame_is_two_calls (rnd : nat -> R) (c c' : Mounted.t)
    (ts : R) (events : list Event) :
  plays rnd c ->
  GameState.status (World.game (Mounted.world c)) = playing ->
  browserFrame rnd ts c = Some (c', events) ->
  let f := Frame.mk ts (Mounted.width c) (Mounted.height c) gsPlaying in
  exists t1 t2 : Tick.t,
    gameLoop rnd f (Mounted.world c) = Some t1
    /\ gameLoop rnd f (Tick.world t1) = Some t2
    /\ events = Tick.events t1 ++ Tick.events t2
    /\ Mounted.world c' = Tick.world t2
    /\ (ts <> 0 ->
        let b1 := GameState.ball (World.game (Tick.world t1)) in
        let b2 := GameState.ball (World.game (Tick.world t2)) in
        let target := Ball.y b1 - Mounted.height c * 0.7 in
        deltaTime f (Tick.world t1) = 0
        /\ Ball.y b2 = Ball.y b1
        /\ Ball.velocity b2 = Ball.velocity b1
        /\ GameState.cameraY (World.game (Tick.world t2)) - target
           = 0.81 * (GameState.cameraY (World.game (Mounted.world c))
                     - target)).
Proof.
  intros Hplays Hst Hframe f.
  destruct (plays_two_callbacks rnd c Hplays) as [_ Hq].
  destruct (Hq Hst) as (a & b & Hqueue & _ & _).
  unfold browserFrame in Hframe. rewrite Hqueue in Hframe.
  cbn [runQueue] in Hframe.
  destruct (runCallback rnd ts _ _) as [[c1 ev1]|] eqn:Ha; [|discriminate].
  destruct (runCallback rnd ts (Callback.mk b gsPlaying) c1)
    as [[c2 ev2]|] eqn:Hb; [|discriminate].
  injection Hframe as <- <-.
  destruct (runCallback_queue rnd ts _ _ _ _ Ha)
    as (_ & Hw1 & Hh1 & t1 & Hloop1 & Hworld1 & Hev1 & _).
  destruct (runCallback_queue rnd ts _ _ _ _ Hb)
    as (_ & _ & _ & t2 & Hloop2 & Hworld2 & Hev2 & _).
  cbn [Mounted.world Mounted.width Mounted.height Callback.gameStatus]
    in Hloop1, Hw1, Hh1.
  rewrite Hw1, Hh1, Hworld1 in Hloop2. cbn [Callback.gameStatus] in Hloop2.
  fold f in Hloop1, Hloop2.
  exists t1, t2. split; [exact Hloop1|]. split; [exact Hloop2|].
  split; [rewrite app_nil_r; congruence|]. split; [exact Hworld2|].
  intros Hts. cbv zeta.
  destruct (gameLoop_playing rnd f (Mounted.world c) t1 Hloop1 eq_refl)
    as (Hb1 & Hc1 & _ & _ & _ & _ & Hlt1 & _).
  destruct (gameLoop_playing rnd f (Tick.world t1) t2 Hloop2 eq_refl)
    as (Hb2 & Hc2 & _).
  assert (Hdt : deltaTime f (Tick.world t1) = 0).
  { rewrite deltaTime_later by (rewrite Hlt1; exact Hts).
    rewrite Hlt1. lra. }
  destruct (movedBall_motion f (Tick.world t1)) as (Hv & Hy & _).
  cbv zeta in Hv, Hy. rewrite Hdt in Hv, Hy.
  split; [exact Hdt|]. rewrite Hb2.
  split; [rewrite Hy; lra|]. split; [rewrite Hv; lra|].
  rewrite Hc2. unfold movedCamera at 1, followBall. rewrite Hy, Hc1.
  unfold movedCamera, followBall. rewrite <- Hb1.
  cbn [Frame.height f]. lra.
Qed.

Lemma mount_first_call (rnd : nat -> R) (cw ch : R) (stored : Z) (n : nat)
    (f : Frame.t) :
  460 <= ch ->
  Frame.height f = ch ->
  Frame.gameStatus f = gsPlaying ->
  let w0 := Component.world (mount rnd cw ch stored n) in
  exists t : Tick.t,
    gameLoop rnd f w0 = Some t
    /\ GameState.obstacles (World.game (Tick.world t)) = rotated f w0
    /\ GameState.obstacles (World.game w0) <> [].
Proof.
  intros Hch Hfh Hgs w0.
  destruct (mount_obstacles rnd cw ch stored n)
    as (Hst & Hy & Hv & Hlen & Hnth).
  destruct (mount_motion rnd cw ch stored n)
    as (_ & Hcam & _ & Hr & _ & Hlt & _).
  cbv zeta in *. fold w0 in Hst, Hy, Hv, Hlen, Hnth, Hcam, Hr, Hlt.
  unfold BALL_RADIUS in Hr.
  destruct (first_call rnd ch f w0 Hch Hfh Hgs Hlt Hst Hcam Hy Hr)
    as (t & Hloop & _ & _ & _ & _ & Hobs & _).
  - rewrite Hv. lra.
  - destruct (nth_error (GameState.obstacles (World.game w0)) 4)
      as [o|] eqn:Ho.
    + exists o. split; [now apply nth_error_In in Ho|].
      destruct (Hnth 4%nat o Ho) as (_ & Hyo & _).
      rewrite Hyo. unfold OBSTACLE_GAP. simpl. lra.
    + apply nth_error_None in Ho. lia.
  - intros o Hin. apply In_nth_error in Hin. destruct Hin as [j Hj].
    assert (Hlt5 : (j < 5)%nat).
    { rewrite <- Hlen. apply nth_error_Some. congruence. }
    destruct (Hnth j o Hj) as (_ & Hyo & Hrad & _).
    split; [exact Hrad|]. rewrite Hyo. unfold OBSTACLE_GAP.
    assert (0 <= INR j <= 4).
    { split; [apply pos_INR|].
      replace 4 with (INR 4) by (simpl; lra). apply le_INR. lia. }
    lra.
  - exists t. split; [exact Hloop|]. split; [exact Hobs|].
    intros Hnil. rewrite Hnil in Hlen. discriminate.
Qed.

Lemma browser_frame_is_two_calls_witness :
  plays zeroRandom (mountCanvas zeroRandom 400 600 0%Z 0 1)
  /\ GameState.status
       (World.game (Mounted.world (mountCanvas zeroRandom 400 600 0%Z 0 1)))
     = playing
  /\ exists (c' : Mounted.t) (events : list Event) (t1 t2 : Tick.t),
       browserFrame zeroRandom 16.67
         (mountCanvas zeroRandom 400 600 0%Z 0 1) = Some (c', events)
       /\ gameLoop zeroRandom (Frame.mk 16.67 400 600 gsPlaying)
            (Mounted.world (mountCanvas zeroRandom 400 600 0%Z 0 1))
          = Some t1
       /\ gameLoop zeroRandom (Frame.mk 16.67 400 600 gsPlaying)
            (Tick.world t1) = Some t2
       /\ events = Tick.events t1 ++ Tick.events t2.
Proof.
  assert (Hplays : plays zeroRandom (mountCanvas zeroRandom 400 600 0%Z 0 1))
    by apply plays_mount.
  assert (Hst : GameState.status
                  (World.game
                     (Mounted.world
                        (mountCanvas zeroRandom 400 600 0%Z 0 1)))
                = playing).
  { exact (proj1 (mount_obstacles zeroRandom 400 600 0%Z 0)). }
  split; [exact Hplays|]. split; [exact Hst|].
  destruct (browserFrame zeroRandom 16.67
              (mountCanvas zeroRandom 400 600 0%Z 0 1))
    as [[c' events]|] eqn:Hframe.
  - destruct (browser_frame_is_two_calls zeroRandom _ c' 16.67 events
                Hplays Hst Hframe) as (t1 & t2 & H1 & H2 & H3 & _).
    exists c', events, t1, t2. auto.
  - exfalso.
    destruct (mount_first_call zeroRandom 400 600 0%Z 0
                (Frame.mk 16.67 400 600 gsPlaying))
      as (t1 & Ht1 & Hobs1 & Hne); [lra|reflexivity|reflexivity|].
    destruct (gameLoop_defined zeroRandom
                (Frame.mk 16.67 400 600 gsPlaying) (Tick.world t1))
      as [t2 Ht2].
    { rewrite Hobs1. unfold rotated. intros Hnil.
      apply map_eq_nil in Hnil. contradiction. }
    unfold browserFrame in Hframe.
    cbn [mountCanvas requestAnimationFrame Mounted.queue Mounted.world
         Mounted.width Mounted.height Mounted.gameStatus
         Mounted.animationRef Mounted.nextHandle app runQueue] in Hframe.
    unfold runCallback in Hframe.
    cbn [Mounted.world Mounted.width Mounted.height Callback.gameStatus]
      in Hframe.
    rewrite Ht1 in Hframe.
    destruct (Tick.requested t1);
      cbn [withWorld requestAnimationFrame Mounted.world Mounted.width
           Mounted.height Callback.gameStatus] in Hframe;
      rewrite Ht2 in Hframe; discriminate.
Defined.

(** ** The spacing of the obstacles *)

Lemma last_default (l : list R) (a d d' : R) :
  last (a :: l) d = last (a :: l) d'.
Proof.
  revert a. induction l as [|b l IH]; intros a; [reflexivity|].
  change (last (b :: l) d = last (b :: l) d'). apply IH.
Qed.

Lemma last_cons (ys : list R) (y y' : R) :
  last (y' :: ys) y = last ys y'.
Proof.
  destruct ys as [|a ys]; [reflexivity|].
  change (last (a :: ys) y = last (a :: ys) y'). apply last_default.
Qed.

Lemma spaced_last_le (y : R) (ys : list R) :
  spaced (y :: ys) -> forall v, In v (y :: ys) -> last ys y <= v.
Proof.
  revert y. induction ys as [|y' ys IH]; intros y Hsp v Hin.
  - destruct Hin as [<- | []]. cbn. lra.
  - destruct Hsp as [Hy Hsp]. unfold OBSTACLE_GAP in Hy.
    rewrite last_cons. destruct Hin as [<- | Hin].
    + pose proof (IH y' Hsp y' (or_introl eq_refl)). lra.
    + now apply IH.
Qed.

Lemma spaced_minimum (y : R) (ys : list R) :
  spaced (y :: ys) -> minimum (y :: ys) = Some (last ys y).
Proof.
  intros Hsp. apply minimum_char.
  - clear Hsp. revert y. induction ys as [|y' ys IH]; intros y.
    + now left.
    + right. rewrite last_cons. apply IH.
  - now apply spaced_last_le.
Qed.

Lemma spaced_app (y : R) (ys : list R) :
  spaced (y :: ys) ->
  spaced ((y :: ys) ++ [last ys y - OBSTACLE_GAP]).
Proof.
  revert y. induction ys as [|y' ys IH]; intros y Hsp.
  - cbn. auto.
  - destruct Hsp as [Hy Hsp]. specialize (IH y' Hsp).
    rewrite last_cons. cbn [app spaced] in *. split; [exact Hy|exact IH].
Qed.

Lemma spaced_skipn (k : nat) (ys : list R) :
  spaced ys -> spaced (skipn k ys).
Proof.
  revert ys. induction k as [|k IH]; intros ys Hsp; [exact Hsp|].
  destruct ys as [|y ys]; [exact I|]. cbn [skipn]. apply IH.
  now destruct Hsp.
Qed.

Lemma spaced_filter (bound : R) (ys : list R) :
  spaced ys ->
  exists k : nat, filter (fun v => Rltb v bound) ys = skipn k ys.
Proof.
  induction ys as [|y ys IH]; intros Hsp; [exists 0%nat; reflexivity|].
  cbn [filter]. destruct (Rltb y bound) eqn:Hy.
  - exists 0%nat. cbn [skipn]. f_equal. apply filter_all.
    intros v Hv. apply Rltb_true. apply Rltb_true in Hy.
    clear IH. revert y Hsp Hy v Hv.
    induction ys as [|y' ys IH]; intros y Hsp Hy v Hv; [destruct Hv|].
    destruct Hsp as [Hy' Hsp]. unfold OBSTACLE_GAP in Hy'.
    destruct Hv as [<- | Hv]; [lra|].
    apply (IH y' Hsp); [lra|exact Hv].
  - destruct IH as [k Hk]; [now destruct Hsp|].
    exists (S k). exact Hk.
Qed.

Lemma spaced_nth (ys : list R) (i j : nat) (a b : R) :
  spaced ys ->
  nth_error ys i = Some a ->
  nth_error ys (i + j) = Some b ->
  b = a - OBSTACLE_GAP * INR j.
Proof.
  revert i j a b. induction ys as [|y ys IH]; intros i j a b Hsp Ha Hb.
  - destruct i; discriminate.
  - destruct i as [|i].
    + cbn in Ha. injection Ha as <-. revert y ys b Hsp Hb IH.
      induction j as [|j IHj]; intros y ys b Hsp Hb IH.
      * cbn in Hb. injection Hb as <-. cbn. lra.
      * cbn [Nat.add nth_error] in Hb.
        destruct ys as [|y' ys]; [destruct j; discriminate|].
        destruct Hsp as [Hy Hsp].
        assert (Hb' : b = y' - OBSTACLE_GAP * INR j).
        { apply (IH 0%nat j y' b Hsp eq_refl Hb). }
        rewrite Hb', Hy, S_INR. lra.
    + cbn [Nat.add nth_error] in Ha, Hb.
      apply (IH i j a b); [now destruct Hsp|exact Ha|exact Hb].
Qed.

Lemma map_filter_heights (bound : R) (l : list Obstacle.t) :
  map Obstacle.y (filter (fun o => Rltb (Obstacle.y o) bound) l)
  = filter (fun v => Rltb v bound) (map Obstacle.y l).
Proof.
  induction l as [|o l IH]; [reflexivity|]. cbn [filter map].
  destruct (Rltb (Obstacle.y o) bound); cbn [map]; now rewrite IH.
Qed.

(** X22 (the spacing of the obstacles).  In every state of a
    session the obstacles of the array stand in the order of their
    heights, each exactly one gap of 300 above the one before it: the
    pruning only takes obstacles from the front of the array, and a new
    obstacle is created one gap above the last one. *)
Theorem obstacles_are_evenly_spaced (rnd : nat -> R) (w : World.t) :
  reachable rnd w ->
  forall (i j : nat) (oi oj : Obstacle.t),
    nth_error (GameState.obstacles (World.game w)) i = Some oi ->
    nth_error (GameState.obstacles (World.game w)) (i + j) = Some oj ->
    Obstacle.y oj = Obstacle.y oi - 300 * INR j.
Proof.
  intros Hreach.
  assert (Hsp : spaced (map Obstacle.y (GameState.obstacles (World.game w)))).
  { induction Hreach as [cw ch stored n Hch | w w' _ IH Hstep].
    - destruct (mount_obstacles rnd cw ch stored n)
        as (_ & _ & _ & Hlen & Hnth).
      cbv zeta in *.
      destruct (GameState.obstacles
                  (World.game (Component.world (mount rnd cw ch stored n))))
        as [|o0 [|o1 [|o2 [|o3 [|o4 [|o5 rest]]]]]]; try discriminate.
      destruct (Hnth 0%nat o0 eq_refl) as (_ & Y0 & _).
      destruct (Hnth 1%nat o1 eq_refl) as (_ & Y1 & _).
      destruct (Hnth 2%nat o2 eq_refl) as (_ & Y2 & _).
      destruct (Hnth 3%nat o3 eq_refl) as (_ & Y3 & _).
      destruct (Hnth 4%nat o4 eq_refl) as (_ & Y4 & _).
      cbn [map spaced]. rewrite Y0, Y1, Y2, Y3, Y4. simpl INR.
      repeat split; lra.
    - destruct Hstep as [gs w | f w t _ Hloop].
      + destruct gs; exact IH.
      + destruct (Frame.gameStatus f) eqn:Hgs.
        * destruct (gameLoop_playing rnd f w t Hloop Hgs)
            as (_ & _ & _ & _ & _ & _ & _ & Hend).
          pose proof (evolved_heights f w) as Hev.
          destruct Hend as [(_ & _ & _ & _ & Hobs)
                           | (_ & h & Hh & Hobs & _)]; rewrite Hobs.
          -- now rewrite Hev.
          -- unfold onScreen.
             rewrite (map_filter_heights
                        (movedCamera f w + Frame.height f + 200)).
             destruct (spaced_filter
                         (movedCamera f w + Frame.height f + 200)
                         (map Obstacle.y (generatedObstacles rnd f w h)))
               as [k Hk].
             ++ rewrite generatedObstacles_spec.
                destruct (nearFrontier f w h); [|now rewrite Hev].
                rewrite map_app, Hev. cbn [map].
                unfold newObstacle.
                destruct (createObstacle_fields rnd (Frame.width f)
                            (h - OBSTACLE_GAP)
                            (length (scoredObstacles f w))
                            (World.lastObstacleSpeed w)
                            (World.randomCalls w)) as (_ & Hy & _).
                cbv zeta in Hy. rewrite Hy.
                unfold highestObstacle in Hh. rewrite Hev in Hh.
                destruct (map Obstacle.y
                            (GameState.obstacles (World.game w)))
                  as [|y ys]; [discriminate|].
                rewrite (spaced_minimum y ys IH) in Hh.
                injection Hh as <-. now apply spaced_app.
             ++ rewrite Hk. apply spaced_skipn.
                rewrite generatedObstacles_spec.
                destruct (nearFrontier f w h); [|now rewrite Hev].
                rewrite map_app, Hev. cbn [map].
                unfold newObstacle.
                destruct (createObstacle_fields rnd (Frame.width f)
                            (h - OBSTACLE_GAP)
                            (length (scoredObstacles f w))
                            (World.lastObstacleSpeed w)
                            (World.randomCalls w)) as (_ & Hy & _).
                cbv zeta in Hy. rewrite Hy.
                unfold highestObstacle in Hh. rewrite Hev in Hh.
                destruct (map Obstacle.y
                            (GameState.obstacles (World.game w)))
                  as [|y ys]; [discriminate|].
                rewrite (spaced_minimum y ys IH) in Hh.
                injection Hh as <-. now apply spaced_app.
        * destruct (gameLoop_paused rnd f w t Hloop Hgs) as [Hg _].
          now rewrite Hg. }
  intros i j oi oj Hi Hj.
  pose proof (spaced_nth _ i j (Obstacle.y oi) (Obstacle.y oj) Hsp) as H.
  unfold OBSTACLE_GAP in H. apply H.
  - now rewrite nth_error_map, Hi.
  - now rewrite nth_error_map, Hj.
Qed.

Lemma obstacles_are_evenly_spaced_witness :
  reachable zeroRandom (Component.world smallCanvas)
  /\ forall oi oj : Obstacle.t,
       nth_error
         (GameState.obstacles (World.game (Component.world smallCanvas))) 1
       = Some oi ->
       nth_error
         (GameState.obstacles (World.game (Component.world smallCanvas)))
         (1 + 2)
       = Some oj ->
       Obstacle.y oj = Obstacle.y oi - 300 * INR 2.
Proof.
  split; [exact smallCanvas_reachable|].
  exact (obstacles_are_evenly_spaced zeroRandom (Component.world smallCanvas)
           smallCanvas_reachable 1%nat 2%nat).
Defined.

(** ** The types in use *)

Lemma obstacleTypeOf_drawn (i : nat) : obstacleTypeOf i <> doubleLine.
Proof.
  unfold obstacleTypeOf.
  destruct (i mod 5 =? 0)%nat; [discriminate|].
  destruct (i mod 2 =? 0)%nat; discriminate.
Qed.

(** X23 (the types of the obstacles).  The type ['doubleLine'], for
    which "draw obstacles" has no case, is never in use: in every state
    of a session each obstacle is a [ring], a [dotCircle] or a
    [halfRing], and its drawing strokes or fills something. *)
Theorem every_obstacle_is_drawn (rnd : nat -> R) (w : World.t) :
  reachable rnd w ->
  forall o : Obstacle.t,
    In o (GameState.obstacles (World.game w)) ->
    Obstacle.type o <> doubleLine
    /\ forall centerX cameraY : R,
         In Stroke (drawObstacle o centerX cameraY)
         \/ In Fill (drawObstacle o centerX cameraY).
Proof.
  intros Hreach.
  assert (Hty : forall o, In o (GameState.obstacles (World.game w)) ->
                          Obstacle.type o <> doubleLine).
  { induction Hreach as [cw ch stored n Hch | w w' _ IH Hstep].
    - destruct (mount_obstacles rnd cw ch stored n) as (_ & _ & _ & _ & Hnth).
      intros o Hin. apply In_nth_error in Hin. destruct Hin as [j Hj].
      destruct (Hnth j o Hj) as (Ht & _). rewrite Ht.
      apply obstacleTypeOf_drawn.
    - destruct Hstep as [gs w | f w t _ Hloop].
      + destruct gs; exact IH.
      + destruct (Frame.gameStatus f) eqn:Hgs.
        * destruct (gameLoop_playing rnd f w t Hloop Hgs)
            as (_ & _ & _ & _ & _ & _ & _ & Hend).
          assert (Hscored : forall o, In o (scoredObstacles f w) ->
                              Obstacle.type o <> doubleLine).
          { intros o Hin. rewrite scoredObstacles_evolve in Hin.
            apply in_map_iff in Hin. destruct Hin as (o' & <- & Hin).
            destruct (evolve_same f w o') as [(_ & Hsame & _) _].
            rewrite Hsame. now apply IH. }
          destruct Hend as [(_ & _ & _ & _ & Hobs)
                           | (_ & h & _ & Hobs & _)]; rewrite Hobs.
          -- exact Hscored.
          -- intros o Hin. apply filter_In in Hin. destruct Hin as [Hin _].
             rewrite generatedObstacles_spec in Hin.
             destruct (nearFrontier f w h); [|now apply Hscored].
             apply in_app_or in Hin. destruct Hin as [Hin | [<- | []]];
               [now apply Hscored|].
             unfold newObstacle.
             destruct (createObstacle_fields rnd (Frame.width f)
                         (h - OBSTACLE_GAP) (length (scoredObstacles f w))
                         (World.lastObstacleSpeed w) (World.randomCalls w))
               as (Ht & _).
             cbv zeta in Ht. rewrite Ht. apply obstacleTypeOf_drawn.
        * destruct (gameLoop_paused rnd f w t Hloop Hgs) as [Hg _].
          now rewrite Hg. }
  intros o Hin. split; [now apply Hty|].
  intros centerX cameraY. specialize (Hty o Hin). unfold drawObstacle.
  destruct (Obstacle.type o); [| | |contradiction].
  - left. unfold drawRing. cbn. tauto.
  - right. unfold drawDotCircle.
    destruct (forLoop_nth (dot (Obstacle.radius o)) 24 0 0 ltac:(lia))
      as (before & after & ->).
    apply in_or_app. right. apply in_or_app. left.
    apply in_or_app. right. apply in_or_app. left. cbn. tauto.
  - left. unfold drawHalfRing. cbn. tauto.
Qed.

Lemma every_obstacle_is_drawn_witness :
  reachable zeroRandom (Component.world smallCanvas)
  /\ forall o : Obstacle.t,
       In o (GameState.obstacles (World.game (Component.world smallCanvas))) ->
       Obstacle.type o <> doubleLine.
Proof.
  split; [exact smallCanvas_reachable|].
  intros o Hin.
  exact (proj1 (every_obstacle_is_drawn zeroRandom
                  (Component.world smallCanvas) smallCanvas_reachable o Hin)).
Defined.

(** ** Colour switchers *)

(** X24 (colour switchers).  All that happens to a colour switcher is
    to be marked and, later, to be filtered out: a call that reports no
    collision appends at most one switcher, unused, on the centre line
    of the canvas and half a gap above the highest obstacle, marks the
    switchers whose centre is strictly less than [ball.radius + 15]
    from the centre of the ball, without changing them otherwise or
    clearing a mark, and keeps those that the off-screen filter lets
    through; any other call leaves them as they are. *)
Theorem switchers_are_only_marked (rnd : nat -> R) (f : Frame.t)
    (w : World.t) (t : Tick.t) :
  gameLoop rnd f w = Some t ->
  let g := World.game w in
  let g' := World.game (Tick.world t) in
  let ball := movedBall f w in
  ((Frame.gameStatus f = gsPaused \/ collides f w = true) ->
   GameState.colorSwitchers g' = GameState.colorSwitchers g)
  /\ (Frame.gameStatus f = gsPlaying -> collides f w = false ->
      exists news : list ColorSwitcher.t,
        GameState.colorSwitchers g'
        = filter (fun s => onScreen (movedCamera f w) (Frame.height f)
                             (ColorSwitcher.y s))
            (map (useSwitcher ball) (GameState.colorSwitchers g ++ news))
        /\ (news = []
            \/ exists id h : R,
                 highestObstacle f w = Some h
                 /\ news = [ColorSwitcher.mk id (Frame.width f / 2)
                              (h - 150) false]))
  /\ (forall s : ColorSwitcher.t,
        ColorSwitcher.id (useSwitcher ball s) = ColorSwitcher.id s
        /\ ColorSwitcher.x (useSwitcher ball s) = ColorSwitcher.x s
        /\ ColorSwitcher.y (useSwitcher ball s) = ColorSwitcher.y s
        /\ ColorSwitcher.used (useSwitcher ball s)
           = ColorSwitcher.used s || checkColorSwitcher ball s)
  /\ forall s : ColorSwitcher.t,
       let dx := Ball.x ball - ColorSwitcher.x s in
       let dy := Ball.y ball - ColorSwitcher.y s in
       0 <= Ball.radius ball + 15 ->
       (checkColorSwitcher ball s = true
        <-> dx * dx + dy * dy < (Ball.radius ball + 15) * (Ball.radius ball + 15)).
Proof.
  intros Hloop g g' ball. split; [|split; [|split]].
  - intros [Hgs | Hcol].
    + destruct (gameLoop_paused rnd f w t Hloop Hgs) as [Hg _].
      unfold g', g. now rewrite Hg.
    + destruct (Frame.gameStatus f) eqn:Hgs.
      * destruct (gameLoop_decorations rnd f w t Hloop Hgs)
          as [(_ & Hsw & _) | (Hno & _)]; [exact Hsw|congruence].
      * destruct (gameLoop_paused rnd f w t Hloop Hgs) as [Hg _].
        unfold g', g. now rewrite Hg.
  - intros Hgs Hcol.
    destruct (gameLoop_decorations rnd f w t Hloop Hgs)
      as [(Hyes & _) | (_ & h & Hh & Hsw & _)]; [congruence|].
    destruct (generated_decorations rnd f w h)
      as [(_ & Hgen & _) | (_ & (id & Hgen) & _)];
      cbv zeta in Hgen; rewrite Hgen in Hsw.
    + exists []. rewrite app_nil_r. split; [exact Hsw|now left].
    + eexists. split; [exact Hsw|]. right. exists id, h.
      split; [exact Hh|]. unfold OBSTACLE_GAP. do 2 f_equal. lra.
  - intros s. unfold useSwitcher.
    destruct (ColorSwitcher.used s) eqn:Hu; cbn [negb andb orb].
    + repeat split; assumption.
    + destruct (checkColorSwitcher ball s); cbn; repeat split; assumption.
  - intros s dx dy Hr. unfold checkColorSwitcher. fold dx dy.
    rewrite Rltb_true.
    assert (Hsq : 0 <= dx * dx + dy * dy) by nra.
    split; intros H.
    + apply sqrt_lt_0_alt.
      rewrite (sqrt_square (Ball.radius ball + 15)) by exact Hr. exact H.
    + rewrite <- (sqrt_square (Ball.radius ball + 15)) by exact Hr.
      apply sqrt_lt_1_alt. split; [exact Hsq|exact H].
Qed.

Lemma switchers_are_only_marked_witness :
  exists t : Tick.t,
    gameLoop zeroRandom climbingFrame climbingWorld = Some t
    /\ (0 <= Ball.radius (movedBall climbingFrame climbingWorld) + 15 ->
        forall s : ColorSwitcher.t,
          ColorSwitcher.y
            (useSwitcher (movedBall climbingFrame climbingWorld) s)
          = ColorSwitcher.y s).
Proof.
  destruct climbing_call as [t Ht]. exists t. split; [exact Ht|].
  intros _ s.
  destruct (switchers_are_only_marked zeroRandom climbingFrame climbingWorld
              t Ht) as (_ & _ & Hs & _).
  exact (proj1 (proj2 (proj2 (Hs s)))).
Defined.
